(** * mongoose-sub-references-integrity-checker: a shallow embedding of
      [src/index.js] and the properties of its reference registry, policy
      engine, save-time validator and deferred update scheduler.

    The plugin is JavaScript on top of mongoose and MongoDB.  The code of
    [index.js] is translated function by function; the collaborators it
    calls (mongoose's schema lookup, the storage engine's query and update
    operators, [Promise.all], document [deleteOne] / [softDelete]) are
    modelled next to it and marked as such. *)

From Stdlib Require Import ZArith NArith String Ascii List Bool Lia.
From stdpp Require Import gmap strings.
Import ListNotations.
Local Open Scope string_scope.
Local Open Scope list_scope.

Set Implicit Arguments.

(* ===================================================================== *)
(** ** JavaScript values *)
(* ===================================================================== *)

(** The values that flow through the plugin: what documents store, what
    array fields hold and what [document.get] returns.  Numbers are the
    integers (no NaN), ObjectIds are opaque numbers. *)
#[local] Unset Elimination Schemes.
Inductive value : Type :=
| VUndef
| VNull
| VBool (b : bool)
| VNum (z : Z)
| VStr (s : string)
| VOid (o : N)
| VArr (l : list value)
| VObj (fs : list (string * value)).
#[local] Set Elimination Schemes.

(** Structural equality, the storage engine's equality on stored values. *)
Fixpoint value_eqb (a b : value) {struct a} : bool :=
  match a, b with
  | VUndef, VUndef => true
  | VNull, VNull => true
  | VBool x, VBool y => Bool.eqb x y
  | VNum x, VNum y => Z.eqb x y
  | VStr x, VStr y => String.eqb x y
  | VOid x, VOid y => N.eqb x y
  | VArr l, VArr m =>
      (fix go (l m : list value) {struct l} : bool :=
         match l, m with
         | [], [] => true
         | x :: l', y :: m' => value_eqb x y && go l' m'
         | _, _ => false
         end) l m
  | VObj l, VObj m =>
      (fix go (l m : list (string * value)) {struct l} : bool :=
         match l, m with
         | [], [] => true
         | (k, x) :: l', (k', y) :: m' =>
             String.eqb k k' && value_eqb x y && go l' m'
         | _, _ => false
         end) l m
  | _, _ => false
  end.

(** JavaScript truthiness: what [v ? a : b], [v || w] and [if (v)] test. *)
Definition truthy (v : value) : bool :=
  match v with
  | VUndef | VNull => false
  | VBool b => b
  | VNum z => negb (Z.eqb z 0)
  | VStr s => negb (String.eqb s "")
  | VOid _ | VArr _ | VObj _ => true
  end.

(** [a || b] *)
Definition js_or (a b : value) : value := if truthy a then a else b.

(** Own property lookup in an object literal; [undefined] when absent. *)
Fixpoint field (k : string) (fs : list (string * value)) : value :=
  match fs with
  | [] => VUndef
  | (k', v) :: fs' => if String.eqb k k' then v else field k fs'
  end.

(** [obj[k] = v] on an object literal: overwrite in place or append. *)
Fixpoint set_field (k : string) (v : value) (fs : list (string * value))
  : list (string * value) :=
  match fs with
  | [] => [(k, v)]
  | (k', x) :: fs' =>
      if String.eqb k k' then (k, v) :: fs' else (k', x) :: set_field k v fs'
  end.

(* ===================================================================== *)
(** ** Strings: [split('.')], [join('.')], [substr(n)] *)
(* ===================================================================== *)

Fixpoint split_dot_aux (acc s : string) : list string :=
  match s with
  | EmptyString => [acc]
  | String c s' =>
      if Ascii.eqb c "."%char then acc :: split_dot_aux "" s'
      else split_dot_aux (acc ++ String c "") s'
  end.

(** [s.split('.')] *)
Definition split_dot (s : string) : list string := split_dot_aux "" s.

(** [l.join('.')] *)
Fixpoint join_dot (l : list string) : string :=
  match l with
  | [] => ""
  | [x] => x
  | x :: l' => x ++ "." ++ join_dot l'
  end.

(** [s.substr(n)] *)
Fixpoint substr (n : nat) (s : string) : string :=
  match n, s with
  | O, _ => s
  | S n', String _ s' => substr n' s'
  | S _, EmptyString => ""
  end.

(** index.js:9 [getRootRef]: [subRef.split('.')[0]] *)
Definition getRootRef (subRef : string) : string :=
  match split_dot subRef with
  | x :: _ => x
  | [] => ""
  end.

(* ===================================================================== *)
(** ** Errors and results *)
(* ===================================================================== *)

(** Modelled from the spec: the class [SubRefConstraintError] of
    [./error.js], which is not among the sources.  index.js builds it
    from an options object (index.js:142-148) and reads the same options
    back from [e.options] (index.js:333-336); the specification lists
    the same five fields for the constraint error. *)
Record constraint_info : Type := {
  ci_modelSubRef : string;
  ci_pathSubRef : string;
  ci_modelRef : string;
  ci_pathRef : string;
  ci_constrainedDocId : value
}.

Inductive error : Type :=
| SubRefConstraintError (options : constraint_info)
  (** the [new Error(...)] of index.js:331-337; its message interpolates
      the five options of the constraint error it replaces *)
| ValidatorError (modelSubRef pathSubRef modelRef pathRef : string)
                 (constrainedDocId : value)
| TypeError (what : string)
| MissingSchemaError (modelName : string)
| OutOfFuel.

Inductive result (A : Type) : Type :=
| Ok (a : A)
| Err (e : error).
Arguments Ok {A} a.
Arguments Err {A} e.

(** [e instanceof SubRefConstraintError] *)
Definition is_constraint_error (e : error) : bool :=
  match e with SubRefConstraintError _ => true | _ => false end.

(* ===================================================================== *)
(** ** The storage engine: queries and updates *)
(* ===================================================================== *)

(** The two shapes of filter that [getFindQueryObjectFor] builds:
    [{ _id: v }] and [{ [path]: { $in: vals } }]. *)
Inductive query : Type :=
| QId (v : value)
| QIn (path : string) (vals : list value).

(** [v] is one of [vals] *)
Definition in_values (vals : list value) (v : value) : bool :=
  existsb (value_eqb v) vals.

(** The values a dotted path reaches inside a stored document, the way
    the storage engine resolves it: a segment selects a field of an
    embedded document, an array of embedded documents is traversed
    element by element, and an array found at the end of the path offers
    each of its elements as well as itself. *)
Fixpoint candidates (v : value) (path : list string) {struct v} : list value :=
  match path with
  | [] => v :: match v with VArr l => l | _ => [] end
  | seg :: rest =>
      match v with
      | VObj fs =>
          (fix look (fs : list (string * value)) : list value :=
             match fs with
             | [] => []
             | (k, x) :: fs' =>
                 if String.eqb seg k then candidates x rest else look fs'
             end) fs
      | VArr l =>
          (fix each (l : list value) : list value :=
             match l with
             | [] => []
             | x :: l' =>
                 match x with
                 | VObj _ => candidates x path
                 | _ => []
                 end ++ each l'
             end) l
      | _ => []
      end
  end.

(** Does a stored document satisfy a filter? *)
Definition matches (q : query) (d : value) : bool :=
  match q, d with
  | QId v, VObj fs => value_eqb (field "_id" fs) v
  | QIn path vals, _ => existsb (in_values vals) (candidates d (split_dot path))
  | _, _ => false
  end.

(** The update documents [getUpdateQueryObjectFor] builds:
    [{ $pull: { [path]: { $in: vals } } }] and [{ $set: { [path]: null } }]. *)
Inductive update : Type :=
| Pull (path : string) (vals : list value)
| SetNull (path : string).

(** [{ arrayFilters: [{ ['j.' + cond]: { $in: vals } }] }] *)
Record array_filter : Type := {
  af_key : string;
  af_vals : list value
}.

(** The last step of an update path, applied to the embedded document
    that owns the terminal field. *)
Definition update_terminal (u : update) (k : string)
           (fs : list (string * value)) : list (string * value) :=
  match u with
  | SetNull _ => set_field k VNull fs
  | Pull _ vals =>
      match field k fs with
      | VArr l => set_field k (VArr (List.filter (fun x => negb (in_values vals x)) l)) fs
      | _ => fs
      end
  end.

(** Does an array element satisfy the array filter bound to [$[j]]?  The
    filter key is ['j.' + path]; the path is resolved inside the element. *)
Definition filter_holds (af : option array_filter) (x : value) : bool :=
  match af with
  | None => false
  | Some f => existsb (in_values (af_vals f))
                      (candidates x (List.tl (split_dot (af_key f))))
  end.

(** Walk the tokens of an update path: a field name descends into an
    embedded document, [$[]] into every element of an array, [$[j]] into
    the elements the array filter selects. *)
Fixpoint update_at (u : update) (af : option array_filter)
         (v : value) (toks : list string) {struct v} : value :=
  match toks with
  | [] => v
  | [k] =>
      match v with
      | VObj fs => VObj (update_terminal u k fs)
      | _ => v
      end
  | tok :: rest =>
      match v with
      | VObj fs =>
          VObj ((fix walk (fs : list (string * value)) : list (string * value) :=
                   match fs with
                   | [] => []
                   | (k, x) :: fs' =>
                       (k, if String.eqb tok k then update_at u af x rest else x)
                         :: walk fs'
                   end) fs)
      | VArr l =>
          if String.eqb tok "$[]" then
            VArr ((fix all (l : list value) : list value :=
                     match l with
                     | [] => []
                     | x :: l' => update_at u af x rest :: all l'
                     end) l)
          else if String.eqb tok "$[j]" then
            VArr ((fix some (l : list value) : list value :=
                     match l with
                     | [] => []
                     | x :: l' =>
                         (if filter_holds af x then update_at u af x rest else x)
                           :: some l'
                     end) l)
          else v
      | _ => v
      end
  end.

Definition update_path (u : update) : string :=
  match u with Pull p _ => p | SetNull p => p end.

(** One document under an update. *)
Definition apply_update (u : update) (af : option array_filter) (d : value) : value :=
  update_at u af d (split_dot (update_path u)).

(** What the plugin asks of the store and of documents, in call order. *)
Inductive event : Type :=
| EFindOne (model : string) (q : query)
| EFind (model : string) (q : query)
| EUpdateMany (model : string) (q : query) (u : update) (af : option array_filter)
| EDeleteOne (model : string) (id : value)
| ESoftDelete (model : string) (id : value) (deleted : bool).

(** The events that change stored documents. *)
Definition mutating (e : event) : bool :=
  match e with
  | EFindOne _ _ | EFind _ _ => false
  | _ => true
  end.

(* ===================================================================== *)
(** ** Schemas *)
(* ===================================================================== *)

(** The options of a schema type that the plugin reads:
    [options.subRef] and [options.boundTo]; [None] is [undefined]. *)
Record ref_options : Type := {
  subRef : option string;
  boundTo : option string
}.

(** The element declaration of an array of primitives,
    [schemaType.options.type[0]]: a plain object literal such as
    [{ type: ObjectId, subRef: 'Person.contacts', required: true }].  It
    has the keys the user wrote, so [raw_options] (its [.options]) is
    [undefined] unless the user wrote one. *)
Record raw_decl : Type := {
  raw_subRef : option string;
  raw_options : option ref_options;
  raw_required : bool;
  raw_cascade : bool
}.

(** A mongoose schema type with the properties the plugin reads:
    [constructor.name], [options], [options.type[0]], the truthiness of
    [required] and [cascade], and [schema] (the sub-schema of a document
    array or of a single nested document).

    [type0] is what [options.type[0]] holds where the plugin reads it,
    that is on a [SchemaArray]: [Some r] for an object literal [r]
    written by the user, [None] for a value without a [subRef] (a
    constructor such as [String] or [ObjectId]).  A [SchemaArray] declared
    without an element, [tags: []] or [tags: Array], has no
    [options.type[0]] at all: it is an [UntypedArray], and reading
    [options.type[0].subRef] on it throws. *)
#[local] Unset Elimination Schemes.
Inductive schemaType : Type :=
| SchemaType (ctor : string) (options : ref_options) (type0 : option raw_decl)
             (required cascade : bool)
             (schema : option (list (string * schemaType)))
| UntypedArray (options : ref_options) (required cascade : bool).
#[local] Set Elimination Schemes.

(** A schema: its paths in [eachPath] order.  A path nested in plain
    objects is one dotted key, as in [schema.paths]. *)
Definition schema : Type := list (string * schemaType).

Definition st_ctor (st : schemaType) : string :=
  match st with
  | SchemaType c _ _ _ _ _ => c
  | UntypedArray _ _ _ => "SchemaArray"
  end.
Definition st_options (st : schemaType) : ref_options :=
  match st with
  | SchemaType _ o _ _ _ _ => o
  | UntypedArray o _ _ => o
  end.
Definition st_required (st : schemaType) : bool :=
  match st with
  | SchemaType _ _ _ r _ _ => r
  | UntypedArray _ r _ => r
  end.
Definition st_cascade (st : schemaType) : bool :=
  match st with
  | SchemaType _ _ _ _ c _ => c
  | UntypedArray _ _ c => c
  end.

(** [s] without the prefix [p], when it has it. *)
Fixpoint strip_prefix (p s : string) : option string :=
  match p, s with
  | EmptyString, _ => Some s
  | String a p', String b s' => if Ascii.eqb a b then strip_prefix p' s' else None
  | String _ _, EmptyString => None
  end.

(** mongoose's [Schema.prototype.path(p)] under a schema type: a key of
    the sub-schema, or a key followed by a path below it (mongoose
    resolves paths underneath document arrays and nested documents). *)
Fixpoint st_path (st : schemaType) (p : string) {struct st} : option schemaType :=
  match st with
  | SchemaType _ _ _ _ _ (Some paths) =>
      (fix look (paths : list (string * schemaType)) : option schemaType :=
         match paths with
         | [] => None
         | (k, x) :: paths' =>
             if String.eqb p k then Some x
             else match strip_prefix (k ++ ".") p with
                  | Some rest =>
                      match st_path x rest with
                      | Some r => Some r
                      | None => look paths'
                      end
                  | None => look paths'
                  end
         end) paths
  | SchemaType _ _ _ _ _ None => None
  | UntypedArray _ _ _ => None
  end.

(** [schema.path(p)]; [None] is [undefined]. *)
Definition schema_path (sch : schema) (p : string) : option schemaType :=
  st_path (SchemaType "Schema" {| subRef := None; boundTo := None |} None
                      false false (Some sch)) p.

(** What the registry keeps as [schemaType] in a descriptor and what the
    policy engine reads from it: [.options] (absent on a raw element
    declaration), [.required] and [.cascade]. *)
Record refType : Type := {
  rt_options : option ref_options;
  rt_required : bool;
  rt_cascade : bool
}.

Definition refType_of_schemaType (st : schemaType) : refType :=
  {| rt_options := Some (st_options st);
     rt_required := st_required st;
     rt_cascade := st_cascade st |}.

Definition refType_of_raw (r : raw_decl) : refType :=
  {| rt_options := raw_options r;
     rt_required := raw_required r;
     rt_cascade := raw_cascade r |}.

(** An entry of [refs]: [{ modelName, path, schemaType }]. *)
Record descriptor : Type := {
  d_modelName : string;
  d_path : string;
  d_schemaType : refType
}.

(** The variables a validator closes over (index.js:274-277):
    [schemaType], [modelName], [path], [subRefModel], [pathSubRef]. *)
Record validator_closure : Type := {
  vc_schemaType : refType;
  vc_modelName : string;
  vc_path : string;
  vc_subRefModel : string;
  vc_pathSubRef : string
}.

(** A string option is truthy when it is a non-empty string. *)
Definition str_truthy (o : option string) : bool :=
  match o with
  | Some s => negb (String.eqb s "")
  | None => false
  end.

(** The property key a value is coerced to in [refs[key]]. *)
Definition key_of (o : option string) : string :=
  match o with
  | Some s => s
  | None => "undefined"
  end.

(* ===================================================================== *)
(** ** The world and the monad of the plugin *)
(* ===================================================================== *)

(** Everything the plugin's code can reach: the module-level [refs]
    table, mongoose's model registry, the validators attached to schema
    paths, the models whose schema carries the plugin's hooks, the stored
    collections, and the calls made on the store so far. *)
Record world : Type := {
  refs : gmap string (list descriptor);
  models : gmap string schema;
  validators : list (string * string * validator_closure);
  plugged : list string;
  db : gmap string (list value);
  log : list event
}.

Definition with_refs (r : gmap string (list descriptor)) (w : world) : world :=
  {| refs := r; models := models w; validators := validators w;
     plugged := plugged w; db := db w; log := log w |}.
Definition with_models (m : gmap string schema) (w : world) : world :=
  {| refs := refs w; models := m; validators := validators w;
     plugged := plugged w; db := db w; log := log w |}.
Definition with_validators (v : list (string * string * validator_closure))
           (w : world) : world :=
  {| refs := refs w; models := models w; validators := v;
     plugged := plugged w; db := db w; log := log w |}.
Definition with_plugged (p : list string) (w : world) : world :=
  {| refs := refs w; models := models w; validators := validators w;
     plugged := p; db := db w; log := log w |}.
Definition with_db (d : gmap string (list value)) (w : world) : world :=
  {| refs := refs w; models := models w; validators := validators w;
     plugged := plugged w; db := d; log := log w |}.
Definition with_log (l : list event) (w : world) : world :=
  {| refs := refs w; models := models w; validators := validators w;
     plugged := plugged w; db := db w; log := l |}.

(** A computation that reads and writes the world and may throw; the
    world a throwing computation leaves behind is kept. *)
Definition M (A : Type) : Type := world -> result A * world.

Definition ret {A} (a : A) : M A := fun w => (Ok a, w).
Definition throw {A} (e : error) : M A := fun w => (Err e, w).
Definition bind {A B} (m : M A) (k : A -> M B) : M B :=
  fun w => match m w with
           | (Ok a, w') => k a w'
           | (Err e, w') => (Err e, w')
           end.
Definition lift {A} (r : result A) : M A := fun w => (r, w).

Notation "x <- m ;; k" := (bind m (fun x => k))
  (at level 90, m at level 89, right associativity).
Notation "m ;;; k" := (bind m (fun _ => k))
  (at level 90, right associativity).

Definition emit (e : event) : M unit :=
  fun w => (Ok tt, with_log (log w ++ [e]) w).

(** The documents of a collection. *)
Definition coll (m : string) (w : world) : list value :=
  match db w !! m with
  | Some l => l
  | None => []
  end.

(** [mongoose.model(name)]: the registered schema, or a
    [MissingSchemaError]. *)
Definition model (name : string) : M schema :=
  fun w => match models w !! name with
           | Some s => (Ok s, w)
           | None => (Err (MissingSchemaError name), w)
           end.

(** [Model.findOne(q).exec()]: the first match, or [null]. *)
Definition findOne (m : string) (q : query) : M value :=
  emit (EFindOne m q) ;;;
  fun w => (Ok (List.hd VNull (List.filter (matches q) (coll m w))), w).

(** [Model.find(q).exec()] *)
Definition find (m : string) (q : query) : M (list value) :=
  emit (EFind m q) ;;;
  fun w => (Ok (List.filter (matches q) (coll m w)), w).

(** [Model.updateMany(q, u, { arrayFilters }).exec()] *)
Definition updateMany (m : string) (q : query) (u : update)
           (af : option array_filter) : M unit :=
  emit (EUpdateMany m q u af) ;;;
  fun w => (Ok tt,
            with_db (alter (List.map (fun d => if matches q d
                                               then apply_update u af d
                                               else d)) m (db w)) w).

(** [Promise.all(tasks)] in the run in which the started operations
    proceed one after the other, each to its end, in the order of the
    list: every operation runs whatever the others do, and the outcome is
    the failure of the first one that fails.  The operations of a real
    run interleave; the runs of every schedule are those of [Async]
    below, of which this one is [Async.run_seq]. *)
Fixpoint promise_all (tasks : list (M unit)) : M unit :=
  fun w =>
    match tasks with
    | [] => (Ok tt, w)
    | t :: rest =>
        let (r, w1) := t w in
        let (r', w2) := promise_all rest w1 in
        (match r with Ok _ => r' | Err e => Err e end, w2)
    end.

(* ===================================================================== *)
(** ** Documents *)
(* ===================================================================== *)

Definition rbind {A B} (r : result A) (k : A -> result B) : result B :=
  match r with
  | Ok a => k a
  | Err e => Err e
  end.

Fixpoint mapR {A B} (f : A -> result B) (l : list A) : result (list B) :=
  match l with
  | [] => Ok []
  | x :: l' => rbind (f x) (fun y => rbind (mapR f l') (fun ys => Ok (y :: ys)))
  end.

(** Property access [v.k]: a [TypeError] on [null] and [undefined],
    [undefined] on a primitive. *)
Definition prop (v : value) (k : string) : result value :=
  match v with
  | VUndef | VNull => Err (TypeError ("Cannot read property " ++ k)%string)
  | VObj fs => Ok (field k fs)
  | _ => Ok VUndef
  end.

(** [document.get(path)]: a segment selects a field of a nested object
    or subdocument and is [undefined] when the field is absent; on an
    array the rest of the path is read in every element and the result
    is the array of what was read.

    The document is the hydrated mongoose document, not the stored one:
    mongoose has put [[]] at every array path the stored document
    lacked, so that a path declared as an array reads as an array. *)
Fixpoint get_path (v : value) (path : list string) {struct v} : value :=
  match path with
  | [] => v
  | seg :: rest =>
      match v with
      | VObj fs =>
          (fix look (fs : list (string * value)) : value :=
             match fs with
             | [] => VUndef
             | (k, x) :: fs' =>
                 if String.eqb seg k then get_path x rest else look fs'
             end) fs
      | VArr l =>
          VArr ((fix each (l : list value) : list value :=
                   match l with
                   | [] => []
                   | x :: l' => get_path x path :: each l'
                   end) l)
      | _ => VUndef
      end
  end.

Definition doc_get (document : value) (path : string) : value :=
  get_path document (split_dot path).

(** [document.set(path, v)] along plain nesting. *)
Fixpoint set_path (v : value) (path : list string) (x : value) {struct path} : value :=
  match path with
  | [] => x
  | seg :: rest =>
      match v with
      | VObj fs => VObj (set_field seg (set_path (field seg fs) rest x) fs)
      | _ => VObj [(seg, set_path VUndef rest x)]
      end
  end.

Definition doc_set (document : value) (path : string) (x : value) : value :=
  set_path document (split_dot path) x.

(** [d._id || d] *)
Definition ref_value (d : value) : result value :=
  rbind (prop d "_id") (fun id => Ok (js_or id d)).

(** [xs.map((d) => d._id || d)], a [TypeError] when [xs] is no array. *)
Definition ref_values (xs : value) : result (list value) :=
  match xs with
  | VArr l => mapR ref_value l
  | _ => Err (TypeError "map is not a function")
  end.

(** index.js:13 [getReferencedValues] *)
Definition getReferencedValues (pathSubRef : string) (referencedDocument : value)
  : result (list value) :=
  ref_values (doc_get referencedDocument pathSubRef).

(* ===================================================================== *)
(** ** Path resolver (index.js:18-84) *)
(* ===================================================================== *)

(** index.js:18 [getFindQueryObjectFor] *)
Definition getFindQueryObjectFor (modelRef pathRef : string)
           (referencedValues : list value) (boundRefValue : value) : query :=
  if truthy boundRefValue
  then QId boundRefValue
  else QIn pathRef referencedValues.

(** The first loop of [getUpdateQueryObjectFor] (index.js:35-47): for
    every proper prefix of the path, is it a document array? *)
Definition build_info (sch : schema) (path : list string) : list bool :=
  List.map (fun i =>
              match schema_path sch (join_dot (firstn (S i) path)) with
              | Some st => String.eqb (st_ctor st) "DocumentArrayPath"
              | None => false
              end)
           (seq 0 (List.length path - 1)).

(** [lastDocumentArray] after the first loop. *)
Definition last_doc_array (info : list bool) : option nat :=
  fold_left (fun (acc : option nat) (ib : nat * bool) =>
               if snd ib then Some (fst ib) else acc)
            (combine (seq 0 (List.length info)) info) None.

Definition opt_nat_is (o : option nat) (i : nat) : bool :=
  match o with
  | Some j => Nat.eqb i j
  | None => false
  end.

(** [lastDocumentArray !== null && i > lastDocumentArray] *)
Definition after_last (o : option nat) (i : nat) : bool :=
  match o with
  | Some j => Nat.ltb j i
  | None => false
  end.

(** The second loop (index.js:53-59), for [updatePath]. *)
Definition build_updatePath (path : list string) (info : list bool)
           (lastDocumentArray : option nat) : string :=
  fold_left (fun (acc : string) (i : nat) =>
               (acc ++ nth i path "" ++ "." ++
                    (if nth i info false
                     then (if opt_nat_is lastDocumentArray i then "$[j]." else "$[].")
                     else ""))%string)
            (seq 0 (List.length info)) "".

(** The second loop, for [arrayFilterConditionPath]. *)
Definition build_condPath (path : list string) (info : list bool)
           (lastDocumentArray : option nat) : string :=
  fold_left (fun (acc : string) (i : nat) =>
               if after_last lastDocumentArray i
               then (acc ++ nth i path "" ++ ".")%string
               else acc)
            (seq 0 (List.length info)) "".

(** index.js:26 [getUpdateQueryObjectFor], on the schema that
    [mongoose.model(modelRef)] returned: the update document and, when
    the path crosses a document array, the array filter. *)
Definition getUpdateQueryObjectFor (sch : schema) (pathRef : string)
           (referencedValues : list value)
  : result (update * option array_filter) :=
  let path := split_dot pathRef in
  let fieldRefSchemaType := schema_path sch pathRef in
  let info := build_info sch path in
  let lastDocumentArray := last_doc_array info in
  let final := nth (List.length path - 1) path "" in
  let updatePath :=
    (build_updatePath path info lastDocumentArray ++ final)%string in
  let arrayFilterConditionPath :=
    (build_condPath path info lastDocumentArray ++ final)%string in
  match fieldRefSchemaType with
  | None => Err (TypeError "Cannot read property constructor of undefined")
  | Some st =>
      let u := if String.eqb (st_ctor st) "SchemaArray"
               then Pull updatePath referencedValues
               else SetNull updatePath in
      Ok (u,
          match lastDocumentArray with
          | Some _ => Some {| af_key := ("j." ++ arrayFilterConditionPath)%string;
                              af_vals := referencedValues |}
          | None => None
          end)
  end.

(* ===================================================================== *)
(** ** Policy engine (index.js:86-198) *)
(* ===================================================================== *)

(** The destructured last parameter [{ softDelete = false, _deleted } = {}]. *)
Record delete_ctx : Type := {
  ctx_softDelete : bool;
  ctx_deleted : bool
}.

(** No options given: [softDelete] defaults to [false], [_deleted] is
    [undefined]. *)
Definition no_ctx : delete_ctx :=
  {| ctx_softDelete := false; ctx_deleted := false |}.

(** The two methods the cascade calls on the documents it found. *)
Record doc_ops : Type := {
  op_deleteOne : string -> value -> M unit;
  op_softDelete : string -> value -> bool -> M unit
}.

Definition doc_id (d : value) : value :=
  match d with
  | VObj fs => field "_id" fs
  | _ => VUndef
  end.

Fixpoint for_each {A} (l : list A) (f : A -> M unit) : M unit :=
  match l with
  | [] => ret tt
  | x :: l' => f x ;;; for_each l' f
  end.

Section Engine.

Variable ops : doc_ops.

(** index.js:86 *)
Definition onDeleteSetNull (modelRef pathRef modelSubRef pathSubRef : string)
           (referencedValues : list value) (boundRefValue : value)
           (ctx : delete_ctx) : M unit :=
  if negb (ctx_softDelete ctx) then
    sch <- model modelRef ;;
    ua <- lift (getUpdateQueryObjectFor sch pathRef referencedValues) ;;
    updateMany modelRef
               (getFindQueryObjectFor modelRef pathRef referencedValues boundRefValue)
               (fst ua) (snd ua)
  else ret tt.

(** index.js:105 *)
Definition onDeleteCascade (modelRef pathRef modelSubRef pathSubRef : string)
           (referencedValues : list value) (boundRefValue : value)
           (ctx : delete_ctx) : M unit :=
  let queryObject :=
    getFindQueryObjectFor modelRef pathRef referencedValues boundRefValue in
  model modelRef ;;;
  documents <- find modelRef queryObject ;;
  if ctx_softDelete ctx
  then promise_all
         (List.map (fun doc => op_softDelete ops modelRef doc (ctx_deleted ctx))
                   documents)
  else promise_all
         (List.map (fun doc => op_deleteOne ops modelRef doc) documents).

(** index.js:125 *)
Definition onDeleteBlock (modelRef pathRef modelSubRef pathSubRef : string)
           (referencedValues : list value) (boundRefValue : value)
           (ctx : delete_ctx) : M unit :=
  if negb (ctx_softDelete ctx) || ctx_deleted ctx then
    model modelRef ;;;
    constrainedDoc <-
      findOne modelRef
              (getFindQueryObjectFor modelRef pathRef referencedValues boundRefValue) ;;
    if truthy constrainedDoc
    then throw (SubRefConstraintError
                  {| ci_modelSubRef := modelSubRef;
                     ci_pathSubRef := pathSubRef;
                     ci_modelRef := modelRef;
                     ci_pathRef := pathRef;
                     ci_constrainedDocId := doc_id constrainedDoc |})
    else ret tt
  else ret tt.

(** index.js:152 *)
Definition onDeleteConditions (schemaType : refType)
           (modelRef pathRef modelSubRef pathSubRef : string)
           (referencedValues : list value) (boundRefValue : value)
           (softDeleteOptions : delete_ctx) : M unit :=
  if rt_required schemaType then
    if rt_cascade schemaType
    then onDeleteCascade modelRef pathRef modelSubRef pathSubRef
                         referencedValues boundRefValue softDeleteOptions
    else onDeleteBlock modelRef pathRef modelSubRef pathSubRef
                       referencedValues boundRefValue softDeleteOptions
  else onDeleteSetNull modelRef pathRef modelSubRef pathSubRef
                       referencedValues boundRefValue softDeleteOptions.

(** [schemaType.options.boundTo ? document.get(schemaType.options.boundTo) : null]
    (index.js:237 and 301) *)
Definition bound_value (o : ref_options) (document : value) : value :=
  if str_truthy (boundTo o)
  then doc_get document (key_of (boundTo o))
  else VNull.

(** The body of the loop of [onDelete] (index.js:232-251). *)
Definition onDelete_step (modelName : string) (document : value)
           (softDeleteOptions : delete_ctx) (d : descriptor) : M unit :=
  match rt_options (d_schemaType d) with
  | None => throw (TypeError "Cannot read property subRef of undefined")
  | Some o =>
      match subRef o with
      | None => throw (TypeError "Cannot read property substr of undefined")
      | Some sr =>
          let pathSubRef := substr (String.length modelName + 1) sr in
          let boundRefValue := bound_value o document in
          vals <- lift (getReferencedValues pathSubRef document) ;;
          onDeleteConditions (d_schemaType d) (d_modelName d) (d_path d)
                             modelName pathSubRef vals boundRefValue
                             softDeleteOptions
      end
  end.

(** index.js:231 [onDelete], in the closure of [plugin(modelName, ...)]. *)
Definition onDelete (modelName : string) (document : value)
           (softDeleteOptions : delete_ctx) : M unit :=
  fun w =>
    match refs w !! modelName with
    | None => (Err (TypeError "refs[modelName] is not iterable"), w)
    | Some ds => for_each ds (onDelete_step modelName document softDeleteOptions) w
    end.

End Engine.

(* ===================================================================== *)
(** ** Document removal, as mongoose and the soft-delete extension run it *)
(* ===================================================================== *)

Definition same_id (d x : value) : bool := value_eqb (doc_id x) (doc_id d).

Definition set_deleted (flag : bool) (d : value) : value :=
  match d with
  | VObj fs => VObj (set_field "_deleted" (VBool flag) fs)
  | _ => d
  end.

Definition is_plugged (m : string) (w : world) : bool :=
  existsb (String.eqb m) (plugged w).

(** A hook runs only on documents whose schema carries the plugin. *)
Definition when_plugged (m : string) (hook : M unit) : M unit :=
  fun w => if is_plugged m w then hook w else (Ok tt, w).

(** The store forgets the document. *)
Definition remove_doc (m : string) (d : value) : M unit :=
  fun w => (Ok tt,
            with_db (alter (List.filter (fun x => negb (same_id d x))) m (db w)) w).

(** The store records the document's new [_deleted] flag. *)
Definition store_deleted (m : string) (d : value) (flag : bool) : M unit :=
  fun w => (Ok tt,
            with_db (alter (List.map (fun x => if same_id d x
                                               then set_deleted flag x
                                               else x)) m (db w)) w).

(** The two document methods the cascade calls.  They are not code of
    the repository: [deleteOne] is mongoose's and [softDelete] is the
    method that the library mongoose-soft-deleting adds to a document.
    They are modelled here, from what the libraries document and from
    what they are seen to do, as far as the hooks of the plugin are
    concerned.

    [doc.deleteOne()] runs the [pre('deleteOne')] hook of index.js:260
    when the document's schema carries the plugin, then removes the
    document.  [doc.softDelete(flag)] on a document that is already
    soft-deleted, with [flag = true], deletes the document for good, as
    [deleteOne] does; otherwise it sets the flag on the document, runs
    the [preSoftDelete] hook of index.js:396 with
    [{ softDelete: true, _deleted: document._deleted }], then stores the
    flag.  The hooks call [onDelete], which may call these two methods
    again on other documents: [fuel] bounds the depth of that
    recursion. *)
Fixpoint ops_at (fuel : nat) : doc_ops :=
  match fuel with
  | O => {| op_deleteOne := fun _ _ => throw OutOfFuel;
            op_softDelete := fun _ _ _ => throw OutOfFuel |}
  | S n =>
      {| op_deleteOne := fun m d =>
           emit (EDeleteOne m (doc_id d)) ;;;
           when_plugged m (onDelete (ops_at n) m d no_ctx) ;;;
           remove_doc m d;
         op_softDelete := fun m d flag =>
           emit (ESoftDelete m (doc_id d) flag) ;;;
           if flag && truthy (doc_get d "_deleted")
           then
             emit (EDeleteOne m (doc_id d)) ;;;
             when_plugged m (onDelete (ops_at n) m d no_ctx) ;;;
             remove_doc m d
           else
             when_plugged m (onDelete (ops_at n) m (set_deleted flag d)
                                      {| ctx_softDelete := true;
                                         ctx_deleted := flag |}) ;;;
             store_deleted m d flag |}
  end.

(** [document.deleteOne()] and [document.softDelete(flag)] as a caller
    invokes them. *)
Definition deleteOne (fuel : nat) (m : string) (d : value) : M unit :=
  op_deleteOne (ops_at (S fuel)) m d.
Definition softDelete (fuel : nat) (m : string) (d : value) (flag : bool) : M unit :=
  op_softDelete (ops_at (S fuel)) m d flag.

(* ===================================================================== *)
(** ** Change detector: the save-time validator (index.js:274-348) *)
(* ===================================================================== *)

(** A queued [remover] closure (index.js:299-315).  Besides the variables
    of the validator it closes over [deletedValues]; [this] is the
    document instance it is queued on. *)
Record pending_task : Type := {
  pt_closure : validator_closure;
  pt_deletedValues : list value
}.

(** The state of a promise. *)
Inductive pstate : Type :=
| Pending
| Resolved
| Rejected (e : error).

(** A document instance ([this]): its current fields and its [$locals]:
    [old] (the snapshot kept by mongoose-old-values),
    [subRefUpdateAfterSave], [subRefUpdatedAfterSave],
    [subRefUpdateAfterSaveResolver] and [subRefUpdateAfterSaveRejecter].
    A resolver is a chain of closures, each calling the one before it and
    then settling its own promise: it is kept as the promises it settles,
    oldest first. *)
Record instance : Type := {
  i_doc : value;
  i_old : option value;
  i_queue : option (list pending_task);
  i_updated : option bool;
  i_resolver : option (list nat);
  i_rejecter : option (list nat)
}.

Definition with_doc (d : value) (t : instance) : instance :=
  {| i_doc := d; i_old := i_old t; i_queue := i_queue t;
     i_updated := i_updated t; i_resolver := i_resolver t;
     i_rejecter := i_rejecter t |}.
Definition with_queue (q : option (list pending_task)) (t : instance) : instance :=
  {| i_doc := i_doc t; i_old := i_old t; i_queue := q;
     i_updated := i_updated t; i_resolver := i_resolver t;
     i_rejecter := i_rejecter t |}.
Definition with_updated (u : option bool) (t : instance) : instance :=
  {| i_doc := i_doc t; i_old := i_old t; i_queue := i_queue t;
     i_updated := u; i_resolver := i_resolver t;
     i_rejecter := i_rejecter t |}.
Definition with_callbacks (r j : option (list nat)) (t : instance) : instance :=
  {| i_doc := i_doc t; i_old := i_old t; i_queue := i_queue t;
     i_updated := i_updated t; i_resolver := r; i_rejecter := j |}.

(** Does the value carry an [equals] method?  ObjectIds and
    (sub)documents do, primitives and plain arrays do not. *)
Definition has_equals (o : value) : bool :=
  match o with
  | VOid _ | VObj _ => true
  | _ => false
  end.

(** [o.equals(n)]: [ObjectId.prototype.equals] compares ids, a
    subdocument compares contents; a [TypeError] when [o] has no such
    method. *)
Definition method_equals (o n : value) : result bool :=
  match o with
  | VOid a => Ok (match n with VOid b => N.eqb a b | _ => false end)
  | VObj _ => Ok (value_eqb o n)
  | _ => Err (TypeError "equals is not a function")
  end.

(** [o === n]: by value on primitives, by reference on objects (two
    array slots never hold the same object). *)
Definition strict_eq (o n : value) : bool :=
  match o, n with
  | VUndef, VUndef => true
  | VNull, VNull => true
  | VBool a, VBool b => Bool.eqb a b
  | VNum a, VNum b => Z.eqb a b
  | VStr a, VStr b => String.eqb a b
  | _, _ => false
  end.

(** The callback given to [newValues.some] for an old element [o]
    (index.js:289-293), applied to [n]. *)
Definition same_elem (o n : value) : result bool :=
  rbind (prop o "_id") (fun oid =>
    if truthy oid
    then rbind (prop n "_id") (fun nid => method_equals oid nid)
    else if has_equals o then method_equals o n
         else Ok (strict_eq o n)).

(** [xs.some(f)] *)
Fixpoint someR (f : value -> result bool) (xs : list value) : result bool :=
  match xs with
  | [] => Ok false
  | x :: xs' => rbind (f x) (fun b => if b then Ok true else someR f xs')
  end.

(** [xs.filter(f)] *)
Fixpoint filterR (f : value -> result bool) (xs : list value) : result (list value) :=
  match xs with
  | [] => Ok []
  | x :: xs' =>
      rbind (f x) (fun b =>
        rbind (filterR f xs') (fun ys => Ok (if b then x :: ys else ys)))
  end.

(** index.js:286-295 [deletedValues] *)
Definition deletedValues (oldValues newValues : value) : result (list value) :=
  match oldValues with
  | VArr olds =>
      filterR (fun o =>
                 rbind (prop o "_id") (fun _ =>
                   match newValues with
                   | VArr news => rbind (someR (same_elem o) news)
                                        (fun b => Ok (negb b))
                   | _ => Err (TypeError "some is not a function")
                   end))
              olds
  | _ => Err (TypeError "filter is not a function")
  end.

(** index.js:285 [oldValues] *)
Definition oldValues_of (pathSubRef : string) (this : instance) : value :=
  match i_old this with
  | Some old => doc_get old pathSubRef
  | None => VArr []
  end.

(** [resolve()] / [reject(e)] on a promise: only a pending promise
    changes state. *)
Definition settle (s : pstate) (ps : list pstate) (p : nat) : list pstate :=
  match ps !! p with
  | Some Pending => <[p := s]> ps
  | _ => ps
  end.

(** Calling a resolver or rejecter chain, if there is one. *)
Definition call_chain (s : pstate) (chain : option (list nat))
           (ps : list pstate) : list pstate :=
  match chain with
  | Some c => fold_left (settle s) c ps
  | None => ps
  end.

Definition chain_of (o : option (list nat)) : list nat :=
  match o with
  | Some c => c
  | None => []
  end.

(** [queue || []] *)
Definition chain_queue (o : option (list pending_task)) : list pending_task :=
  match o with
  | Some q => q
  | None => []
  end.

Section Validator.

Variable ops : doc_ops.

(** The [remover] closure (index.js:299-315), run on [this]. *)
Definition remover (vc : validator_closure) (deleted : list value)
           (this : instance) : M unit :=
  match rt_options (vc_schemaType vc) with
  | None => throw (TypeError "Cannot read property boundTo of undefined")
  | Some o =>
      let boundRefValue := bound_value o (i_doc this) in
      vals <- lift (mapR ref_value deleted) ;;
      onDeleteConditions ops (vc_schemaType vc) (vc_modelName vc) (vc_path vc)
                         (vc_subRefModel vc) (vc_pathSubRef vc)
                         vals boundRefValue no_ctx
  end.

Definition run_task (this : instance) (t : pending_task) : M unit :=
  remover (pt_closure t) (pt_deletedValues t) this.

(** [[...(this.$locals.subRefUpdateAfterSave || []), remover]] *)
Definition enqueue (t : pending_task) (this : instance) : instance :=
  with_queue (Some (chain_queue (i_queue this) ++ [t])) this.

(** The validator function (index.js:284-345): its outcome, the
    document instance afterwards, and the world afterwards. *)
Definition validator (vc : validator_closure) (this : instance)
           (newValues : value) (w : world) : result bool * instance * world :=
  let oldValues := oldValues_of (vc_pathSubRef vc) this in
  match deletedValues oldValues newValues with
  | Err e => (Err e, this, w)
  | Ok deleted =>
      if Nat.ltb 0 (List.length deleted) then
        if rt_required (vc_schemaType vc) && negb (rt_cascade (vc_schemaType vc))
        then
          match remover vc deleted this w with
          | (Ok _, w') => (Ok true, this, w')
          | (Err (SubRefConstraintError e), w') =>
              (Err (ValidatorError (ci_modelSubRef e) (ci_pathSubRef e)
                                   (ci_modelRef e) (ci_pathRef e)
                                   (ci_constrainedDocId e)),
               with_doc (doc_set (i_doc this) (vc_pathSubRef vc) oldValues) this,
               w')
          | (Err e, w') => (Err e, this, w')
          end
        else
          (Ok true,
           enqueue {| pt_closure := vc; pt_deletedValues := deleted |} this,
           w)
      else (Ok true, this, w)
  end.

(* =================================================================== *)
(** ** Deferred update scheduler (index.js:351-389) *)
(* =================================================================== *)

(** index.js:372 [subRefsUpdates]: the new promise, the instance and the
    promises afterwards. *)
Definition subRefsUpdates (this : instance) (ps : list pstate)
  : nat * instance * list pstate :=
  let p := List.length ps in
  let ps1 := ps ++ [Pending] in
  let ps2 := match i_updated this with
             | Some true => settle Resolved ps1 p
             | _ => ps1
             end in
  (p,
   with_callbacks (Some (chain_of (i_resolver this) ++ [p]))
                  (Some (chain_of (i_rejecter this) ++ [p])) this,
   ps2).

(** The post-save hook up to its [await] (index.js:352-356):
    [subRefUpdatedAfterSave = false], and the queued tasks are started. *)
Definition post_save_begin (this : instance) : instance :=
  match i_queue this with
  | Some _ => with_updated (Some false) this
  | None => this
  end.

(** The tasks the hook awaits: [Promise.all(queue.map((c) => c()))]. *)
Definition post_save_tasks (this : instance) : M unit :=
  match i_queue this with
  | Some q => promise_all (List.map (run_task this) q)
  | None => ret tt
  end.

(** The hook after its [await] (index.js:357-368), given the outcome
    [r] of the batch. *)
Definition post_save_end (r : result unit) (this : instance)
           (ps : list pstate) : result unit * instance * list pstate :=
  match i_queue this with
  | None => (Ok tt, this, ps)
  | Some _ =>
      match r with
      | Ok _ =>
          (Ok tt, with_updated (Some true) (with_queue None this),
           call_chain Resolved (i_resolver this) ps)
      | Err e =>
          (Err e, with_updated (Some true) (with_queue None this),
           call_chain (Rejected e) (i_rejecter this) ps)
      end
  end.

(** index.js:351 the whole [post('save')] hook, when nobody calls
    [subRefsUpdates] while the batch runs. *)
Definition post_save (this : instance) (ps : list pstate) (w : world)
  : result unit * instance * list pstate * world :=
  let this1 := post_save_begin this in
  let (r, w') := post_save_tasks this1 w in
  (post_save_end r this1 ps, w').

End Validator.

(* ===================================================================== *)
(** ** Reference registry: [plugin] (index.js:200-229, 274-283) *)
(* ===================================================================== *)

(** index.js:274-283 [setValidator]: resolves the target path on the
    target model's schema and attaches the validator to it. *)
Definition setValidator (modelName path : string) (schemaType : refType) : M unit :=
  match rt_options schemaType with
  | None => throw (TypeError "Cannot read property subRef of undefined")
  | Some o =>
      match subRef o with
      | None => throw (TypeError "Cannot read property split of undefined")
      | Some sr =>
          let subRefModel := getRootRef sr in
          let pathSubRef := substr (String.length subRefModel + 1) sr in
          sch <- model subRefModel ;;
          match schema_path sch pathSubRef with
          | None => throw (TypeError "Cannot read property validate of undefined")
          | Some _ =>
              fun w =>
                (Ok tt,
                 with_validators
                   (validators w ++
                      [(subRefModel, pathSubRef,
                        {| vc_schemaType := schemaType;
                           vc_modelName := modelName;
                           vc_path := path;
                           vc_subRefModel := subRefModel;
                           vc_pathSubRef := pathSubRef |})]) w)
          end
      end
  end.

(** [refs[getRootRef(sr)] = [...(refs[prev] || []), d]]
    (index.js:206-209 and 219-222). *)
Definition register (sr : string) (prev : option string) (d : descriptor) : M unit :=
  fun w =>
    (Ok tt,
     with_refs (<[getRootRef sr :=
                    match refs w !! key_of prev with
                    | Some l => l
                    | None => []
                    end ++ [d]]> (refs w)) w).

(** index.js:203 [eachPath] *)
Fixpoint eachPath (modelName path : string) (sType : schemaType)
         {struct sType} : M unit :=
  match sType with
  | SchemaType ctor options type0 required cascade sub =>
      let st := SchemaType ctor options type0 required cascade sub in
      let elem := if String.eqb ctor "SchemaArray"
                  then match type0 with
                       | Some r => if str_truthy (raw_subRef r) then Some r else None
                       | None => None
                       end
                  else None in
      match elem with
      | Some r =>
          register (key_of (raw_subRef r)) (subRef options)
                   {| d_modelName := modelName; d_path := path;
                      d_schemaType := refType_of_raw r |} ;;;
          setValidator modelName path (refType_of_raw r)
      | None =>
          match sub with
          | Some paths =>
              (fix each (paths : list (string * schemaType)) : M unit :=
                 match paths with
                 | [] => ret tt
                 | (subPath, subSchemaType) :: paths' =>
                     eachPath modelName (path ++ "." ++ subPath)%string subSchemaType ;;;
                     each paths'
                 end) paths
          | None =>
              if str_truthy (subRef options)
              then
                register (key_of (subRef options)) (subRef options)
                         {| d_modelName := modelName; d_path := path;
                            d_schemaType := refType_of_schemaType st |} ;;;
                setValidator modelName path (refType_of_schemaType st)
              else ret tt
          end
      end
  | UntypedArray _ _ _ =>
      (* [schemaType.options.type[0]] is [undefined] *)
      throw (TypeError "Cannot read property subRef of undefined")
  end.

(** index.js:200 [plugin] *)
Definition plugin (modelName : string) (sch : schema) : M unit :=
  (fun w => (Ok tt,
             match refs w !! modelName with
             | Some _ => w
             | None => with_refs (<[modelName := []]> (refs w)) w
             end)) ;;;
  for_each sch (fun ps => eachPath modelName (fst ps) (snd ps)) ;;;
  (fun w => (Ok tt, with_plugged (plugged w ++ [modelName]) w)).

(** index.js:411 [plugin.consistentModel] *)
Definition consistentModel (modelName : string) (sch : schema) : M unit :=
  plugin modelName sch ;;;
  (fun w => (Ok tt, with_models (<[modelName := sch]> (models w)) w)).

(** The world before anything is registered. *)
Definition empty_world : world :=
  {| refs := ∅; models := ∅; validators := []; plugged := [];
     db := ∅; log := [] |}.

(* ===================================================================== *)
(** ** Induction on values *)
(* ===================================================================== *)

Section ValueInduction.

Variable P : value -> Prop.
Hypothesis HUndef : P VUndef.
Hypothesis HNull : P VNull.
Hypothesis HBool : forall b, P (VBool b).
Hypothesis HNum : forall z, P (VNum z).
Hypothesis HStr : forall s, P (VStr s).
Hypothesis HOid : forall o, P (VOid o).
Hypothesis HArr : forall l, Forall P l -> P (VArr l).
Hypothesis HObj : forall fs, Forall (fun kv => P (snd kv)) fs -> P (VObj fs).

Fixpoint value_nested_ind (v : value) : P v :=
  match v with
  | VUndef => HUndef
  | VNull => HNull
  | VBool b => HBool b
  | VNum z => HNum z
  | VStr s => HStr s
  | VOid o => HOid o
  | VArr l =>
      HArr ((fix go (l : list value) : Forall P l :=
               match l with
               | [] => List.Forall_nil P
               | x :: l' => @List.Forall_cons _ P x l' (value_nested_ind x) (go l')
               end) l)
  | VObj fs =>
      HObj ((fix go (fs : list (string * value))
              : Forall (fun kv => P (snd kv)) fs :=
               match fs with
               | [] => List.Forall_nil _
               | kv :: fs' =>
                   @List.Forall_cons _ (fun kv => P (snd kv)) kv fs'
                                     (value_nested_ind (snd kv)) (go fs')
               end) fs)
  end.

End ValueInduction.

(* ===================================================================== *)
(** ** Notions of the specification *)
(* ===================================================================== *)

(** A referencing document is matched by the bound value when there is
    one, else by containing one of the removed values at the referencing
    path. *)
Definition matched_by (pathRef : string) (vals : list value) (bound d : value) : Prop :=
  if truthy bound
  then exists fs, d = VObj fs /\ field "_id" fs = bound
  else exists c, In c (candidates d (split_dot pathRef)) /\ In c vals.

(** A delete context is a restore when it is a soft delete whose new
    flag is [false]. *)
Definition is_restore (ctx : delete_ctx) : bool :=
  ctx_softDelete ctx && negb (ctx_deleted ctx).

(** The world changed only by calls that do not change stored
    documents. *)
Definition read_only_step (w w' : world) : Prop :=
  exists evs, w' = with_log (log w ++ evs) w
              /\ forallb (fun e => negb (mutating e)) evs = true.

(** Operations that have all been started and are awaited together: each
    runs on the world the ones before it left, whatever their outcome. *)
Fixpoint outcomes (tasks : list (M unit)) (w : world) : list (result unit) :=
  match tasks with
  | [] => []
  | t :: rest => fst (t w) :: outcomes rest (snd (t w))
  end.

Definition world_after (tasks : list (M unit)) (w : world) : world :=
  fold_left (fun w t => snd (t w)) tasks w.

(** Success when every outcome is a success, else the first failure. *)
Fixpoint first_failure (rs : list (result unit)) : result unit :=
  match rs with
  | [] => Ok tt
  | Ok _ :: rs' => first_failure rs'
  | Err e :: _ => Err e
  end.

(** The path the bulk update writes to and the array filter it carries,
    as [getUpdateQueryObjectFor] builds them. *)
Definition update_target (sch : schema) (pathRef : string) : string :=
  let path := split_dot pathRef in
  let info := build_info sch path in
  (build_updatePath path info (last_doc_array info)
     ++ nth (List.length path - 1) path "")%string.

Definition update_filter (sch : schema) (pathRef : string) (vals : list value)
  : option array_filter :=
  let path := split_dot pathRef in
  let info := build_info sch path in
  match last_doc_array info with
  | Some _ =>
      Some {| af_key := ("j." ++ (build_condPath path info (last_doc_array info)
                                    ++ nth (List.length path - 1) path ""))%string;
              af_vals := vals |}
  | None => None
  end.

(** Pull the removed values out of an array-valued terminal field, set a
    scalar terminal field to [null]. *)
Definition terminal_update (st : schemaType) (target : string) (vals : list value)
  : update :=
  if String.eqb (st_ctor st) "SchemaArray" then Pull target vals else SetNull target.

(** A collection after one bulk update. *)
Definition bulk_updated (m : string) (q : query) (u : update)
           (af : option array_filter) (w : world) : world :=
  with_db (alter (List.map (fun d => if matches q d then apply_update u af d else d))
                 m (db w))
          (with_log (log w ++ [EUpdateMany m q u af]) w).


(** A subdocument, identified by its [_id]. *)
Definition is_subdocument (o : value) : bool :=
  match o with
  | VObj fs => truthy (field "_id" fs)
  | _ => false
  end.





(** A queued task would hold the bound value if what it does after the
    commit did not depend on the value the bound field of the document
    has by then. *)
Definition task_holds_bound_value (ops : doc_ops) (vc : validator_closure)
           (this : instance) (newValues : value) (w : world) : Prop :=
  forall r this1 w1,
    validator ops vc this newValues w = (r, this1, w1) ->
    forall o b (later : value),
      rt_options (vc_schemaType vc) = Some o ->
      boundTo o = Some b ->
      post_save_tasks ops
        (post_save_begin (with_doc (doc_set (i_doc this1) b later) this1)) w1
      = post_save_tasks ops (post_save_begin this1) w1.

(** [k] callers of [subRefsUpdates], one after the other: their
    promises, the instance and the promises afterwards. *)
Fixpoint callers (k : nat) (this : instance) (ps : list pstate)
  : list nat * instance * list pstate :=
  match k with
  | O => ([], this, ps)
  | S k' =>
      let '(p, this1, ps1) := subRefsUpdates this ps in
      let '(l, this2, ps2) := callers k' this1 ps1 in
      (p :: l, this2, ps2)
  end.

(** The promise a caller of [subRefsUpdates] gets is resolved when the
    call returns. *)
Definition resolves_at_once (this : instance) (ps : list pstate) : Prop :=
  let '(p, _, ps') := subRefsUpdates this ps in ps' !! p = Some Resolved.

(** The registry, the models and the hooks of [w'] are those of [w]. *)
Definition same_registry (w w' : world) : Prop :=
  refs w' = refs w /\ models w' = models w /\ plugged w' = plugged w.

(** The references of a registry go down a rank: no model is reached
    from itself by following references. *)
Definition acyclic (rank : string -> nat) (w : world) : Prop :=
  forall m ds d, refs w !! m = Some ds -> In d ds -> rank (d_modelName d) < rank m.

(** The same, as a test on the entries of the registry. *)
Definition acyclicb (rank : string -> nat) (w : world) : bool :=
  forallb (fun e : string * list descriptor =>
             forallb (fun d => Nat.ltb (rank (d_modelName d)) (rank (fst e)))
                     (snd e))
          (map_to_list (refs w)).

(** A computation that keeps the registry and does not run out of
    fuel. *)
Definition steady {A} (R : world) (c : M A) : Prop :=
  forall w, same_registry R w ->
            same_registry R (snd (c w)) /\ fst (c w) <> Err OutOfFuel.

(** Two computations that do the same, keep the registry and do not run
    out of fuel. *)
Definition agree (R : world) (c1 c2 : M unit) : Prop :=
  forall w, same_registry R w ->
            c1 w = c2 w
            /\ same_registry R (snd (c1 w))
            /\ fst (c1 w) <> Err OutOfFuel.

(* ===================================================================== *)
(** ** The models of the repository's tests *)
(* ===================================================================== *)

Definition no_options : ref_options := {| subRef := None; boundTo := None |}.

Definition plain (ctor : string) : schemaType :=
  SchemaType ctor no_options None false false None.

(** [contacts: [{ email: String, telephone: String }]] and [name: String] *)
Definition PersonSchema : schema :=
  [("name", plain "SchemaString");
   ("contacts",
    SchemaType "DocumentArrayPath" no_options None false false
               (Some [("email", plain "SchemaString");
                      ("telephone", plain "SchemaString");
                      ("_id", plain "ObjectId")]));
   ("_id", plain "ObjectId")].

(** A reference field: [{ type: ObjectId, subRef, boundTo }] with the
    given [required] and [cascade]. *)
Definition ref_field (sr : string) (bound : option string)
           (required cascade : bool) : schemaType :=
  SchemaType "ObjectId" {| subRef := Some sr; boundTo := bound |} None
             required cascade None.

(** [contact: { type: ObjectId, subRef: 'Person.contacts' }] *)
Definition MessageSchema (required cascade : bool) : schema :=
  [("contact", ref_field "Person.contacts" None required cascade);
   ("content", plain "SchemaString");
   ("_id", plain "ObjectId")].

(** A second model referencing the same array of [Person]. *)
Definition NoteSchema (required cascade : bool) : schema :=
  [("about", ref_field "Person.contacts" None required cascade);
   ("_id", plain "ObjectId")].

(** What the descriptor of [Message.contact] keeps as its schema type. *)
Definition contact_type (required cascade : bool) : refType :=
  refType_of_schemaType (ref_field "Person.contacts" None required cascade).

(** [Person] then [Message] registered through [consistentModel]. *)
Definition registered (required cascade : bool) : world :=
  snd ((consistentModel "Person" PersonSchema ;;;
        consistentModel "Message" (MessageSchema required cascade)) empty_world).

Definition contact0 : value := VObj [("_id", VOid 10); ("email", VStr "test@test.com")].
Definition contact1 : value := VObj [("_id", VOid 11); ("email", VStr "test2@test.com")].

Definition parent : value :=
  VObj [("_id", VOid 1); ("contacts", VArr [contact0; contact1])].

Definition message (id c : N) : value :=
  VObj [("_id", VOid id); ("contact", VOid c)].

(** One person with two contacts, three messages referencing them. *)
Definition test_world (required cascade : bool) : world :=
  with_db (<["Person" := [parent]]>
             (<["Message" := [message 100 10; message 101 11; message 102 10]]> ∅))
          (registered required cascade).

(** [parent] as a document instance whose first contact has just been
    removed from [contacts] (index.js tests, [parent.contacts.shift()]). *)
Definition parent_shifted : instance :=
  {| i_doc := VObj [("_id", VOid 1); ("contacts", VArr [contact1])];
     i_old := Some parent;
     i_queue := None;
     i_updated := None;
     i_resolver := None;
     i_rejecter := None |}.

(** The validator that registering [Message] attaches to
    [Person.contacts]. *)
Definition contact_validator (required cascade : bool) : validator_closure :=
  {| vc_schemaType := contact_type required cascade;
     vc_modelName := "Message";
     vc_path := "contact";
     vc_subRefModel := "Person";
     vc_pathSubRef := "contacts" |}.

(** A chain of three models: an attachment references a part of a
    message, a message references a contact of a person; both references
    are required and cascade. *)
Definition ChainMessageSchema : schema :=
  [("contact", ref_field "Person.contacts" None true true);
   ("parts",
    SchemaType "DocumentArrayPath" no_options None false false
               (Some [("text", plain "SchemaString"); ("_id", plain "ObjectId")]));
   ("_id", plain "ObjectId")].

Definition AttachmentSchema : schema :=
  [("part", ref_field "Message.parts" None true true);
   ("_id", plain "ObjectId")].

Definition chain_message (id c part : N) : value :=
  VObj [("_id", VOid id); ("contact", VOid c);
        ("parts", VArr [VObj [("_id", VOid part); ("text", VStr "hello")]])].

Definition attachment (id part : N) : value :=
  VObj [("_id", VOid id); ("part", VOid part)].

Definition chain_world : world :=
  with_db (<["Person" := [parent]]>
             (<["Message" := [chain_message 100 10 1000; chain_message 101 11 1001]]>
                (<["Attachment" := [attachment 200 1000; attachment 201 1001;
                                    attachment 202 7777]]> ∅)))
          (snd ((consistentModel "Person" PersonSchema ;;;
                 consistentModel "Message" ChainMessageSchema ;;;
                 consistentModel "Attachment" AttachmentSchema) empty_world)).

(** A reference nested in a document array, and an array of references:
    [lines: [{ contact: { type: ObjectId, subRef: 'Person.contacts' } }]]
    and [watchers: { type: [ObjectId], subRef: 'Person.contacts' }]. *)
Definition OrderSchema : schema :=
  [("lines",
    SchemaType "DocumentArrayPath" no_options None false false
               (Some [("contact", ref_field "Person.contacts" None false false);
                      ("_id", plain "ObjectId")]));
   ("watchers",
    SchemaType "SchemaArray" {| subRef := Some "Person.contacts"; boundTo := None |}
               None false false None);
   ("_id", plain "ObjectId")].

Definition order : value :=
  VObj [("_id", VOid 300);
        ("lines", VArr [VObj [("_id", VOid 301); ("contact", VOid 10)];
                        VObj [("_id", VOid 302); ("contact", VOid 11)]]);
        ("watchers", VArr [VOid 10; VOid 11; VOid 12])].

Definition order_world : world :=
  with_db (<["Person" := [parent]]> (<["Order" := [order]]> ∅))
          (snd ((consistentModel "Person" PersonSchema ;;;
                 consistentModel "Order" OrderSchema) empty_world)).

(** A bound reference: [contact: { type: ObjectId, subRef:
    'Person.contacts', boundTo: 'mainMessage' }].  The person names in
    [mainMessage] the message its contacts are bound to. *)
Definition BoundMessageSchema (required cascade : bool) : schema :=
  [("contact", ref_field "Person.contacts" (Some "mainMessage") required cascade);
   ("_id", plain "ObjectId")].

Definition bound_type (required cascade : bool) : refType :=
  refType_of_schemaType
    (ref_field "Person.contacts" (Some "mainMessage") required cascade).

Definition bound_validator (required cascade : bool) : validator_closure :=
  {| vc_schemaType := bound_type required cascade;
     vc_modelName := "Message";
     vc_path := "contact";
     vc_subRefModel := "Person";
     vc_pathSubRef := "contacts" |}.

Definition bound_parent (main : value) : value :=
  VObj [("_id", VOid 1); ("mainMessage", main);
        ("contacts", VArr [contact0; contact1])].

Definition bound_world (required cascade : bool) (main : value) : world :=
  with_db (<["Person" := [bound_parent main]]>
             (<["Message" := [message 100 10; message 101 11; message 102 10]]> ∅))
          (snd ((consistentModel "Person" PersonSchema ;;;
                 consistentModel "Message" (BoundMessageSchema required cascade))
                  empty_world)).

(** The bound person with its first contact just removed. *)
Definition bound_parent_shifted (main : value) : instance :=
  {| i_doc := VObj [("_id", VOid 1); ("mainMessage", main);
                    ("contacts", VArr [contact1])];
     i_old := Some (bound_parent main);
     i_queue := None;
     i_updated := None;
     i_resolver := None;
     i_rejecter := None |}.

(** A document instance on which nothing was ever queued. *)
Definition idle_instance : instance :=
  {| i_doc := parent;
     i_old := Some parent;
     i_queue := None;
     i_updated := None;
     i_resolver := None;
     i_rejecter := None |}.

(** [Person], then two models that both reference [Person.contacts]. *)
Definition two_refs_world : world :=
  with_db (<["Person" := [parent]]>
             (<["Message" := [message 100 10]]> ∅))
          (snd ((consistentModel "Person" PersonSchema ;;;
                 consistentModel "Message" (MessageSchema true false) ;;;
                 consistentModel "Note" (NoteSchema true false)) empty_world)).

Definition message_descriptor (required cascade : bool) : descriptor :=
  {| d_modelName := "Message"; d_path := "contact";
     d_schemaType := contact_type required cascade |}.

Definition note_descriptor (required cascade : bool) : descriptor :=
  {| d_modelName := "Note"; d_path := "about";
     d_schemaType := contact_type required cascade |}.


(** A reference whose target crosses two arrays:
    [contacts: [{ bossContacts: [String] }]] and
    [subRef: 'Person.contacts.bossContacts']. *)
Definition DeepPersonSchema : schema :=
  [("contacts",
    SchemaType "DocumentArrayPath" no_options None false false
               (Some [("bossContacts",
                       SchemaType "SchemaArray" no_options None false false None);
                      ("_id", plain "ObjectId")]));
   ("_id", plain "ObjectId")].

Definition DeepRefSchema : schema :=
  [("contact", ref_field "Person.contacts.bossContacts" None true false);
   ("_id", plain "ObjectId")].

(* ===================================================================== *)
(** ** The soft-delete hook (index.js:393-407) *)
(* ===================================================================== *)

(** [document._deleted = false] *)
Definition clear_deleted (document : value) : value := set_deleted false document.

(** The callback given to [preSoftDelete] (index.js:396-406), in the
    closure of [plugin(modelName, ...)]: [onDelete] with
    [{ softDelete: true, _deleted: document._deleted }]; when it throws a
    [SubRefConstraintError] the flag of the document is put to [false]
    before the error is thrown again.  The outcome, the document
    afterwards and the world afterwards. *)
Definition preSoftDelete (ops : doc_ops) (modelName : string) (document : value)
           (w : world) : result unit * value * world :=
  match onDelete ops modelName document
                 {| ctx_softDelete := true;
                    ctx_deleted := truthy (doc_get document "_deleted") |} w with
  | (Ok u, w') => (Ok u, document, w')
  | (Err e, w') =>
      (Err e,
       if is_constraint_error e then clear_deleted document else document,
       w')
  end.

(* ===================================================================== *)
(** ** Notions used by the further properties *)
(* ===================================================================== *)

(** The string holds no ['.']. *)
Fixpoint no_dot (s : string) : bool :=
  match s with
  | EmptyString => true
  | String c s' => negb (Ascii.eqb c "."%char) && no_dot s'
  end.

(** Every string of the list followed by a dot. *)
Fixpoint dotted (l : list string) : string :=
  match l with
  | [] => ""
  | x :: l' => x ++ "." ++ dotted l'
  end.

(** The segments of a path before the last one, each followed by the
    positional operator its document array asks for: [$[j]] after the
    last document array, [$[]] after an earlier one, nothing after a
    segment that is no document array.  [i] is the index of the first
    segment given. *)
Fixpoint path_tokens (i : nat) (pre : list string) (info : list bool)
         (lastDocumentArray : option nat) : list string :=
  match pre, info with
  | s :: pre', b :: info' =>
      s :: (if b
            then [if opt_nat_is lastDocumentArray i then "$[j]" else "$[]"]
            else [])
        ++ path_tokens (S i) pre' info' lastDocumentArray
  | _, _ => []
  end.

(** [null] or [undefined]. *)
Definition nullish (v : value) : bool :=
  match v with
  | VUndef | VNull => true
  | _ => false
  end.

(** A reference nested in two document arrays:
    [groups: [{ members: [{ contact: { type: ObjectId, subRef } }] }]]. *)
Definition TeamSchema : schema :=
  [("groups",
    SchemaType "DocumentArrayPath" no_options None false false
      (Some [("members",
              SchemaType "DocumentArrayPath" no_options None false false
                (Some [("contact", ref_field "Person.contacts" None false false);
                       ("_id", plain "ObjectId")]));
             ("_id", plain "ObjectId")]));
   ("_id", plain "ObjectId")].

(** Every reference of the list is required and does not cascade. *)
Definition blocks_only (ds : list descriptor) : bool :=
  forallb (fun d => rt_required (d_schemaType d) && negb (rt_cascade (d_schemaType d)))
          ds.

(** The outcome is a [SubRefConstraintError]. *)
Definition refused {A} (r : result A) : bool :=
  match r with
  | Err e => is_constraint_error e
  | Ok _ => false
  end.

(** No hook of the plugin runs when a document of model [m] is deleted:
    the schema of [m] does not carry the plugin, or nothing references
    [m]. *)
Definition hook_free (m : string) (w : world) : bool :=
  negb (is_plugged m w)
  || match refs w !! m with
     | Some [] => true
     | _ => false
     end.

(** A value that a reference field may hold: not [null] and not an
    array. *)
Definition scalar_ref (v : value) : bool :=
  match v with
  | VNull | VArr _ => false
  | _ => true
  end.

Definition succeeded {A} (r : result A) : bool :=
  match r with
  | Ok _ => true
  | Err _ => false
  end.

(** [[...(refs[key] || []), d]] *)
Definition appended (key : option string) (d : descriptor) (w : world)
  : list descriptor :=
  match refs w !! key_of key with
  | Some l => l
  | None => []
  end ++ [d].

Definition is_array (v : value) : bool :=
  match v with
  | VArr _ => true
  | _ => false
  end.

(** [watchers: [{ type: ObjectId, subRef: 'Person.contacts' }]]: an
    array of references declared through its element. *)
Definition watchers_element : raw_decl :=
  {| raw_subRef := Some "Person.contacts"; raw_options := None;
     raw_required := false; raw_cascade := false |}.

(** The ranks of the chain of three models. *)
Definition chain_rank (m : string) : nat :=
  if String.eqb m "Person" then 2
  else if String.eqb m "Message" then 1 else 0.

(** Does [eachPath] find a reference at the schema type or below it?
    The tests are those of index.js:205, 212 and 218, in that order. *)
Fixpoint declares_ref (st : schemaType) : bool :=
  match st with
  | SchemaType ctor options type0 _ _ sub =>
      (String.eqb ctor "SchemaArray"
       && match type0 with
          | Some r => str_truthy (raw_subRef r)
          | None => false
          end)
      || match sub with
         | Some paths =>
             (fix any (paths : list (string * schemaType)) : bool :=
                match paths with
                | [] => false
                | (_, x) :: paths' => declares_ref x || any paths'
                end) paths
         | None => str_truthy (subRef options)
         end
  | UntypedArray _ _ _ => false
  end.

(** Does [eachPath] come upon an array without element declaration at
    the schema type or below it?  Sub-schemas are walked as [eachPath]
    walks them. *)
Fixpoint has_untyped_array (st : schemaType) : bool :=
  match st with
  | SchemaType _ _ _ _ _ (Some paths) =>
      (fix any (paths : list (string * schemaType)) : bool :=
         match paths with
         | [] => false
         | (_, x) :: paths' => has_untyped_array x || any paths'
         end) paths
  | SchemaType _ _ _ _ _ None => false
  | UntypedArray _ _ _ => true
  end.

Section SchemaTypeInduction.

Variable P : schemaType -> Prop.
Hypothesis HLeaf : forall ctor options type0 required cascade,
    P (SchemaType ctor options type0 required cascade None).
Hypothesis HSub : forall ctor options type0 required cascade paths,
    Forall (fun ps => P (snd ps)) paths ->
    P (SchemaType ctor options type0 required cascade (Some paths)).
Hypothesis HUntyped : forall options required cascade,
    P (UntypedArray options required cascade).

Fixpoint schemaType_nested_ind (st : schemaType) : P st :=
  match st with
  | SchemaType ctor options type0 required cascade None =>
      HLeaf ctor options type0 required cascade
  | SchemaType ctor options type0 required cascade (Some paths) =>
      HSub ctor options type0 required cascade
           ((fix go (paths : list (string * schemaType))
               : Forall (fun ps => P (snd ps)) paths :=
               match paths with
               | [] => List.Forall_nil _
               | ps :: paths' =>
                   @List.Forall_cons _ (fun ps => P (snd ps)) ps paths'
                                     (schemaType_nested_ind (snd ps)) (go paths')
               end) paths)
  | UntypedArray options required cascade => HUntyped options required cascade
  end.

End SchemaTypeInduction.

(* ===================================================================== *)
(** ** Asynchronous runs of the policy engine *)
(* ===================================================================== *)

(** The functions of the policy engine are [async]: each [await] gives
    the event loop the occasion to run something else, and the
    operations handed to [Promise.all] have all been started when it is
    awaited.  [Async] holds the same functions with their [await]s kept,
    and the runs the event loop can make of them: every call on the
    store is one move, made at whatever moment the run chooses.  Reading
    the registry or the document at the head of a function is a move of
    its own too, and a rejection may be delivered later than it could
    be: the relation has every run of the program, and more.  The
    functions of the [Engine] section above are the runs in which every
    started operation goes to its end before another one moves. *)
Module Async.

(** An asynchronous operation: finished with an outcome; or at the
    [await] of one call, made on the world in one step, with what is done
    with its answer; or at [await Promise.all(started)] with what is done
    once all have succeeded.  A call that fails ends the operation with
    that failure: the engine has no [catch]. *)
#[local] Unset Elimination Schemes.
Inductive proc : Type :=
| Done (r : result unit)
| Await (B : Type) (call : M B) (k : B -> proc)
| AwaitAll (started : list proc) (k : proc).
#[local] Set Elimination Schemes.

Arguments Await {B} call k.

(** [p], and [k] when [p] has succeeded. *)
Fixpoint andThen (p k : proc) : proc :=
  match p with
  | Done (Ok _) => k
  | Done (Err e) => Done (Err e)
  | Await call f => Await call (fun b => andThen (f b) k)
  | AwaitAll started k' => AwaitAll started (andThen k' k)
  end.

Fixpoint for_each {A} (l : list A) (f : A -> proc) : proc :=
  match l with
  | [] => Done (Ok tt)
  | x :: l' => andThen (f x) (for_each l' f)
  end.

(** The two methods the cascade calls on the documents it found. *)
Record doc_ops : Type := {
  op_deleteOne : string -> value -> proc;
  op_softDelete : string -> value -> bool -> proc
}.

Section Engine.

Variable ops : doc_ops.

(** index.js:86 *)
Definition onDeleteSetNull (modelRef pathRef modelSubRef pathSubRef : string)
           (referencedValues : list value) (boundRefValue : value)
           (ctx : delete_ctx) : proc :=
  if negb (ctx_softDelete ctx) then
    Await (sch <- model modelRef ;;
           ua <- lift (getUpdateQueryObjectFor sch pathRef referencedValues) ;;
           updateMany modelRef
                      (getFindQueryObjectFor modelRef pathRef referencedValues
                                             boundRefValue)
                      (fst ua) (snd ua))
          (fun _ => Done (Ok tt))
  else Done (Ok tt).

(** index.js:105 *)
Definition onDeleteCascade (modelRef pathRef modelSubRef pathSubRef : string)
           (referencedValues : list value) (boundRefValue : value)
           (ctx : delete_ctx) : proc :=
  let queryObject :=
    getFindQueryObjectFor modelRef pathRef referencedValues boundRefValue in
  Await (model modelRef ;;; find modelRef queryObject) (fun documents =>
  AwaitAll
    (if ctx_softDelete ctx
     then List.map (fun doc => op_softDelete ops modelRef doc (ctx_deleted ctx))
                   documents
     else List.map (fun doc => op_deleteOne ops modelRef doc) documents)
    (Done (Ok tt))).

(** index.js:125 *)
Definition onDeleteBlock (modelRef pathRef modelSubRef pathSubRef : string)
           (referencedValues : list value) (boundRefValue : value)
           (ctx : delete_ctx) : proc :=
  if negb (ctx_softDelete ctx) || ctx_deleted ctx then
    Await (model modelRef ;;;
           findOne modelRef
                   (getFindQueryObjectFor modelRef pathRef referencedValues
                                          boundRefValue))
          (fun constrainedDoc =>
             if truthy constrainedDoc
             then Done (Err (SubRefConstraintError
                               {| ci_modelSubRef := modelSubRef;
                                  ci_pathSubRef := pathSubRef;
                                  ci_modelRef := modelRef;
                                  ci_pathRef := pathRef;
                                  ci_constrainedDocId := doc_id constrainedDoc |}))
             else Done (Ok tt))
  else Done (Ok tt).

(** index.js:152 *)
Definition onDeleteConditions (schemaType : refType)
           (modelRef pathRef modelSubRef pathSubRef : string)
           (referencedValues : list value) (boundRefValue : value)
           (softDeleteOptions : delete_ctx) : proc :=
  if rt_required schemaType then
    if rt_cascade schemaType
    then onDeleteCascade modelRef pathRef modelSubRef pathSubRef
                         referencedValues boundRefValue softDeleteOptions
    else onDeleteBlock modelRef pathRef modelSubRef pathSubRef
                       referencedValues boundRefValue softDeleteOptions
  else onDeleteSetNull modelRef pathRef modelSubRef pathSubRef
                       referencedValues boundRefValue softDeleteOptions.

(** The body of the loop of [onDelete] (index.js:232-251). *)
Definition onDelete_step (modelName : string) (document : value)
           (softDeleteOptions : delete_ctx) (d : descriptor) : proc :=
  match rt_options (d_schemaType d) with
  | None => Done (Err (TypeError "Cannot read property subRef of undefined"))
  | Some o =>
      match subRef o with
      | None => Done (Err (TypeError "Cannot read property substr of undefined"))
      | Some sr =>
          let pathSubRef := substr (String.length modelName + 1) sr in
          let boundRefValue := bound_value o document in
          Await (lift (getReferencedValues pathSubRef document)) (fun vals =>
          onDeleteConditions (d_schemaType d) (d_modelName d) (d_path d)
                             modelName pathSubRef vals boundRefValue
                             softDeleteOptions)
      end
  end.

(** [refs[modelName]], read when the loop starts. *)
Definition read_refs (modelName : string) : M (list descriptor) :=
  fun w =>
    (match refs w !! modelName with
     | None => Err (TypeError "refs[modelName] is not iterable")
     | Some ds => Ok ds
     end, w).

(** index.js:231 [onDelete] *)
Definition onDelete (modelName : string) (document : value)
           (softDeleteOptions : delete_ctx) : proc :=
  Await (read_refs modelName) (fun ds =>
  for_each ds (onDelete_step modelName document softDeleteOptions)).

End Engine.

(** A hook runs only on documents whose schema carries the plugin. *)
Definition when_plugged (m : string) (hook : proc) : proc :=
  Await (fun w => (Ok (is_plugged m w), w))
        (fun plugged => if plugged : bool then hook else Done (Ok tt)).

(** [doc.deleteOne()] and [doc.softDelete(flag)], modelled as in
    [ops_at] above, with their [await]s. *)
Fixpoint ops_at (fuel : nat) : doc_ops :=
  match fuel with
  | O => {| op_deleteOne := fun _ _ => Done (Err OutOfFuel);
            op_softDelete := fun _ _ _ => Done (Err OutOfFuel) |}
  | S n =>
      {| op_deleteOne := fun m d =>
           Await (emit (EDeleteOne m (doc_id d))) (fun _ =>
           andThen (when_plugged m (onDelete (ops_at n) m d no_ctx))
                   (Await (remove_doc m d) (fun _ => Done (Ok tt))));
         op_softDelete := fun m d flag =>
           Await (emit (ESoftDelete m (doc_id d) flag)) (fun _ =>
           if flag && truthy (doc_get d "_deleted")
           then
             Await (emit (EDeleteOne m (doc_id d))) (fun _ =>
             andThen (when_plugged m (onDelete (ops_at n) m d no_ctx))
                     (Await (remove_doc m d) (fun _ => Done (Ok tt))))
           else
             andThen (when_plugged m
                        (onDelete (ops_at n) m (set_deleted flag d)
                                  {| ctx_softDelete := true;
                                     ctx_deleted := flag |}))
                     (Await (store_deleted m d flag) (fun _ => Done (Ok tt)))) |}
  end.

(** The run in which every started operation goes to its end before
    another one moves. *)
Fixpoint run_seq (p : proc) : M unit :=
  match p with
  | Done r => fun w => (r, w)
  | Await call k =>
      fun w => match call w with
               | (Ok b, w') => run_seq (k b) w'
               | (Err e, w') => (Err e, w')
               end
  | AwaitAll started k =>
      bind (promise_all (List.map run_seq started)) (fun _ => run_seq k)
  end.

(** *** The runs of the event loop *)

(** An operation in the course of a run: running; or waiting for the
    operations it has started; or rejected, when one of them has failed,
    while those it started may still run on. *)
#[local] Unset Elimination Schemes.
Inductive thread : Type :=
| Run (p : proc)
| Wait (children : list thread) (k : proc)
| Rejected (e : error) (orphans : list thread).
#[local] Set Elimination Schemes.

Definition is_done (p : proc) : bool :=
  match p with
  | Done _ => true
  | _ => false
  end.

(** One move of a running operation: the awaited call is made, or the
    operations handed to [Promise.all] are all started. *)
Definition run_step (p : proc) (w : world) : thread * world :=
  match p with
  | Done r => (Run (Done r), w)
  | Await call k =>
      match call w with
      | (Ok b, w') => (Run (k b), w')
      | (Err e, w') => (Run (Done (Err e)), w')
      end
  | AwaitAll started k => (Wait (List.map Run started) k, w)
  end.

Definition finished_ok (t : thread) : bool :=
  match t with
  | Run (Done (Ok _)) => true
  | _ => false
  end.

(** The failure an operation has ended with, if it has. *)
Definition failure (t : thread) : option error :=
  match t with
  | Run (Done (Err e)) => Some e
  | Rejected e _ => Some e
  | _ => None
  end.

(** The outcome the caller of the operation sees, once there is one. *)
Definition outcome (t : thread) : option (result unit) :=
  match t with
  | Run (Done r) => Some r
  | Rejected e _ => Some (Err e)
  | _ => None
  end.

(** The operations an operation is waiting for, or has left running. *)
Definition children (t : thread) : list thread :=
  match t with
  | Run _ => []
  | Wait cs _ => cs
  | Rejected _ cs => cs
  end.

(** One move of the event loop.  Any operation that is running may move.
    [Promise.all] resolves when all the operations have succeeded, and
    rejects once one has failed, with its failure and whatever the
    others are doing: they run on. *)
Inductive step : thread -> world -> thread -> world -> Prop :=
| step_run (p : proc) (w : world) :
    is_done p = false ->
    step (Run p) w (fst (run_step p w)) (snd (run_step p w))
| step_child (cs1 : list thread) (c c' : thread) (cs2 : list thread)
             (k : proc) (w w' : world) :
    step c w c' w' ->
    step (Wait (cs1 ++ c :: cs2) k) w (Wait (cs1 ++ c' :: cs2) k) w'
| step_resolve (cs : list thread) (k : proc) (w : world) :
    forallb finished_ok cs = true ->
    step (Wait cs k) w (Run k) w
| step_reject (cs : list thread) (c : thread) (e : error) (k : proc) (w : world) :
    In c cs -> failure c = Some e ->
    step (Wait cs k) w (Rejected e cs) w
| step_orphan (e : error) (cs1 : list thread) (c c' : thread)
              (cs2 : list thread) (w w' : world) :
    step c w c' w' ->
    step (Rejected e (cs1 ++ c :: cs2)) w (Rejected e (cs1 ++ c' :: cs2)) w'.

(** A run: any number of moves. *)
Inductive steps : thread -> world -> thread -> world -> Prop :=
| steps_refl (t : thread) (w : world) : steps t w t w
| steps_step (t : thread) (w : world) (t1 : thread) (w1 : world)
             (t' : thread) (w' : world) :
    step t w t1 w1 -> steps t1 w1 t' w' -> steps t w t' w'.

(** *** Invariants of runs *)







End Async.

(** Induction on operations, through the operations they start. *)
Section ProcInduction.

Variable P : Async.proc -> Prop.
Hypothesis HDone : forall r, P (Async.Done r).
Hypothesis HAwait : forall (B : Type) (call : M B) (k : B -> Async.proc),
    (forall b, P (k b)) -> P (Async.Await call k).
Hypothesis HAll : forall started k,
    Forall P started -> P k -> P (Async.AwaitAll started k).

Fixpoint proc_nested_ind (p : Async.proc) : P p :=
  match p with
  | Async.Done r => HDone r
  | Async.Await call k => HAwait call k (fun b => proc_nested_ind (k b))
  | Async.AwaitAll started k =>
      HAll ((fix go (l : list Async.proc) : Forall P l :=
               match l with
               | [] => List.Forall_nil P
               | x :: l' => @List.Forall_cons _ P x l' (proc_nested_ind x) (go l')
               end) started)
           (proc_nested_ind k)
  end.

End ProcInduction.

(** Induction on operations in the course of a run. *)
Section ThreadInduction.

Variable P : Async.thread -> Prop.
Hypothesis HRun : forall p, P (Async.Run p).
Hypothesis HWait : forall cs k, Forall P cs -> P (Async.Wait cs k).
Hypothesis HRejected : forall e cs, Forall P cs -> P (Async.Rejected e cs).

Fixpoint thread_nested_ind (t : Async.thread) : P t :=
  match t with
  | Async.Run p => HRun p
  | Async.Wait cs k =>
      HWait k ((fix go (l : list Async.thread) : Forall P l :=
                  match l with
                  | [] => List.Forall_nil P
                  | x :: l' => @List.Forall_cons _ P x l' (thread_nested_ind x) (go l')
                  end) cs)
  | Async.Rejected e cs =>
      HRejected e ((fix go (l : list Async.thread) : Forall P l :=
                      match l with
                      | [] => List.Forall_nil P
                      | x :: l' => @List.Forall_cons _ P x l' (thread_nested_ind x) (go l')
                      end) cs)
  end.

End ThreadInduction.

(* ===================================================================== *)
(** ** Documents that a chain of references holds *)
(* ===================================================================== *)



(** What the deletes of a cascade leave as it was in [w0] when they run
    along a chain of held documents: the registry, the models and the
    hooks; the stored documents, of which some may be gone; and the
    documents of the chain, which are all still stored. *)
Definition chain_inv (w0 : world) (chain : list (string * value)) (w : world)
  : Prop :=
  same_registry w0 w
  /\ (forall m d, In d (coll m w) -> In d (coll m w0))
  /\ Forall (fun mx => In (snd mx) (coll (fst mx) w)) chain.






(* ===================================================================== *)
(** ** Notions of the specification, as it words them *)
(* ===================================================================== *)


(* ===================================================================== *)
(** ** What registration looks at *)
(* ===================================================================== *)







(* ===================================================================== *)
(** ** Documents shaped by their schema *)
(* ===================================================================== *)

(** A stored document has, along the path of a reference, the shape its
    schema gives it: under a segment that is a document array it holds
    an array of subdocuments shaped in the same way, or nothing; under
    another segment a nested object, or nothing; and the terminal field
    holds an array exactly when it is an array of references.  [pre] are
    the segments before the last one, [info] tells which of them are
    document arrays, [final] is the last segment. *)
Fixpoint shaped (pre : list string) (info : list bool) (final : string)
         (arr : bool) (v : value) {struct pre} : bool :=
  match v with
  | VObj fs =>
      match pre, info with
      | [], _ => Bool.eqb (is_array (field final fs)) arr
      | s :: pre', b :: info' =>
          match field s fs with
          | VUndef => true
          | VNull => negb b
          | VArr l => b && forallb (shaped pre' info' final arr) l
          | x => negb b && shaped pre' info' final arr x
          end
      | _ :: _, [] => false
      end
  | _ => false
  end.

(** The same, for the path [pathRef] in the schema [sch], as
    [getUpdateQueryObjectFor] reads them. *)
Definition shaped_like (sch : schema) (pathRef : string) (d : value) : bool :=
  let path := split_dot pathRef in
  shaped (List.removelast path) (build_info sch path) (List.last path "")
         (match schema_path sch pathRef with
          | Some st => String.eqb (st_ctor st) "SchemaArray"
          | None => false
          end)
         d.

(** The segments after the last document array. *)
Fixpoint after_last_true (pre : list string) (info : list bool) : list string :=
  match pre, info with
  | _ :: pre', b :: info' =>
      if existsb (fun x => x) info' then after_last_true pre' info'
      else if b then pre' else []
  | _, _ => []
  end.

(** A team whose groups have members, each with a contact:
    the reference [groups.members.contact] is below two document
    arrays. *)
Definition member (id c : N) : value :=
  VObj [("_id", VOid id); ("contact", VOid c)].

Definition team : value :=
  VObj [("_id", VOid 400);
        ("groups",
         VArr [VObj [("_id", VOid 401);
                     ("members", VArr [member 411 10; member 412 11])];
               VObj [("_id", VOid 402);
                     ("members", VArr [member 421 10])]])].

Definition team_world : world :=
  with_db (<["Person" := [parent]]> (<["Team" := [team]]> ∅))
          (snd ((consistentModel "Person" PersonSchema ;;;
                 consistentModel "Team" TeamSchema) empty_world)).

(* ===================================================================== *)
(** * Properties *)
(* ===================================================================== *)

(** ** Values *)

Lemma value_eqb_eq (a b : value) : value_eqb a b = true <-> a = b.
Proof.
  revert b. induction a as [ | | x | x | x | x | l IH | fs IH ] using value_nested_ind;
    intros [ | | y | y | y | y | m | gs ]; simpl;
    try (split; [discriminate | congruence]);
    try (split; [reflexivity | reflexivity]).
  - rewrite Bool.eqb_true_iff. split; congruence.
  - rewrite Z.eqb_eq. split; congruence.
  - rewrite String.eqb_eq. split; congruence.
  - rewrite N.eqb_eq. split; congruence.
  - revert m. induction IH as [ | x l Hx _ IHl ]; intros [ | y m ];
      try (split; [discriminate | congruence]); [ tauto | ].
    rewrite andb_true_iff, Hx. specialize (IHl m).
    split.
    + intros [-> H]. apply IHl in H. congruence.
    + intros H. injection H as -> ->. split; [ reflexivity | ].
      apply IHl. reflexivity.
  - revert gs. induction IH as [ | [k x] l Hx _ IHl ]; intros [ | [k' y] m ];
      try (split; [discriminate | congruence]); [ tauto | ].
    simpl in Hx. rewrite !andb_true_iff, Hx, String.eqb_eq. specialize (IHl m).
    split.
    + intros [[-> ->] H]. apply IHl in H. congruence.
    + intros H. injection H as -> -> ->. repeat split.
      apply IHl. reflexivity.
Qed.

Lemma in_values_In (vals : list value) (v : value) :
  in_values vals v = true <-> In v vals.
Proof.
  unfold in_values. rewrite existsb_exists. split.
  - intros [x [Hin Heq]]. apply value_eqb_eq in Heq. subst. exact Hin.
  - intros Hin. exists v. split; [ exact Hin | ]. apply value_eqb_eq. reflexivity.
Qed.

(** ** The find query *)

Lemma matches_find_query (modelRef pathRef : string) (vals : list value)
      (bound d : value) :
  matches (getFindQueryObjectFor modelRef pathRef vals bound) d = true
  <-> matched_by pathRef vals bound d.
Proof.
  unfold getFindQueryObjectFor, matched_by.
  destruct (truthy bound); simpl.
  - destruct d; try (split; [ discriminate | intros [fs [H _]]; discriminate ]).
    rewrite value_eqb_eq. split.
    + intros H. eauto.
    + intros [fs' [H1 H2]]. injection H1 as ->. exact H2.
  - rewrite existsb_exists. split.
    + intros [c [Hc Hv]]. apply in_values_In in Hv. eauto.
    + intros [c [Hc Hv]]. exists c. split; [ exact Hc | ].
      apply in_values_In. exact Hv.
Qed.

Lemma split_dot_aux_nonempty (s acc : string) : split_dot_aux acc s <> [].
Proof.
  revert acc. induction s as [ | c s IH ]; intros acc; simpl.
  - discriminate.
  - destruct (Ascii.eqb c "."); [ discriminate | apply IH ].
Qed.

(** Whatever a filter matches is an object or an array: [if (doc)] holds
    of it. *)
Lemma matches_truthy (q : query) (d : value) :
  matches q d = true -> truthy d = true.
Proof.
  destruct q as [v | p vals]; simpl.
  - destruct d; try discriminate. reflexivity.
  - unfold split_dot.
    destruct (split_dot_aux "" p) as [ | seg rest ] eqn:E.
    + exfalso. exact (split_dot_aux_nonempty _ _ E).
    + destruct d; simpl; try discriminate; reflexivity.
Qed.

Lemma with_log_same (w : world) : with_log (log w ++ []) w = w.
Proof. destruct w. unfold with_log. simpl. rewrite app_nil_r. reflexivity. Qed.

(** ** Block *)

(** What the block check computes, case by case. *)
Lemma onDeleteBlock_run (modelRef pathRef modelSubRef pathSubRef : string)
      (vals : list value) (bound : value) (ctx : delete_ctx)
      (sch : schema) (w : world) :
  models w !! modelRef = Some sch ->
  onDeleteBlock modelRef pathRef modelSubRef pathSubRef vals bound ctx w =
  if is_restore ctx then (Ok tt, w)
  else
    let q := getFindQueryObjectFor modelRef pathRef vals bound in
    let w' := with_log (log w ++ [EFindOne modelRef q]) w in
    match List.filter (matches q) (coll modelRef w) with
    | [] => (Ok tt, w')
    | d0 :: _ =>
        (Err (SubRefConstraintError
                {| ci_modelSubRef := modelSubRef;
                   ci_pathSubRef := pathSubRef;
                   ci_modelRef := modelRef;
                   ci_pathRef := pathRef;
                   ci_constrainedDocId := doc_id d0 |}), w')
    end.
Proof.
  intros Hmodel. unfold onDeleteBlock, is_restore.
  destruct (ctx_softDelete ctx), (ctx_deleted ctx); simpl; try reflexivity;
    unfold bind, model, findOne, bind, emit; rewrite Hmodel; simpl;
    (set (q := getFindQueryObjectFor modelRef pathRef vals bound));
    (change (coll modelRef (with_log (log w ++ [EFindOne modelRef q]) w))
       with (coll modelRef w));
    (destruct (List.filter (matches q) (coll modelRef w)) as [ | d0 rest ] eqn:Ef;
     simpl; [ reflexivity | ]);
    (assert (H0 : In d0 (List.filter (matches q) (coll modelRef w)))
       by (rewrite Ef; left; reflexivity));
    apply filter_In in H0; destruct H0 as [_ Hm0];
    (rewrite (matches_truthy q d0 Hm0); reflexivity).
Qed.





(** ** Cascade *)

(** [Promise.all] over started operations: all of them run, one after
    the other's effects, and the outcome is the first failure. *)
Lemma promise_all_spec (tasks : list (M unit)) (w : world) :
  promise_all tasks w = (first_failure (outcomes tasks w), world_after tasks w).
Proof.
  revert w. induction tasks as [ | t rest IH ]; intros w; simpl.
  - reflexivity.
  - unfold world_after. simpl. destruct (t w) as [r w1]. simpl.
    rewrite IH. destruct r as [ [] | e ]; reflexivity.
Qed.

Lemma outcomes_length (tasks : list (M unit)) (w : world) :
  List.length (outcomes tasks w) = List.length tasks.
Proof.
  revert w. induction tasks as [ | t rest IH ]; intros w; simpl.
  - reflexivity.
  - rewrite IH. reflexivity.
Qed.

(** The cascade in the run in which the started operations proceed one
    after the other: the documents found are those the query matches, a
    removal is called on each of them, and the outcome is a success when
    all succeed, the first failure in the order of the list otherwise. *)
Lemma cascade_in_turn
        (ops : doc_ops) (schemaType : refType)
        (modelRef pathRef modelSubRef pathSubRef : string)
        (vals : list value) (bound : value) (ctx : delete_ctx)
        (sch : schema) (w : world) :
  rt_required schemaType = true ->
  rt_cascade schemaType = true ->
  models w !! modelRef = Some sch ->
  let q := getFindQueryObjectFor modelRef pathRef vals bound in
  let documents := List.filter (matches q) (coll modelRef w) in
  let removal := fun doc =>
                   if ctx_softDelete ctx
                   then op_softDelete ops modelRef doc (ctx_deleted ctx)
                   else op_deleteOne ops modelRef doc in
  let started := with_log (log w ++ [EFind modelRef q]) w in
  (forall d, In d documents
             <-> In d (coll modelRef w) /\ matched_by pathRef vals bound d)
  /\ onDeleteConditions ops schemaType modelRef pathRef modelSubRef pathSubRef
                        vals bound ctx w
     = (first_failure (outcomes (List.map removal documents) started),
        world_after (List.map removal documents) started)
  /\ List.length (outcomes (List.map removal documents) started)
     = List.length documents.
Proof.
  intros Hreq Hcasc Hmodel q documents removal started.
  split.
  { intros d. unfold documents. rewrite filter_In. unfold q.
    rewrite (matches_find_query modelRef). reflexivity. }
  split.
  { unfold onDeleteConditions. rewrite Hreq, Hcasc.
    unfold onDeleteCascade, bind, model, find, bind, emit.
    rewrite Hmodel. simpl. fold q. fold started.
    change (coll modelRef started) with (coll modelRef w). fold documents.
    rewrite <- promise_all_spec. unfold removal.
    destruct (ctx_softDelete ctx); reflexivity. }
  rewrite outcomes_length, length_map. reflexivity.
Qed.

(** A cascade through two levels: deleting the person deletes the
    messages referencing its contacts, and each deleted message deletes
    the attachments referencing its parts; an attachment referencing
    nothing of them stays. *)
Example cascade_through_chain :
  let run := deleteOne 2 "Person" parent chain_world in
  fst run = Ok tt
  /\ coll "Person" (snd run) = []
  /\ coll "Message" (snd run) = []
  /\ coll "Attachment" (snd run) = [attachment 202 7777]
  /\ log (snd run)
     = [EDeleteOne "Person" (VOid 1);
        EFind "Message" (QIn "contact" [VOid 10; VOid 11]);
        EDeleteOne "Message" (VOid 100);
        EFind "Attachment" (QIn "part" [VOid 1000]);
        EDeleteOne "Attachment" (VOid 200);
        EDeleteOne "Message" (VOid 101);
        EFind "Attachment" (QIn "part" [VOid 1001]);
        EDeleteOne "Attachment" (VOid 201)].
Proof. vm_compute. repeat split. Qed.

(** The soft-delete test of the repository: soft-deleting the person
    soft-deletes the messages with the same flag, and restoring it
    restores them. *)
Example soft_cascade_and_restore :
  let w1 := snd (softDelete 1 "Person" parent true (test_world true true)) in
  let w2 := snd (softDelete 1 "Person" (set_deleted true parent) false w1) in
  List.map (fun d => doc_get d "_deleted") (coll "Message" w1)
  = [VBool true; VBool true; VBool true]
  /\ List.map (fun d => doc_get d "_deleted") (coll "Message" w2)
     = [VBool false; VBool false; VBool false]
  /\ List.map (fun d => doc_get d "_deleted") (coll "Person" w2) = [VBool false].
Proof. vm_compute. repeat split. Qed.

(** ** Set-null *)

Lemma getUpdateQueryObjectFor_eq (sch : schema) (pathRef : string)
      (vals : list value) :
  getUpdateQueryObjectFor sch pathRef vals =
  match schema_path sch pathRef with
  | None => Err (TypeError "Cannot read property constructor of undefined")
  | Some st => Ok (terminal_update st (update_target sch pathRef) vals,
                   update_filter sch pathRef vals)
  end.
Proof.
  unfold getUpdateQueryObjectFor, terminal_update, update_target, update_filter.
  destruct (schema_path sch pathRef); reflexivity.
Qed.

Lemma field_set_field (k : string) (v : value) (fs : list (string * value)) :
  field k (set_field k v fs) = v.
Proof.
  induction fs as [ | [k' x] fs IH ]; simpl.
  - rewrite String.eqb_refl. reflexivity.
  - destruct (String.eqb k k') eqn:E; simpl.
    + rewrite String.eqb_refl. reflexivity.
    + rewrite E. exact IH.
Qed.

(** A path without a dot crosses no document array: the update is
    written to the field itself and carries no array filter. *)
Lemma update_target_plain (sch : schema) (pathRef : string) (vals : list value) :
  split_dot pathRef = [pathRef] ->
  update_target sch pathRef = pathRef /\ update_filter sch pathRef vals = None.
Proof.
  intros H. unfold update_target, update_filter. rewrite H. simpl. split; reflexivity.
Qed.

(** References below a document array and in an array of references:
    the update goes through [$[j]] with an array filter and nulls the
    matching element only; the array of references loses the removed
    values and keeps the others. *)
Example setnull_nested_and_array :
  getUpdateQueryObjectFor OrderSchema "lines.contact" [VOid 10]
  = Ok (SetNull "lines.$[j].contact",
        Some {| af_key := "j.contact"; af_vals := [VOid 10] |})
  /\ getUpdateQueryObjectFor OrderSchema "watchers" [VOid 10; VOid 11]
     = Ok (Pull "watchers" [VOid 10; VOid 11], None)
  /\ coll "Order"
          (snd (onDeleteConditions (ops_at 1) (contact_type false false)
                                   "Order" "lines.contact" "Person" "contacts"
                                   [VOid 10] VNull no_ctx order_world))
     = [VObj [("_id", VOid 300);
              ("lines", VArr [VObj [("_id", VOid 301); ("contact", VNull)];
                              VObj [("_id", VOid 302); ("contact", VOid 11)]]);
              ("watchers", VArr [VOid 10; VOid 11; VOid 12])]]
  /\ coll "Order"
          (snd (onDeleteConditions (ops_at 1) (contact_type false false)
                                   "Order" "watchers" "Person" "contacts"
                                   [VOid 10; VOid 11] VNull no_ctx order_world))
     = [VObj [("_id", VOid 300);
              ("lines", VArr [VObj [("_id", VOid 301); ("contact", VOid 10)];
                              VObj [("_id", VOid 302); ("contact", VOid 11)]]);
              ("watchers", VArr [VOid 12])]].
Proof. vm_compute. repeat split. Qed.

(** ** The removed-value set *)







(** ** The save-time validator *)

Lemma get_path_nil (v : value) : get_path v [] = v.
Proof. destruct v; reflexivity. Qed.

Lemma get_path_undef (path : list string) : get_path VUndef path = VUndef.
Proof. destruct path; reflexivity. Qed.

(** On an object the first segment selects the field. *)
Lemma get_path_obj (seg : string) (rest : list string)
      (fs : list (string * value)) :
  get_path (VObj fs) (seg :: rest) = get_path (field seg fs) rest.
Proof.
  cbn [get_path]. induction fs as [ | [k x] fs IH ]; simpl.
  - symmetry. apply get_path_undef.
  - destruct (String.eqb seg k); [ reflexivity | exact IH ].
Qed.

Lemma get_set_path (path : list string) (v x : value) :
  get_path (set_path v path x) path = x.
Proof.
  revert v. induction path as [ | seg rest IH ]; intros v.
  - apply get_path_nil.
  - destruct v; cbn [set_path]; rewrite get_path_obj;
      try (cbn [field]; rewrite String.eqb_refl; apply IH).
    rewrite field_set_field. apply IH.
Qed.

Lemma doc_get_set (document : value) (path : string) (x : value) :
  doc_get (doc_set document path x) path = x.
Proof. apply get_set_path. Qed.

(** The block check asks the store one question at most and changes no
    document, whether or not the referencing model is known. *)
Lemma onDeleteBlock_read_only (modelRef pathRef modelSubRef pathSubRef : string)
      (vals : list value) (bound : value) (ctx : delete_ctx) (w : world) :
  read_only_step w (snd (onDeleteBlock modelRef pathRef modelSubRef pathSubRef
                                       vals bound ctx w)).
Proof.
  destruct (models w !! modelRef) as [sch | ] eqn:Hm.
  - rewrite (@onDeleteBlock_run modelRef pathRef modelSubRef pathSubRef vals bound
                                ctx sch w Hm).
    destruct (is_restore ctx).
    + exists []. split; [ symmetry; apply with_log_same | reflexivity ].
    + cbv zeta.
      destruct (List.filter _ _); simpl; eexists; split; reflexivity.
  - unfold onDeleteBlock.
    destruct (negb (ctx_softDelete ctx) || ctx_deleted ctx); simpl.
    + unfold bind, model. rewrite Hm. simpl.
      exists []. split; [ symmetry; apply with_log_same | reflexivity ].
    + exists []. split; [ symmetry; apply with_log_same | reflexivity ].
Qed.

(** The remover of a required, non-cascading reference is the block
    check on the removed values, with the bound value read from the
    document. *)
Lemma remover_block (ops : doc_ops) (vc : validator_closure)
      (deleted : list value) (this : instance) (o : ref_options) :
  rt_options (vc_schemaType vc) = Some o ->
  rt_required (vc_schemaType vc) = true ->
  rt_cascade (vc_schemaType vc) = false ->
  remover ops vc deleted this
  = (vals <- lift (mapR ref_value deleted) ;;
     onDeleteBlock (vc_modelName vc) (vc_path vc) (vc_subRefModel vc)
                   (vc_pathSubRef vc) vals (bound_value o (i_doc this)) no_ctx).
Proof.
  intros Ho Hreq Hcasc. unfold remover, onDeleteConditions.
  rewrite Ho, Hreq, Hcasc. reflexivity.
Qed.

Lemma remover_read_only (ops : doc_ops) (vc : validator_closure)
      (deleted : list value) (this : instance) (w : world) :
  rt_required (vc_schemaType vc) = true ->
  rt_cascade (vc_schemaType vc) = false ->
  read_only_step w (snd (remover ops vc deleted this w)).
Proof.
  intros Hreq Hcasc.
  destruct (rt_options (vc_schemaType vc)) as [o | ] eqn:Ho.
  - rewrite (remover_block ops vc deleted this Ho Hreq Hcasc).
    unfold bind, lift. destruct (mapR ref_value deleted) as [vals | e]; simpl.
    + apply onDeleteBlock_read_only.
    + exists []. split; [ symmetry; apply with_log_same | reflexivity ].
  - unfold remover. rewrite Ho. simpl.
    exists []. split; [ symmetry; apply with_log_same | reflexivity ].
Qed.

(** C5. When something was removed, the reference is required and does
    not cascade, and the block check run by the validator fails with a
    [SubRefConstraintError], the validator sets the target field of the
    document back to its prior value and fails with an error built from
    the five options of the constraint error; nothing stored has changed.
    The validator changes the fields of the document in no other case,
    and the post-save hook that runs the deferred tasks never does,
    whatever their outcome. *)
Theorem C5_block_failure_restores_field
        (ops : doc_ops) (vc : validator_closure) (this : instance)
        (newValues : value) (deleted : list value)
        (e : constraint_info) (w w1 : world) :
  deletedValues (oldValues_of (vc_pathSubRef vc) this) newValues = Ok deleted ->
  deleted <> [] ->
  rt_required (vc_schemaType vc) = true ->
  rt_cascade (vc_schemaType vc) = false ->
  remover ops vc deleted this w = (Err (SubRefConstraintError e), w1) ->
  let oldValues := oldValues_of (vc_pathSubRef vc) this in
  let restored := with_doc (doc_set (i_doc this) (vc_pathSubRef vc) oldValues) this in
  validator ops vc this newValues w
  = (Err (ValidatorError (ci_modelSubRef e) (ci_pathSubRef e)
                         (ci_modelRef e) (ci_pathRef e) (ci_constrainedDocId e)),
     restored, w1)
  /\ doc_get (i_doc restored) (vc_pathSubRef vc) = oldValues
  /\ i_queue restored = i_queue this
  /\ db w1 = db w
  /\ (forall vc' this' new' w' r this2 w2,
         validator ops vc' this' new' w' = (r, this2, w2) ->
         i_doc this2 <> i_doc this' ->
         rt_required (vc_schemaType vc') = true
         /\ rt_cascade (vc_schemaType vc') = false
         /\ exists a b c d x, r = Err (ValidatorError a b c d x))
  /\ (forall this' ps w',
         i_doc (snd (fst (fst (post_save ops this' ps w')))) = i_doc this').
Proof.
  intros Hdel Hne Hreq Hcasc Hrun oldValues restored.
  split.
  { subst oldValues restored. unfold validator. cbv zeta. rewrite Hdel.
    destruct deleted as [ | d0 rest ]; [ congruence | ].
    change (Nat.ltb 0 (List.length (d0 :: rest))) with true. cbv iota.
    rewrite Hreq, Hcasc. simpl andb. cbv iota. rewrite Hrun. reflexivity. }
  split; [ apply doc_get_set | ].
  split; [ reflexivity | ].
  split.
  { pose proof (remover_read_only ops vc deleted this w Hreq Hcasc) as Hro.
    rewrite Hrun in Hro. simpl in Hro. destruct Hro as [evs [-> _]]. reflexivity. }
  split.
  { intros vc' this' new' w' r this2 w2 Hv Hchg. unfold validator in Hv.
    destruct (deletedValues _ new') as [del | err];
      [ | injection Hv as <- <- <-; congruence ].
    destruct (Nat.ltb 0 (List.length del));
      [ | injection Hv as <- <- <-; congruence ].
    destruct (rt_required (vc_schemaType vc')) eqn:R;
      destruct (rt_cascade (vc_schemaType vc')) eqn:C; simpl in Hv;
      try (injection Hv as <- <- <-; simpl in Hchg; congruence).
    destruct (remover ops vc' del this' w') as [[u | err] w3].
    - injection Hv as <- <- <-. congruence.
    - destruct err; injection Hv as <- <- <-; try congruence.
      split; [ reflexivity | ]. split; [ reflexivity | ].
      do 5 eexists. reflexivity. }
  intros this' ps w'. unfold post_save.
  destruct (post_save_tasks ops (post_save_begin this') w') as [r w3].
  unfold post_save_end, post_save_begin.
  destruct (i_queue this') as [q | ] eqn:Hq; simpl; rewrite Hq;
    [ destruct r; reflexivity | reflexivity ].
Qed.

(** The save test of the repository: the first contact is removed from
    the person while a message requires it; the validator fails with the
    details of the constraint, and [contacts] is back to both contacts. *)
Lemma C5_block_failure_witness :
  let w := test_world true false in
  let vc := contact_validator true false in
  let run := validator (ops_at 1) vc parent_shifted (VArr [contact1]) w in
  (deletedValues (oldValues_of "contacts" parent_shifted) (VArr [contact1])
   = Ok [contact0]
   /\ rt_required (vc_schemaType vc) = true
   /\ rt_cascade (vc_schemaType vc) = false)
  /\ fst (fst run)
     = Err (ValidatorError "Person" "contacts" "Message" "contact" (VOid 100))
  /\ doc_get (i_doc parent_shifted) "contacts" = VArr [contact1]
  /\ doc_get (i_doc (snd (fst run))) "contacts" = VArr [contact0; contact1]
  /\ db (snd run) = db w.
Proof.
  intros w vc run.
  split; [ repeat split | ].
  destruct (@C5_block_failure_restores_field
              (ops_at 1) vc parent_shifted (VArr [contact1]) [contact0]
              {| ci_modelSubRef := "Person"; ci_pathSubRef := "contacts";
                 ci_modelRef := "Message"; ci_pathRef := "contact";
                 ci_constrainedDocId := VOid 100 |}
              w (snd (remover (ops_at 1) vc [contact0] parent_shifted w)))
    as [Hv [Hget [_ [Hdb _]]]].
  - reflexivity.
  - discriminate.
  - reflexivity.
  - reflexivity.
  - vm_compute. reflexivity.
  - unfold run. rewrite Hv. simpl fst. simpl snd.
    split; [ reflexivity | ].
    split; [ reflexivity | ].
    split; [ exact Hget | exact Hdb ].
Defined.

(** C4, as the specification states it, fails: the queued task does not
    hold the bound value.  The person names message 100 in [mainMessage]
    when the validator queues the cascade; the field names message 101
    when the post-save hook runs; the task then looks for message 101 and
    deletes it, and message 100 stays. *)
Lemma C4_task_holds_no_bound_value :
  let w := bound_world true true (VOid 100) in
  let vc := bound_validator true true in
  let this := bound_parent_shifted (VOid 100) in
  let run := validator (ops_at 1) vc this (VArr [contact1]) w in
  let later := with_doc (doc_set (i_doc (snd (fst run))) "mainMessage" (VOid 101))
                        (snd (fst run)) in
  fst (fst run) = Ok true
  /\ snd run = w
  /\ doc_get (i_doc this) "mainMessage" = VOid 100
  /\ log (snd (post_save_tasks (ops_at 1) (post_save_begin later) (snd run)))
     = [EFind "Message" (QId (VOid 101)); EDeleteOne "Message" (VOid 101)]
  /\ coll "Message" (snd (post_save_tasks (ops_at 1) (post_save_begin later) (snd run)))
     = [message 100 10; message 102 10]
  /\ ~ task_holds_bound_value (ops_at 1) vc this (VArr [contact1]) w.
Proof.
  intros w vc this run later.
  split; [ reflexivity | ].
  split; [ reflexivity | ].
  split; [ reflexivity | ].
  split; [ vm_compute; reflexivity | ].
  split; [ vm_compute; reflexivity | ].
  intros H.
  specialize (H (fst (fst run)) (snd (fst run)) (snd run)).
  assert (Hrun : run = (fst (fst run), snd (fst run), snd run))
    by (destruct run as [[r t] w']; reflexivity).
  specialize (H Hrun
                {| subRef := Some "Person.contacts"; boundTo := Some "mainMessage" |}
                "mainMessage" (VOid 101) eq_refl eq_refl).
  apply (f_equal (fun p => log (snd p))) in H.
  vm_compute in H. discriminate H.
Qed.

(** C4, amended.  When a save removes referenced values: for a required
    reference that does not cascade the validator runs the remover at
    once, which is the block check with the bound value read from the
    document; its outcome decides the validation, it changes no stored
    document and queues nothing.  For any other reference the validator
    asks nothing of the store and leaves the world as it is; it returns
    [true] and appends to the queue of the document instance a task
    holding the descriptor and the removed values.  The post-save hook
    runs the queued tasks, each on the document instance as it is by
    then: the bound value is read from the document when the task runs. *)
Theorem C4_validator_checks_now_or_queues
        (ops : doc_ops) (vc : validator_closure) (this : instance)
        (newValues : value) (deleted : list value) (w : world) :
  deletedValues (oldValues_of (vc_pathSubRef vc) this) newValues = Ok deleted ->
  deleted <> [] ->
  let now := rt_required (vc_schemaType vc) && negb (rt_cascade (vc_schemaType vc)) in
  let task := {| pt_closure := vc; pt_deletedValues := deleted |} in
  (now = true ->
   validator ops vc this newValues w
   = match remover ops vc deleted this w with
     | (Ok _, w') => (Ok true, this, w')
     | (Err (SubRefConstraintError e), w') =>
         (Err (ValidatorError (ci_modelSubRef e) (ci_pathSubRef e)
                              (ci_modelRef e) (ci_pathRef e)
                              (ci_constrainedDocId e)),
          with_doc (doc_set (i_doc this) (vc_pathSubRef vc)
                            (oldValues_of (vc_pathSubRef vc) this)) this, w')
     | (Err e, w') => (Err e, this, w')
     end
   /\ read_only_step w (snd (validator ops vc this newValues w))
   /\ i_queue (snd (fst (validator ops vc this newValues w))) = i_queue this
   /\ forall o, rt_options (vc_schemaType vc) = Some o ->
        remover ops vc deleted this
        = (vals <- lift (mapR ref_value deleted) ;;
           onDeleteBlock (vc_modelName vc) (vc_path vc) (vc_subRefModel vc)
                         (vc_pathSubRef vc) vals
                         (bound_value o (i_doc this)) no_ctx))
  /\ (now = false ->
      validator ops vc this newValues w = (Ok true, enqueue task this, w)
      /\ i_queue (enqueue task this) = Some (chain_queue (i_queue this) ++ [task])
      /\ i_doc (enqueue task this) = i_doc this)
  /\ (forall this' q,
         i_queue this' = Some q ->
         post_save_tasks ops (post_save_begin this')
         = promise_all (List.map (run_task ops (post_save_begin this')) q)
         /\ i_doc (post_save_begin this') = i_doc this')
  /\ (forall this' o,
         rt_options (vc_schemaType vc) = Some o ->
         run_task ops this' task
         = (vals <- lift (mapR ref_value deleted) ;;
            onDeleteConditions ops (vc_schemaType vc) (vc_modelName vc)
                               (vc_path vc) (vc_subRefModel vc) (vc_pathSubRef vc)
                               vals (bound_value o (i_doc this')) no_ctx)).
Proof.
  intros Hdel Hne now task.
  assert (Hv : validator ops vc this newValues w
               = if now
                 then match remover ops vc deleted this w with
                      | (Ok _, w') => (Ok true, this, w')
                      | (Err (SubRefConstraintError e), w') =>
                          (Err (ValidatorError (ci_modelSubRef e) (ci_pathSubRef e)
                                               (ci_modelRef e) (ci_pathRef e)
                                               (ci_constrainedDocId e)),
                           with_doc (doc_set (i_doc this) (vc_pathSubRef vc)
                                             (oldValues_of (vc_pathSubRef vc) this))
                                    this, w')
                      | (Err e, w') => (Err e, this, w')
                      end
                 else (Ok true, enqueue task this, w)).
  { unfold validator. cbv zeta. rewrite Hdel.
    destruct deleted as [ | d0 rest ]; [ congruence | ].
    change (Nat.ltb 0 (List.length (d0 :: rest))) with true. cbv iota.
    reflexivity. }
  split.
  { intros Hnow. rewrite Hv, Hnow.
    apply andb_true_iff in Hnow. destruct Hnow as [Hreq Hcasc].
    apply negb_true_iff in Hcasc.
    split; [ reflexivity | ].
    pose proof (remover_read_only ops vc deleted this w Hreq Hcasc) as Hro.
    split; [ | split ].
    - destruct (remover ops vc deleted this w) as [[u | e] w']; simpl in *;
        [ exact Hro | destruct e; exact Hro ].
    - destruct (remover ops vc deleted this w) as [[u | e] w']; simpl;
        [ reflexivity | destruct e; reflexivity ].
    - intros o Ho. apply remover_block; assumption. }
  split.
  { intros Hnow. rewrite Hv, Hnow. repeat split. }
  split.
  { intros this' q Hq. unfold post_save_tasks, post_save_begin. rewrite Hq.
    simpl. rewrite Hq. split; reflexivity. }
  intros this' o Ho. unfold run_task, remover. simpl. rewrite Ho. reflexivity.
Qed.

(** The cascade-on-save test of the repository: the first contact is
    removed from the person; validation touches nothing and queues one
    task; the post-save hook then deletes the two messages referencing
    that contact and keeps the third. *)
Lemma C4_validator_witness :
  let w := test_world true true in
  let vc := contact_validator true true in
  let task := {| pt_closure := vc; pt_deletedValues := [contact0] |} in
  let run := validator (ops_at 1) vc parent_shifted (VArr [contact1]) w in
  (deletedValues (oldValues_of (vc_pathSubRef vc) parent_shifted) (VArr [contact1])
   = Ok [contact0]
   /\ [contact0] <> [])
  /\ run = (Ok true, enqueue task parent_shifted, w)
  /\ i_queue (snd (fst run)) = Some [task]
  /\ coll "Message"
          (snd (post_save (ops_at 1) (snd (fst run)) [] (snd run)))
     = [message 101 11].
Proof.
  intros w vc task run.
  split; [ split; [ reflexivity | discriminate ] | ].
  destruct (@C4_validator_checks_now_or_queues
              (ops_at 1) vc parent_shifted (VArr [contact1]) [contact0] w
              eq_refl)
    as [_ [Hlater _]]; [ discriminate | ].
  destruct (Hlater eq_refl) as [Hv [Hq _]].
  split; [ exact Hv | ].
  unfold run. rewrite Hv. simpl fst. simpl snd.
  split; [ exact Hq | ].
  vm_compute. reflexivity.
Defined.

(** ** The deferred update scheduler *)

Lemma settle_same (s : pstate) (ps : list pstate) (p : nat) :
  ps !! p = Some Pending -> settle s ps p !! p = Some s.
Proof.
  intros H. unfold settle. rewrite H.
  apply list_lookup_insert_eq. eapply lookup_lt_Some. exact H.
Qed.

Lemma settle_other (s : pstate) (ps : list pstate) (p q : nat) :
  p <> q -> settle s ps q !! p = ps !! p.
Proof.
  intros H. unfold settle.
  destruct (ps !! q) as [ [ | | e ] | ]; try reflexivity.
  apply list_lookup_insert_ne. congruence.
Qed.

Lemma settle_settled (s x : pstate) (ps : list pstate) (p q : nat) :
  ps !! p = Some x -> x <> Pending -> settle s ps q !! p = Some x.
Proof.
  intros H Hx. destruct (Nat.eq_dec p q) as [ <- | Hne ].
  - unfold settle. rewrite H. destruct x; [ congruence | exact H | exact H ].
  - rewrite settle_other; assumption.
Qed.

Lemma chain_keeps_settled (s x : pstate) (c : list nat) (ps : list pstate) (p : nat) :
  ps !! p = Some x -> x <> Pending -> fold_left (settle s) c ps !! p = Some x.
Proof.
  revert ps. induction c as [ | q c IH ]; intros ps H Hx; simpl.
  - exact H.
  - apply IH; [ | exact Hx ]. apply settle_settled; assumption.
Qed.

Lemma chain_settles_pending (s : pstate) (c : list nat) (ps : list pstate) (p : nat) :
  s <> Pending -> In p c -> ps !! p = Some Pending ->
  fold_left (settle s) c ps !! p = Some s.
Proof.
  intros Hs. revert ps. induction c as [ | q c IH ]; intros ps Hin H; simpl.
  - destruct Hin.
  - destruct (Nat.eq_dec q p) as [ -> | Hne ].
    + apply chain_keeps_settled with (x := s); [ | exact Hs ].
      apply settle_same. exact H.
    + destruct Hin as [ Heq | Hin ]; [ congruence | ].
      apply IH; [ exact Hin | ].
      rewrite settle_other; [ exact H | congruence ].
Qed.

Lemma call_chain_fold (s : pstate) (o : option (list nat)) (ps : list pstate) :
  call_chain s o ps = fold_left (settle s) (chain_of o) ps.
Proof. destruct o; reflexivity. Qed.

(** What [k] callers leave behind while the batch has not finished:
    [k] new pending promises, all of them on both chains. *)
Lemma callers_spec (k : nat) (this : instance) (ps : list pstate) :
  i_updated this <> Some true ->
  fst (fst (callers k this ps)) = seq (List.length ps) k
  /\ snd (callers k this ps) = ps ++ replicate k Pending
  /\ i_queue (snd (fst (callers k this ps))) = i_queue this
  /\ i_updated (snd (fst (callers k this ps))) = i_updated this
  /\ i_doc (snd (fst (callers k this ps))) = i_doc this
  /\ chain_of (i_resolver (snd (fst (callers k this ps))))
     = chain_of (i_resolver this) ++ seq (List.length ps) k
  /\ chain_of (i_rejecter (snd (fst (callers k this ps))))
     = chain_of (i_rejecter this) ++ seq (List.length ps) k.
Proof.
  revert this ps. induction k as [ | k IH ]; intros this ps Hflag.
  - simpl. rewrite !app_nil_r. repeat split.
  - cbn [callers].
    assert (Hsub : subRefsUpdates this ps
                   = (List.length ps,
                      with_callbacks
                        (Some (chain_of (i_resolver this) ++ [List.length ps]))
                        (Some (chain_of (i_rejecter this) ++ [List.length ps]))
                        this,
                      ps ++ [Pending])).
    { unfold subRefsUpdates. destruct (i_updated this) as [ [ | ] | ];
        [ congruence | reflexivity | reflexivity ]. }
    rewrite Hsub.
    set (this1 := with_callbacks _ _ this).
    specialize (IH this1 (ps ++ [Pending]) Hflag).
    destruct (callers k this1 (ps ++ [Pending])) as [[l this2] ps2].
    simpl in *.
    destruct IH as [Hl [Hps [Hq [Hu [Hd [Hr Hj]]]]]].
    rewrite length_app in Hl, Hr, Hj. simpl in Hl, Hr, Hj.
    replace (List.length ps + 1) with (S (List.length ps)) in Hl, Hr, Hj by lia.
    repeat split.
    + rewrite Hl. reflexivity.
    + rewrite Hps, <- app_assoc. reflexivity.
    + exact Hq.
    + exact Hu.
    + exact Hd.
    + rewrite Hr, <- app_assoc. reflexivity.
    + rewrite Hj, <- app_assoc. reflexivity.
Qed.

Lemma pending_after_callers (k : nat) (ps : list pstate) (p : nat) :
  In p (seq (List.length ps) k) -> (ps ++ replicate k Pending) !! p = Some Pending.
Proof.
  intros Hin. apply in_seq in Hin.
  rewrite lookup_app_r by lia.
  apply lookup_replicate_2. lia.
Qed.

(** What [subRefsUpdates] does for its callers.  It returns a promise
    that is resolved at once when the flag [subRefUpdatedAfterSave] is
    [true], that is when a batch of this document instance has finished,
    and that is pending otherwise.  While a batch is in flight, every
    caller's promise is resolved when the batch succeeds and rejected
    with the error of the batch when it fails; in the run in which the
    tasks proceed in turn that error is the first failure in the order
    of the queue.  Once the hook has ended the queue is gone, a hook
    without a queue runs nothing, and [subRefsUpdates] itself runs no
    task. *)
Lemma waiting_callers_are_all_notified
        (ops : doc_ops) (this : instance) (ps : list pstate)
        (k : nat) (q : list pending_task) :
  (i_updated this = Some true -> resolves_at_once this ps)
  /\ (i_updated this <> Some true ->
      let '(p, _, ps') := subRefsUpdates this ps in ps' !! p = Some Pending)
  /\ (i_queue this = Some q ->
      i_updated this <> Some true ->
      let '(promises, this', ps') := callers k this ps in
      List.length promises = k
      /\ (forall p, In p promises ->
                    snd (post_save_end (Ok tt) this' ps') !! p = Some Resolved)
      /\ (forall e p, In p promises ->
                      snd (post_save_end (Err e) this' ps') !! p = Some (Rejected e))
      /\ (forall e, fst (fst (post_save_end (Err e) this' ps')) = Err e))
  /\ (forall w,
         let tasks := List.map (run_task ops (post_save_begin this))
                               (chain_queue (i_queue this)) in
         post_save ops this ps w
         = (post_save_end (first_failure (outcomes tasks w))
                          (post_save_begin this) ps,
            world_after tasks w))
  /\ (forall r, i_queue (snd (fst (post_save_end r this ps))) = None)
  /\ (forall w, i_queue this = None -> post_save ops this ps w = (Ok tt, this, ps, w))
  /\ i_queue (snd (fst (subRefsUpdates this ps))) = i_queue this.
Proof.
  split.
  { intros Hdone. unfold resolves_at_once, subRefsUpdates. rewrite Hdone.
    apply settle_same.
    rewrite lookup_app_r by lia. rewrite Nat.sub_diag. reflexivity. }
  split.
  { intros Hflag. unfold subRefsUpdates.
    destruct (i_updated this) as [ [ | ] | ]; [ congruence | | ];
      (rewrite lookup_app_r by lia; rewrite Nat.sub_diag; reflexivity). }
  split.
  { intros Hq Hflag.
    destruct (callers_spec k this ps Hflag)
      as [Hl [Hps [Hq' [_ [_ [Hr Hj]]]]]].
    destruct (callers k this ps) as [[promises this'] ps']. simpl in *.
    rewrite Hq in Hq'.
    split; [ rewrite Hl; apply length_seq | ].
    split; [ | split ].
    - intros p Hin. unfold post_save_end. rewrite Hq'. simpl.
      rewrite call_chain_fold. apply chain_settles_pending.
      + discriminate.
      + rewrite Hr. apply in_or_app. right. rewrite <- Hl. exact Hin.
      + rewrite Hps. apply pending_after_callers. rewrite <- Hl. exact Hin.
    - intros e p Hin. unfold post_save_end. rewrite Hq'. simpl.
      rewrite call_chain_fold. apply chain_settles_pending.
      + discriminate.
      + rewrite Hj. apply in_or_app. right. rewrite <- Hl. exact Hin.
      + rewrite Hps. apply pending_after_callers. rewrite <- Hl. exact Hin.
    - intros e. unfold post_save_end. rewrite Hq'. reflexivity. }
  split.
  { intros w tasks. unfold post_save.
    assert (Ht : post_save_tasks ops (post_save_begin this)
                 = promise_all tasks).
    { unfold post_save_tasks, tasks, post_save_begin.
      destruct (i_queue this) as [q0 | ] eqn:E; simpl; rewrite E; reflexivity. }
    rewrite Ht, promise_all_spec. reflexivity. }
  split.
  { intros r. unfold post_save_end.
    destruct (i_queue this) as [q0 | ] eqn:E; [ destruct r; reflexivity | exact E ]. }
  split.
  { intros w Hnone. unfold post_save, post_save_begin, post_save_tasks.
    rewrite Hnone. simpl. unfold post_save_end. rewrite Hnone. reflexivity. }
  reflexivity.
Qed.

(** Two callers wait while the cascade queued by the save of the person
    is in flight: both are resolved when it succeeds, both are rejected
    with its error when it fails. *)
Lemma two_callers_are_notified :
  let task := {| pt_closure := contact_validator true true;
                 pt_deletedValues := [contact0] |} in
  let this := post_save_begin (enqueue task parent_shifted) in
  let waiting := callers 2 this [] in
  (i_queue this = Some [task] /\ i_updated this <> Some true)
  /\ fst (fst waiting) = [0; 1]
  /\ snd waiting = [Pending; Pending]
  /\ snd (post_save_end (Ok tt) (snd (fst waiting)) (snd waiting)) !! 0
     = Some Resolved
  /\ snd (post_save_end (Ok tt) (snd (fst waiting)) (snd waiting)) !! 1
     = Some Resolved
  /\ snd (post_save_end (Err OutOfFuel) (snd (fst waiting)) (snd waiting)) !! 0
     = Some (Rejected OutOfFuel)
  /\ snd (post_save_end (Err OutOfFuel) (snd (fst waiting)) (snd waiting)) !! 1
     = Some (Rejected OutOfFuel).
Proof.
  intros task this waiting.
  assert (Hflag : i_updated this <> Some true) by discriminate.
  split; [ split; [ reflexivity | exact Hflag ] | ].
  destruct (@waiting_callers_are_all_notified
              (ops_at 1) this [] 2 [task])
    as [_ [_ [H _]]].
  specialize (H eq_refl Hflag).
  change (callers 2 this []) with waiting in H.
  destruct waiting as [[promises this'] ps'] eqn:E.
  assert (Hp : promises = [0; 1]) by (injection E as <- _ _; reflexivity).
  assert (Hs : ps' = [Pending; Pending]) by (injection E as _ _ <-; reflexivity).
  destruct H as [_ [Hok [Herr _]]]. simpl fst. simpl snd.
  split; [ exact Hp | ]. split; [ exact Hs | ].
  rewrite Hp in Hok, Herr.
  split; [ apply Hok; left; reflexivity | ].
  split; [ apply Hok; right; left; reflexivity | ].
  split; [ apply Herr; left; reflexivity | ].
  apply Herr; right; left; reflexivity.
Defined.

(** C8.  [subRefsUpdates] tests the flag [subRefUpdatedAfterSave]
    (index.js:374), which only a post-save hook that found a queue sets
    (index.js:352-353).  On a document on which no save has queued
    anything the flag is not [true]: the promise a caller gets is not
    resolved when the call returns, it is pending, and a save that queues
    nothing leaves the document and every promise as they are, so that
    the promise stays pending however many such saves follow. *)
Theorem C8_nothing_queued_never_settles
        (ops : doc_ops) (this : instance) (ps : list pstate) :
  i_queue this = None ->
  i_updated this <> Some true ->
  let '(p, this', ps') := subRefsUpdates this ps in
  ~ resolves_at_once this ps
  /\ ps' !! p = Some Pending
  /\ i_queue this' = None
  /\ i_updated this' = i_updated this
  /\ (forall w, post_save ops this' ps' w = (Ok tt, this', ps', w)).
Proof.
  intros Hq Hflag.
  assert (Hsub : subRefsUpdates this ps
                 = (List.length ps,
                    with_callbacks
                      (Some (chain_of (i_resolver this) ++ [List.length ps]))
                      (Some (chain_of (i_rejecter this) ++ [List.length ps]))
                      this,
                    ps ++ [Pending])).
  { unfold subRefsUpdates. destruct (i_updated this) as [ [ | ] | ];
      [ congruence | reflexivity | reflexivity ]. }
  assert (Hp : (ps ++ [Pending]) !! List.length ps = Some Pending).
  { rewrite lookup_app_r by lia. rewrite Nat.sub_diag. reflexivity. }
  unfold resolves_at_once. rewrite Hsub.
  split; [ rewrite Hp; discriminate | ].
  split; [ exact Hp | ].
  split; [ exact Hq | ].
  split; [ reflexivity | ].
  intros w. set (this' := with_callbacks _ _ this).
  assert (Hq' : i_queue this' = None) by exact Hq.
  unfold post_save, post_save_begin. rewrite Hq'.
  unfold post_save_tasks. rewrite Hq'. cbn [ret].
  unfold post_save_end. rewrite Hq'. reflexivity.
Qed.

(** A person that was loaded and never saved with a removal: the caller
    of [subRefsUpdates] waits for ever. *)
Lemma C8_nothing_queued_witness :
  (i_queue idle_instance = None /\ i_updated idle_instance <> Some true)
  /\ ~ resolves_at_once idle_instance []
  /\ snd (subRefsUpdates idle_instance []) !! 0 = Some Pending
  /\ (let '(p, this', ps') := subRefsUpdates idle_instance [] in
      snd (fst (post_save (ops_at 1) this' ps' (test_world true true))) !! p
      = Some Pending).
Proof.
  assert (Hq : i_queue idle_instance = None) by reflexivity.
  assert (Hflag : i_updated idle_instance <> Some true) by discriminate.
  split; [ split; assumption | ].
  assert (H := @C8_nothing_queued_never_settles (ops_at 1) idle_instance [] Hq Hflag).
  destruct (subRefsUpdates idle_instance []) as [[p this'] ps'] eqn:E.
  destruct H as [Hno [Hp [_ [_ Hsave]]]].
  assert (E0 : p = 0) by (injection E as <- _ _; reflexivity).
  split; [ exact Hno | ].
  split; [ cbn [snd]; rewrite <- E0; exact Hp | ].
  rewrite Hsave. exact Hp.
Defined.

(** ** The reference registry *)

(** The list written under the target model is the list read under the
    whole [subRef] string plus the new descriptor: when nothing is kept
    under that string, the new descriptor alone. *)
Lemma register_replaces (sr : string) (d : descriptor) (w : world) :
  refs w !! sr = None ->
  refs (snd (register sr (Some sr) d w)) !! getRootRef sr = Some [d].
Proof.
  intros H. unfold register. simpl. rewrite H. simpl.
  apply lookup_insert_eq.
Qed.

(** C7 at two models referencing the same array.  After [Message] is
    registered the registry holds its descriptor under [Person]; after
    [Note] is registered it holds the descriptor of [Note] alone: the
    previous list is read under ['Person.contacts'] and written under
    ['Person'].  A person whose contact a message requires is then
    deleted without complaint. *)
Theorem C7_second_registration_drops_first :
  refs (registered true false) !! "Person" = Some [message_descriptor true false]
  /\ refs two_refs_world !! "Person" = Some [note_descriptor true false]
  /\ refs two_refs_world !! "Person.contacts" = None
  /\ fst (deleteOne 1 "Person" parent two_refs_world) = Ok tt
  /\ coll "Person" (snd (deleteOne 1 "Person" parent two_refs_world)) = []
  /\ coll "Message" (snd (deleteOne 1 "Person" parent two_refs_world))
     = [message 100 10].
Proof. vm_compute. repeat split. Qed.

(** Two references declared by one model fare the same: of [lines.contact]
    and [watchers] only the last one walked is kept. *)
Example registry_keeps_last_of_one_model :
  List.map d_path (match refs order_world !! "Person" with
                   | Some l => l
                   | None => []
                   end) = ["watchers"].
Proof. vm_compute. reflexivity. Qed.


(** With mongoose resolving paths below document arrays, a target that
    crosses two arrays registers as well. *)
Example two_array_hops_register :
  fst ((consistentModel "Person" DeepPersonSchema ;;;
        consistentModel "Message" DeepRefSchema) empty_world) = Ok tt.
Proof. vm_compute. reflexivity. Qed.


(** ** Bound references *)

(** C10, as stated, fails at a bound value that is not null but falsy:
    the person names message [0] in [mainMessage]; the value read is the
    number 0, the query built is the containment query, and the block
    check is made with it. *)
Lemma C10_falsy_bound_value_is_ignored :
  let o := {| subRef := Some "Person.contacts"; boundTo := Some "mainMessage" |} in
  let document := bound_parent (VNum 0) in
  let run := deleteOne 1 "Person" document (bound_world true false (VNum 0)) in
  bound_value o document = VNum 0
  /\ VNum 0 <> VNull
  /\ getFindQueryObjectFor "Message" "contact" [VOid 10; VOid 11]
                           (bound_value o document)
     = QIn "contact" [VOid 10; VOid 11]
  /\ getFindQueryObjectFor "Message" "contact" [VOid 10; VOid 11]
                           (bound_value o document)
     <> QId (VNum 0)
  /\ log (snd run)
     = [EDeleteOne "Person" (VOid 1);
        EFindOne "Message" (QIn "contact" [VOid 10; VOid 11])].
Proof. vm_compute. repeat split; discriminate. Qed.

Lemma matches_QId (bound d : value) :
  matches (QId bound) d = true <-> exists fs, d = VObj fs /\ field "_id" fs = bound.
Proof.
  simpl. destruct d; try (split; [ discriminate | intros [fs [H _]]; discriminate ]).
  rewrite value_eqb_eq. split.
  - intros H. eauto.
  - intros [fs' [H1 H2]]. injection H1 as ->. exact H2.
Qed.

(** C10, amended.  When the bound value read from the document is truthy
    (neither [null] nor [undefined], [false], [0] or the empty string),
    the query of block, cascade and set-null is [{ _id: boundValue }]
    whatever the removed values are: it matches the documents whose
    [_id] is the bound value and no others, whether or not they hold a
    removed value.  The bound value is the field named by [boundTo],
    read from the document being removed. *)
Theorem C10_bound_value_pins_query
        (ops : doc_ops) (modelRef pathRef modelSubRef pathSubRef : string)
        (vals : list value) (bound : value) (ctx : delete_ctx)
        (sch : schema) (st : schemaType) (w : world) :
  truthy bound = true ->
  models w !! modelRef = Some sch ->
  schema_path sch pathRef = Some st ->
  (forall vals', getFindQueryObjectFor modelRef pathRef vals' bound = QId bound)
  /\ (forall d, matches (QId bound) d = true
                <-> exists fs, d = VObj fs /\ field "_id" fs = bound)
  /\ (is_restore ctx = false ->
      log (snd (onDeleteBlock modelRef pathRef modelSubRef pathSubRef
                              vals bound ctx w))
      = log w ++ [EFindOne modelRef (QId bound)])
  /\ onDeleteCascade ops modelRef pathRef modelSubRef pathSubRef vals bound ctx w
     = promise_all
         (List.map (fun doc => if ctx_softDelete ctx
                               then op_softDelete ops modelRef doc (ctx_deleted ctx)
                               else op_deleteOne ops modelRef doc)
                   (List.filter (matches (QId bound)) (coll modelRef w)))
         (with_log (log w ++ [EFind modelRef (QId bound)]) w)
  /\ (ctx_softDelete ctx = false ->
      exists u af,
        log (snd (onDeleteSetNull modelRef pathRef modelSubRef pathSubRef
                                  vals bound ctx w))
        = log w ++ [EUpdateMany modelRef (QId bound) u af])
  /\ (forall o b document,
         boundTo o = Some b -> b <> "" ->
         bound_value o document = doc_get document b).
Proof.
  intros Hb Hmodel Hpath.
  assert (Hq : forall vals', getFindQueryObjectFor modelRef pathRef vals' bound
                             = QId bound).
  { intros vals'. unfold getFindQueryObjectFor. rewrite Hb. reflexivity. }
  split; [ exact Hq | ].
  split; [ apply matches_QId | ].
  split.
  { intros Hrest.
    rewrite (@onDeleteBlock_run modelRef pathRef modelSubRef pathSubRef vals bound
                                ctx sch w Hmodel).
    rewrite Hrest, Hq. cbv zeta.
    destruct (List.filter _ _); reflexivity. }
  split.
  { unfold onDeleteCascade, bind, model, find, bind, emit.
    rewrite Hmodel, Hq. simpl.
    destruct (ctx_softDelete ctx); reflexivity. }
  split.
  { intros Hhard. unfold onDeleteSetNull. rewrite Hhard. simpl.
    unfold bind, model, lift. rewrite Hmodel.
    rewrite getUpdateQueryObjectFor_eq, Hpath, Hq.
    do 2 eexists. reflexivity. }
  intros o b document Ho Hne. unfold bound_value. rewrite Ho. simpl.
  assert (Ht : negb (String.eqb b "") = true).
  { apply negb_true_iff. apply String.eqb_neq. exact Hne. }
  rewrite Ht. reflexivity.
Qed.

(** The person names message 101 in [mainMessage]: the block check asks
    for that message alone and is refused by it, although the contact
    message 101 references is not the only one removed. *)
Lemma C10_bound_value_witness :
  let w := bound_world true false (VOid 101) in
  let run := onDeleteBlock "Message" "contact" "Person" "contacts"
                           [VOid 10] (VOid 101) no_ctx w in
  (truthy (VOid 101) = true
   /\ models w !! "Message" = Some (BoundMessageSchema true false)
   /\ option_map st_ctor (schema_path (BoundMessageSchema true false) "contact")
      = Some "ObjectId")
  /\ log (snd run) = [EFindOne "Message" (QId (VOid 101))]
  /\ fst run = Err (SubRefConstraintError
                      {| ci_modelSubRef := "Person"; ci_pathSubRef := "contacts";
                         ci_modelRef := "Message"; ci_pathRef := "contact";
                         ci_constrainedDocId := VOid 101 |})
  /\ matches (QIn "contact" [VOid 10]) (message 101 11) = false.
Proof.
  intros w run.
  assert (Hm : models w !! "Message" = Some (BoundMessageSchema true false))
    by (vm_compute; reflexivity).
  split; [ split; [ reflexivity | split; [ exact Hm | reflexivity ] ] | ].
  destruct (@C10_bound_value_pins_query
              (ops_at 1) "Message" "contact" "Person" "contacts"
              [VOid 10] (VOid 101) no_ctx (BoundMessageSchema true false)
              (ref_field "Person.contacts" (Some "mainMessage") true false)
              w eq_refl Hm eq_refl)
    as [_ [_ [Hlog _]]].
  split; [ exact (Hlog eq_refl) | ].
  split; vm_compute; reflexivity.
Defined.

(** ** Fuel: cascades over an acyclic registry terminate *)

Lemma err_not_fuel {A B} (e : error) :
  @Err A e <> Err OutOfFuel -> @Err B e <> Err OutOfFuel.
Proof. intros H Heq. apply H. injection Heq as ->. reflexivity. Qed.

Lemma steady_agree (R : world) (c : M unit) : steady R c -> agree R c c.
Proof.
  intros H w Hw. destruct (H w Hw) as [H1 H2].
  split; [ reflexivity | split; assumption ].
Qed.

Lemma steady_ret {A} (R : world) (a : A) : steady R (ret a).
Proof. intros w Hw. split; [ exact Hw | discriminate ]. Qed.

Lemma steady_emit (R : world) (e : event) : steady R (emit e).
Proof. intros w Hw. split; [ exact Hw | discriminate ]. Qed.

Lemma steady_model (R : world) (name : string) : steady R (model name).
Proof.
  intros w Hw. unfold model.
  destruct (models w !! name); split; simpl; try exact Hw; discriminate.
Qed.

Lemma steady_lift {A} (R : world) (r : result A) :
  r <> Err OutOfFuel -> steady R (lift r).
Proof. intros Hr w Hw. split; [ exact Hw | exact Hr ]. Qed.

Lemma steady_bind {A B} (R : world) (m : M A) (k : A -> M B) :
  steady R m -> (forall a, steady R (k a)) -> steady R (bind m k).
Proof.
  intros Hm Hk w Hw. unfold bind.
  destruct (Hm w Hw) as [H1 H2].
  destruct (m w) as [[a | e] w1]; simpl in *.
  - apply Hk. exact H1.
  - split; [ exact H1 | exact (err_not_fuel H2) ].
Qed.

Lemma agree_bind {A} (R : world) (m : M A) (k1 k2 : A -> M unit) :
  steady R m -> (forall a, agree R (k1 a) (k2 a)) ->
  agree R (bind m k1) (bind m k2).
Proof.
  intros Hm Hk w Hw. unfold bind.
  destruct (Hm w Hw) as [H1 H2].
  destruct (m w) as [[a | e] w1]; simpl in *.
  - apply Hk. exact H1.
  - split; [ reflexivity | split; [ exact H1 | exact (err_not_fuel H2) ] ].
Qed.

Lemma agree_seq (R : world) (a1 a2 b1 b2 : M unit) :
  agree R a1 a2 -> agree R b1 b2 ->
  agree R (a1 ;;; b1) (a2 ;;; b2).
Proof.
  intros Ha Hb w Hw. unfold bind.
  destruct (Ha w Hw) as [H1 [H2 H3]]. rewrite <- H1.
  destruct (a1 w) as [[u | e] w1]; simpl in *.
  - apply Hb. exact H2.
  - split; [ reflexivity | split; assumption ].
Qed.

Lemma agree_promise_all (R : world) (ts1 ts2 : list (M unit)) :
  Forall2 (agree R) ts1 ts2 -> agree R (promise_all ts1) (promise_all ts2).
Proof.
  induction 1 as [ | t1 t2 ts1 ts2 Ht _ IH ]; intros w Hw; simpl.
  - split; [ reflexivity | split; [ exact Hw | discriminate ] ].
  - destruct (Ht w Hw) as [H1 [H2 H3]]. rewrite <- H1.
    destruct (t1 w) as [r w1]. simpl in *.
    destruct (IH w1 H2) as [H4 [H5 H6]]. rewrite <- H4.
    destruct (promise_all ts1 w1) as [r' w2]. simpl in *.
    split; [ reflexivity | split; [ exact H5 | ] ].
    destruct r as [ [] | e ]; assumption.
Qed.

Lemma agree_for_each {A} (R : world) (l : list A) (f1 f2 : A -> M unit) :
  (forall x, In x l -> agree R (f1 x) (f2 x)) ->
  agree R (for_each l f1) (for_each l f2).
Proof.
  induction l as [ | x l IH ]; intros H; simpl.
  - apply steady_agree, steady_ret.
  - apply agree_seq.
    + apply H. left. reflexivity.
    + apply IH. intros y Hy. apply H. right. exact Hy.
Qed.

Lemma same_registry_with_log (R w : world) (l : list event) :
  same_registry R w -> same_registry R (with_log l w).
Proof. intros H. exact H. Qed.

Lemma same_registry_with_db (R w : world) (d : gmap string (list value)) :
  same_registry R w -> same_registry R (with_db d w).
Proof. intros H. exact H. Qed.

Lemma steady_find (R : world) (m : string) (q : query) : steady R (find m q).
Proof.
  unfold find. apply steady_bind; [ apply steady_emit | ].
  intros _ w Hw. split; [ exact Hw | discriminate ].
Qed.

Lemma steady_findOne (R : world) (m : string) (q : query) : steady R (findOne m q).
Proof.
  unfold findOne. apply steady_bind; [ apply steady_emit | ].
  intros _ w Hw. split; [ exact Hw | discriminate ].
Qed.

Lemma steady_updateMany (R : world) (m : string) (q : query) (u : update)
      (af : option array_filter) : steady R (updateMany m q u af).
Proof.
  unfold updateMany. apply steady_bind; [ apply steady_emit | ].
  intros _ w Hw. split; [ exact Hw | discriminate ].
Qed.

Lemma mapR_no_fuel {A B} (f : A -> result B) (l : list A) :
  (forall x, f x <> Err OutOfFuel) -> mapR f l <> Err OutOfFuel.
Proof.
  intros Hf. induction l as [ | x l IH ]; simpl.
  - discriminate.
  - specialize (Hf x).
    destruct (f x) as [y | e]; simpl; [ | exact (err_not_fuel Hf) ].
    destruct (mapR f l) as [ys | e]; simpl; [ discriminate | exact IH ].
Qed.

Lemma ref_value_no_fuel (d : value) : ref_value d <> Err OutOfFuel.
Proof. unfold ref_value. destruct d; simpl; discriminate. Qed.

Lemma getReferencedValues_no_fuel (p : string) (d : value) :
  getReferencedValues p d <> Err OutOfFuel.
Proof.
  unfold getReferencedValues, ref_values.
  destruct (doc_get d p); try discriminate.
  apply mapR_no_fuel. apply ref_value_no_fuel.
Qed.

Lemma steady_block (R : world) (modelRef pathRef modelSubRef pathSubRef : string)
      (vals : list value) (bound : value) (ctx : delete_ctx) :
  steady R (onDeleteBlock modelRef pathRef modelSubRef pathSubRef vals bound ctx).
Proof.
  unfold onDeleteBlock.
  destruct (negb (ctx_softDelete ctx) || ctx_deleted ctx); [ | apply steady_ret ].
  apply steady_bind; [ apply steady_model | intros _ ].
  apply steady_bind; [ apply steady_findOne | intros doc ].
  destruct (truthy doc); [ | apply steady_ret ].
  intros w Hw. split; [ exact Hw | discriminate ].
Qed.

Lemma steady_setnull (R : world) (modelRef pathRef modelSubRef pathSubRef : string)
      (vals : list value) (bound : value) (ctx : delete_ctx) :
  steady R (onDeleteSetNull modelRef pathRef modelSubRef pathSubRef vals bound ctx).
Proof.
  unfold onDeleteSetNull.
  destruct (negb (ctx_softDelete ctx)); [ | apply steady_ret ].
  apply steady_bind; [ apply steady_model | intros sch ].
  apply steady_bind.
  - apply steady_lift. rewrite getUpdateQueryObjectFor_eq.
    destruct (schema_path sch pathRef); discriminate.
  - intros ua. apply steady_updateMany.
Qed.

(** Enforcement calls the document methods only on documents of the
    referencing model: two sets of methods that agree there make it do
    the same. *)
Lemma agree_conditions (R : world) (ops1 ops2 : doc_ops) (schemaType : refType)
      (modelRef pathRef modelSubRef pathSubRef : string)
      (vals : list value) (bound : value) (ctx : delete_ctx) :
  (forall doc, agree R (op_deleteOne ops1 modelRef doc) (op_deleteOne ops2 modelRef doc)) ->
  (forall doc flag, agree R (op_softDelete ops1 modelRef doc flag)
                          (op_softDelete ops2 modelRef doc flag)) ->
  agree R (onDeleteConditions ops1 schemaType modelRef pathRef modelSubRef pathSubRef
                              vals bound ctx)
          (onDeleteConditions ops2 schemaType modelRef pathRef modelSubRef pathSubRef
                              vals bound ctx).
Proof.
  intros Hd Hs. unfold onDeleteConditions.
  destruct (rt_required schemaType); [ | apply steady_agree, steady_setnull ].
  destruct (rt_cascade schemaType); [ | apply steady_agree, steady_block ].
  unfold onDeleteCascade.
  apply agree_bind; [ apply steady_model | intros _ ].
  apply agree_bind; [ apply steady_find | intros docs ].
  destruct (ctx_softDelete ctx); apply agree_promise_all;
    induction docs as [ | doc docs IH ]; simpl; constructor; auto.
Qed.

Lemma agree_onDelete (R : world) (ops1 ops2 : doc_ops) (m : string)
      (document : value) (ctx : delete_ctx) :
  (forall ds d, refs R !! m = Some ds -> In d ds ->
                (forall doc, agree R (op_deleteOne ops1 (d_modelName d) doc)
                                   (op_deleteOne ops2 (d_modelName d) doc))
                /\ (forall doc flag,
                       agree R (op_softDelete ops1 (d_modelName d) doc flag)
                               (op_softDelete ops2 (d_modelName d) doc flag))) ->
  agree R (onDelete ops1 m document ctx) (onDelete ops2 m document ctx).
Proof.
  intros H w Hw. unfold onDelete.
  destruct Hw as [Hrefs Hrest]. rewrite Hrefs.
  destruct (refs R !! m) as [ds | ] eqn:E.
  - apply agree_for_each; [ | split; assumption ].
    intros d Hin. destruct (H ds d eq_refl Hin) as [Hd Hs].
    unfold onDelete_step.
    destruct (rt_options (d_schemaType d)) as [o | ];
      [ | intros w' Hw';
          split; [ reflexivity | split; [ exact Hw' | discriminate ] ] ].
    destruct (subRef o) as [sr | ];
      [ | intros w' Hw';
          split; [ reflexivity | split; [ exact Hw' | discriminate ] ] ].
    apply agree_bind.
    + apply steady_lift. apply getReferencedValues_no_fuel.
    + intros vals. apply agree_conditions; assumption.
  - simpl. split; [ reflexivity | split; [ split; assumption | discriminate ] ].
Qed.

Lemma agree_when_plugged (R : world) (m : string) (c1 c2 : M unit) :
  agree R c1 c2 -> agree R (when_plugged m c1) (when_plugged m c2).
Proof.
  intros H w Hw. unfold when_plugged.
  destruct (is_plugged m w); [ apply H; exact Hw | ].
  split; [ reflexivity | split; [ exact Hw | discriminate ] ].
Qed.

Lemma steady_remove_doc (R : world) (m : string) (d : value) :
  steady R (remove_doc m d).
Proof. intros w Hw. split; [ exact Hw | discriminate ]. Qed.

Lemma steady_store_deleted (R : world) (m : string) (d : value) (flag : bool) :
  steady R (store_deleted m d flag).
Proof. intros w Hw. split; [ exact Hw | discriminate ]. Qed.

(** Over an acyclic registry, fuel above the rank of the model is
    enough: [deleteOne] and [softDelete] on a document of that model do
    not run out of fuel, and more fuel changes nothing to what they
    do. *)
Theorem fuel_above_rank_suffices (rank : string -> nat) (R : world) :
  acyclic rank R ->
  forall n m n',
    rank m < n -> n <= n' ->
    (forall d, agree R (op_deleteOne (ops_at n) m d) (op_deleteOne (ops_at n') m d))
    /\ (forall d flag, agree R (op_softDelete (ops_at n) m d flag)
                             (op_softDelete (ops_at n') m d flag)).
Proof.
  intros Hacyc. induction n as [ | k IH ]; intros m n' Hrank Hle; [ lia | ].
  destruct n' as [ | k' ]; [ lia | ].
  assert (Hk : k <= k') by lia.
  assert (Hsub : forall ctx document,
             agree R (onDelete (ops_at k) m document ctx)
                     (onDelete (ops_at k') m document ctx)).
  { intros ctx document. apply agree_onDelete.
    intros ds d Hds Hin. apply IH; [ | exact Hk ].
    specialize (Hacyc m ds d Hds Hin). lia. }
  split.
  - intros d. cbn [ops_at op_deleteOne].
    apply agree_seq; [ apply steady_agree, steady_emit | ].
    apply agree_seq; [ apply agree_when_plugged, Hsub | ].
    apply steady_agree, steady_remove_doc.
  - intros d flag. cbn [ops_at op_softDelete].
    apply agree_seq; [ apply steady_agree, steady_emit | ].
    destruct (flag && truthy (doc_get d "_deleted")).
    + apply agree_seq; [ apply steady_agree, steady_emit | ].
      apply agree_seq; [ apply agree_when_plugged, Hsub | ].
      apply steady_agree, steady_remove_doc.
    + apply agree_seq; [ apply agree_when_plugged, Hsub | ].
      apply steady_agree, steady_store_deleted.
Qed.

Lemma acyclicb_sound (rank : string -> nat) (w : world) :
  acyclicb rank w = true -> acyclic rank w.
Proof.
  intros H m ds d Hds Hin. unfold acyclicb in H.
  rewrite forallb_forall in H.
  assert (Hm : In (m, ds) (map_to_list (refs w))).
  { apply list_elem_of_In. apply elem_of_map_to_list. exact Hds. }
  specialize (H (m, ds) Hm). simpl in H.
  rewrite forallb_forall in H. specialize (H d Hin).
  apply Nat.ltb_lt. exact H.
Qed.

(** The chain of the example has ranks 2, 1 and 0: fuel 3 is enough to
    delete a person, and the outcome is the one of any larger fuel. *)
Example chain_needs_fuel_three :
  let rank := fun m => if String.eqb m "Person" then 2
                       else if String.eqb m "Message" then 1 else 0 in
  acyclic rank chain_world
  /\ forall n', 3 <= n' ->
       op_deleteOne (ops_at n') "Person" parent chain_world
       = op_deleteOne (ops_at 3) "Person" parent chain_world.
Proof.
  intros rank.
  assert (Hacyc : acyclic rank chain_world)
    by (apply acyclicb_sound; vm_compute; reflexivity).
  split; [ exact Hacyc | ].
  intros n' Hn.
  destruct (@fuel_above_rank_suffices rank chain_world Hacyc 3 "Person" n')
    as [Hd _]; [ vm_compute; lia | exact Hn | ].
  destruct (Hd parent chain_world) as [Heq _].
  - repeat split.
  - symmetry. exact Heq.
Qed.

(* ===================================================================== *)
(** * Further properties of the code *)
(* ===================================================================== *)

(** ** [subRef] strings *)

Lemma append_nil_l (b : string) : ("" ++ b)%string = b.
Proof. reflexivity. Qed.

Lemma append_cons_l (x : ascii) (a b : string) :
  (String x a ++ b)%string = String x (a ++ b).
Proof. reflexivity. Qed.

Lemma append_cons_assoc (a : string) (c : ascii) (b : string) :
  ((a ++ String c "") ++ b)%string = (a ++ String c b)%string.
Proof.
  induction a as [ | x a IH ].
  - reflexivity.
  - rewrite !append_cons_l, IH. reflexivity.
Qed.

Lemma append_empty_r (a : string) : (a ++ "")%string = a.
Proof.
  induction a as [ | x a IH ]; [ reflexivity | ].
  rewrite append_cons_l, IH. reflexivity.
Qed.

Lemma split_dot_aux_prefix (m p acc : string) :
  no_dot m = true ->
  split_dot_aux acc (m ++ String "."%char p)
  = (acc ++ m)%string :: split_dot_aux "" p.
Proof.
  revert acc. induction m as [ | c m IH ]; intros acc Hm.
  - rewrite append_nil_l, append_empty_r. reflexivity.
  - simpl in Hm. apply andb_true_iff in Hm. destruct Hm as [Hc Hm].
    apply negb_true_iff in Hc. rewrite append_cons_l. simpl. rewrite Hc.
    rewrite (IH _ Hm), append_cons_assoc. reflexivity.
Qed.

Lemma split_dot_aux_no_dot (m acc : string) :
  no_dot m = true -> split_dot_aux acc m = [(acc ++ m)%string].
Proof.
  revert acc. induction m as [ | c m IH ]; intros acc Hm; simpl.
  - rewrite append_empty_r. reflexivity.
  - simpl in Hm. apply andb_true_iff in Hm. destruct Hm as [Hc Hm].
    apply negb_true_iff in Hc. rewrite Hc.
    rewrite (IH _ Hm), append_cons_assoc. reflexivity.
Qed.

Lemma substr_past_prefix (m p : string) :
  substr (String.length m + 1) (m ++ String "."%char p) = p.
Proof.
  induction m as [ | c m IH ]; [ reflexivity | ].
  rewrite append_cons_l. simpl. exact IH.
Qed.

Lemma substr_past_end (m : string) : substr (String.length m + 1) m = "".
Proof.
  induction m as [ | c m IH ]; simpl; [ reflexivity | exact IH ].
Qed.

(** X1. A [subRef] written as a model name without dot, a dot and a
    path is taken apart into exactly that name and that path, by
    [setValidator] (through [getRootRef]) and by [onDelete] (through the
    length of the model name) alike; a [subRef] without any dot is taken
    as a model name with the empty path. *)
Theorem subRef_splits_into_model_and_path (m p : string) :
  no_dot m = true ->
  getRootRef (m ++ "." ++ p) = m
  /\ substr (String.length (getRootRef (m ++ "." ++ p)) + 1) (m ++ "." ++ p) = p
  /\ substr (String.length m + 1) (m ++ "." ++ p) = p
  /\ getRootRef m = m
  /\ substr (String.length (getRootRef m) + 1) m = "".
Proof.
  intros Hm.
  assert (H1 : getRootRef (m ++ "." ++ p) = m).
  { unfold getRootRef, split_dot.
    change (m ++ "." ++ p)%string with (m ++ String "."%char p)%string.
    rewrite (split_dot_aux_prefix m p "" Hm). reflexivity. }
  assert (H2 : getRootRef m = m).
  { unfold getRootRef, split_dot. rewrite (split_dot_aux_no_dot m "" Hm).
    reflexivity. }
  split; [ exact H1 | ].
  split; [ rewrite H1; apply (substr_past_prefix m p) | ].
  split; [ apply (substr_past_prefix m p) | ].
  split; [ exact H2 | ].
  rewrite H2. apply substr_past_end.
Qed.

Lemma subRef_splits_witness :
  no_dot "Person_3" = true
  /\ getRootRef "Person_3.info.contacts" = "Person_3"
  /\ substr (String.length "Person_3" + 1) "Person_3.info.contacts" = "info.contacts".
Proof.
  split; [ reflexivity | ].
  destruct (@subRef_splits_into_model_and_path "Person_3" "info.contacts" eq_refl)
    as [H1 [_ [H3 _]]].
  split; [ exact H1 | exact H3 ].
Defined.

(** ** The update path of [getUpdateQueryObjectFor] *)

Lemma append_assoc (a b c : string) :
  ((a ++ b) ++ c)%string = (a ++ (b ++ c))%string.
Proof.
  induction a as [ | x a IH ]; [ reflexivity | ].
  rewrite !append_cons_l, IH. reflexivity.
Qed.

Lemma join_split_aux (s acc : string) :
  join_dot (split_dot_aux acc s) = (acc ++ s)%string.
Proof.
  revert acc. induction s as [ | c s IH ]; intros acc; simpl.
  - symmetry. apply append_empty_r.
  - destruct (Ascii.eqb c ".") eqn:E.
    + apply Ascii.eqb_eq in E. subst c.
      specialize (IH ""). rewrite append_nil_l in IH.
      destruct (split_dot_aux "" s) as [ | y l ] eqn:El.
      * exfalso. exact (split_dot_aux_nonempty _ _ El).
      * change (join_dot (acc :: y :: l))
          with (acc ++ "." ++ join_dot (y :: l))%string.
        rewrite IH. reflexivity.
    + rewrite IH. apply append_cons_assoc.
Qed.

(** [path.split('.').join('.')] is the path. *)
Lemma join_split (s : string) : join_dot (split_dot s) = s.
Proof. unfold split_dot. rewrite join_split_aux. reflexivity. Qed.

Lemma no_dot_app_char (acc : string) (c : ascii) :
  no_dot acc = true -> Ascii.eqb c "." = false ->
  no_dot (acc ++ String c "") = true.
Proof.
  intros Ha Hc. induction acc as [ | x acc IH ].
  - simpl. rewrite Hc. reflexivity.
  - rewrite append_cons_l. simpl in *.
    apply andb_true_iff in Ha. destruct Ha as [Hx Ha].
    rewrite Hx, (IH Ha). reflexivity.
Qed.

Lemma split_dot_aux_segments (s acc : string) :
  no_dot acc = true -> forallb no_dot (split_dot_aux acc s) = true.
Proof.
  revert acc. induction s as [ | c s IH ]; intros acc Ha; simpl.
  - rewrite Ha. reflexivity.
  - destruct (Ascii.eqb c ".") eqn:E; simpl.
    + rewrite Ha. apply IH. reflexivity.
    + apply IH. apply no_dot_app_char; assumption.
Qed.

(** No segment of [path.split('.')] holds a dot. *)
Lemma split_dot_segments (s : string) : forallb no_dot (split_dot s) = true.
Proof. apply split_dot_aux_segments. reflexivity. Qed.

Lemma split_dotted (l : list string) (s : string) :
  forallb no_dot l = true ->
  split_dot (dotted l ++ s) = l ++ split_dot s.
Proof.
  induction l as [ | x l IH ]; intros Hl.
  - reflexivity.
  - simpl in Hl. apply andb_true_iff in Hl. destruct Hl as [Hx Hl].
    change (dotted (x :: l)) with (x ++ "." ++ dotted l)%string.
    rewrite !append_assoc.
    change ("." ++ dotted l ++ s)%string with (String "."%char (dotted l ++ s)).
    unfold split_dot at 1.
    rewrite (split_dot_aux_prefix x (dotted l ++ s) "" Hx).
    fold (split_dot (dotted l ++ s)). rewrite (IH Hl). reflexivity.
Qed.

(** The second loop of [getUpdateQueryObjectFor], segment by segment. *)
Lemma build_updatePath_gen (pre : list string) :
  forall (info : list bool) (done : list string) (dinfo : list bool)
         (final acc : string) (L : option nat),
    List.length pre = List.length info ->
    List.length done = List.length dinfo ->
    fold_left (fun (acc : string) (i : nat) =>
                 (acc ++ nth i (done ++ pre ++ [final]) "" ++ "." ++
                      (if nth i (dinfo ++ info) false
                       then (if opt_nat_is L i then "$[j]." else "$[].")
                       else ""))%string)
              (seq (List.length done) (List.length info)) acc
    = (acc ++ dotted (path_tokens (List.length done) pre info L))%string.
Proof.
  induction pre as [ | s pre IH ]; intros info done dinfo final acc L Hlen Hd.
  - destruct info; [ | discriminate ]. simpl. rewrite append_empty_r. reflexivity.
  - destruct info as [ | b info ]; [ discriminate | ].
    simpl in Hlen. injection Hlen as Hlen.
    cbn [List.length seq fold_left].
    assert (Hs : nth (List.length done) (done ++ (s :: pre) ++ [final]) "" = s).
    { rewrite app_nth2 by lia. rewrite Nat.sub_diag. reflexivity. }
    assert (Hb : nth (List.length done) (dinfo ++ b :: info) false = b).
    { rewrite Hd. rewrite app_nth2 by lia. rewrite Nat.sub_diag. reflexivity. }
    rewrite Hs, Hb.
    replace (done ++ (s :: pre) ++ [final]) with ((done ++ [s]) ++ pre ++ [final])
      by (rewrite <- app_assoc; reflexivity).
    replace (dinfo ++ b :: info) with ((dinfo ++ [b]) ++ info)
      by (rewrite <- app_assoc; reflexivity).
    replace (S (List.length done)) with (List.length (done ++ [s]))
      by (rewrite length_app; simpl; lia).
    rewrite (IH info (done ++ [s]) (dinfo ++ [b]) final _ L Hlen)
      by (rewrite !length_app; simpl; lia).
    replace (List.length (done ++ [s])) with (S (List.length done))
      by (rewrite length_app; simpl; lia).
    cbn [path_tokens].
    destruct b; [ destruct (opt_nat_is L (List.length done)) | ];
      cbn [app dotted]; rewrite !append_assoc; reflexivity.
Qed.

(** The second loop, for the condition path of the array filter: the
    segments after the last document array. *)
Lemma build_condPath_gen (pre : list string) :
  forall (done : list string) (final acc : string) (j : nat),
    fold_left (fun (acc : string) (i : nat) =>
                 if after_last (Some j) i
                 then (acc ++ nth i (done ++ pre ++ [final]) "" ++ ".")%string
                 else acc)
              (seq (List.length done) (List.length pre)) acc
    = (acc ++ dotted (skipn (S j - List.length done) pre))%string.
Proof.
  induction pre as [ | s pre IH ]; intros done final acc j.
  - simpl. rewrite skipn_nil. simpl. rewrite append_empty_r. reflexivity.
  - cbn [List.length seq fold_left].
    assert (Hs : nth (List.length done) (done ++ (s :: pre) ++ [final]) "" = s).
    { rewrite app_nth2 by lia. rewrite Nat.sub_diag. reflexivity. }
    rewrite Hs.
    replace (done ++ (s :: pre) ++ [final]) with ((done ++ [s]) ++ pre ++ [final])
      by (rewrite <- app_assoc; reflexivity).
    replace (S (List.length done)) with (List.length (done ++ [s]))
      by (rewrite length_app; simpl; lia).
    rewrite (IH (done ++ [s]) final _ j).
    replace (List.length (done ++ [s])) with (S (List.length done))
      by (rewrite length_app; simpl; lia).
    unfold after_last.
    destruct (Nat.ltb j (List.length done)) eqn:E.
    + apply Nat.ltb_lt in E.
      replace (S j - List.length done) with 0 by lia.
      replace (S j - S (List.length done)) with 0 by lia.
      cbn [skipn dotted]. rewrite !append_assoc. reflexivity.
    + apply Nat.ltb_ge in E.
      replace (S j - List.length done) with (S (j - List.length done)) by lia.
      replace (S j - S (List.length done)) with (j - List.length done) by lia.
      reflexivity.
Qed.

Lemma all_false_nth (info : list bool) (i : nat) :
  forallb negb info = true -> nth i info false = false.
Proof.
  revert i. induction info as [ | b info IH ]; intros i H.
  - destruct i; reflexivity.
  - simpl in H. apply andb_true_iff in H. destruct H as [Hb H].
    destruct i; simpl.
    + destruct b; [ discriminate | reflexivity ].
    + apply IH. exact H.
Qed.

(** The first loop leaves in [lastDocumentArray] the index of the last
    document array on the way, or [null] when there is none. *)
Lemma last_doc_array_gen (info : list bool) :
  forall (a : nat) (acc : option nat),
    let r := fold_left (fun (acc : option nat) (ib : nat * bool) =>
                          if snd ib then Some (fst ib) else acc)
                       (combine (seq a (List.length info)) info) acc in
    (r = acc /\ forallb negb info = true)
    \/ (exists k, r = Some (a + k) /\ nth k info false = true
                  /\ forall i, k < i -> nth i info false = false).
Proof.
  induction info as [ | b info IH ]; intros a acc; cbn zeta.
  - left. split; reflexivity.
  - cbn [List.length seq combine fold_left fst snd].
    destruct (IH (S a) (if b then Some a else acc)) as [[Hr Hall] | [k [Hr [Hk Hafter]]]].
    + destruct b.
      * right. exists 0. rewrite Nat.add_0_r. split; [ exact Hr | ].
        split; [ reflexivity | ].
        intros i Hi. destruct i; [ lia | ]. simpl. apply all_false_nth. exact Hall.
      * left. split; [ exact Hr | ]. simpl. exact Hall.
    + right. exists (S k). split; [ rewrite Hr; f_equal; lia | ].
      split; [ exact Hk | ].
      intros i Hi. destruct i; [ lia | ]. simpl. apply Hafter. lia.
Qed.

Lemma last_doc_array_spec (info : list bool) :
  (last_doc_array info = None /\ forallb negb info = true)
  \/ (exists j, last_doc_array info = Some j /\ nth j info false = true
                /\ forall i, j < i -> nth i info false = false).
Proof. exact (last_doc_array_gen info 0 None). Qed.

Lemma path_tokens_plain (pre : list string) :
  forall (info : list bool) (i : nat) (L : option nat),
    List.length pre = List.length info -> forallb negb info = true ->
    path_tokens i pre info L = pre.
Proof.
  induction pre as [ | s pre IH ]; intros info i L Hlen Hall.
  - reflexivity.
  - destruct info as [ | b info ]; [ discriminate | ].
    simpl in Hlen, Hall. injection Hlen as Hlen.
    apply andb_true_iff in Hall. destruct Hall as [Hb Hall].
    destruct b; [ discriminate | ].
    cbn [path_tokens app]. rewrite (IH info (S i) L Hlen Hall). reflexivity.
Qed.

Lemma join_dot_snoc (pre : list string) (x : string) :
  join_dot (pre ++ [x]) = (dotted pre ++ x)%string.
Proof.
  induction pre as [ | s pre IH ].
  - reflexivity.
  - change ((s :: pre) ++ [x]) with (s :: (pre ++ [x])).
    destruct (pre ++ [x]) as [ | y l ] eqn:E.
    + destruct pre; discriminate.
    + change (join_dot (s :: y :: l)) with (s ++ "." ++ join_dot (y :: l))%string.
      rewrite IH. cbn [dotted]. rewrite !append_assoc. reflexivity.
Qed.

Lemma forallb_no_dot_app (l1 l2 : list string) :
  forallb no_dot (l1 ++ l2) = true ->
  forallb no_dot l1 = true /\ forallb no_dot l2 = true.
Proof. rewrite forallb_app. apply andb_true_iff. Qed.

Lemma path_tokens_no_dot (pre : list string) :
  forall (info : list bool) (i : nat) (L : option nat),
    forallb no_dot pre = true -> forallb no_dot (path_tokens i pre info L) = true.
Proof.
  induction pre as [ | s pre IH ]; intros info i L H.
  - reflexivity.
  - destruct info as [ | b info ]; [ reflexivity | ].
    simpl in H. apply andb_true_iff in H. destruct H as [Hs H].
    cbn [path_tokens]. simpl. rewrite Hs. simpl.
    destruct b; [ destruct (opt_nat_is L i) | ]; simpl; apply IH; exact H.
Qed.

(** The path split at its last segment. *)
Lemma split_dot_snoc (pathRef : string) :
  exists pre final,
    split_dot pathRef = pre ++ [final]
    /\ List.removelast (split_dot pathRef) = pre
    /\ List.last (split_dot pathRef) "" = final
    /\ nth (List.length (split_dot pathRef) - 1) (split_dot pathRef) "" = final.
Proof.
  destruct (split_dot pathRef) as [ | x l ] eqn:E.
  - exfalso. exact (split_dot_aux_nonempty _ _ E).
  - destruct (@exists_last _ (x :: l)) as [pre [final Hp]]; [ discriminate | ].
    exists pre, final. rewrite Hp.
    split; [ reflexivity | ].
    split; [ apply removelast_last | ].
    split; [ apply last_last | ].
    rewrite length_app. simpl.
    replace (List.length pre + 1 - 1) with (List.length pre) by lia.
    rewrite app_nth2 by lia. rewrite Nat.sub_diag. reflexivity.
Qed.

Lemma build_info_length (sch : schema) (path : list string) :
  List.length (build_info sch path) = List.length path - 1.
Proof. unfold build_info. rewrite length_map, length_seq. reflexivity. Qed.

(** What [getUpdateQueryObjectFor] returns, token by token. *)
Lemma update_query_shape
        (sch : schema) (pathRef : string) (vals : list value)
        (u : update) (f : option array_filter) :
  getUpdateQueryObjectFor sch pathRef vals = Ok (u, f) ->
  let path := split_dot pathRef in
  let info := build_info sch path in
  split_dot (update_path u)
  = path_tokens 0 (List.removelast path) info (last_doc_array info) ++ [List.last path ""]
  /\ (f = None <-> forallb negb info = true)
  /\ (forallb negb info = true -> update_path u = pathRef)
  /\ (forall af, f = Some af ->
        exists j, last_doc_array info = Some j
                  /\ nth j info false = true
                  /\ (forall i, j < i -> nth i info false = false)
                  /\ split_dot (af_key af) = "j" :: skipn (S j) path
                  /\ af_vals af = vals).
Proof.
  intros Hq path info.
  rewrite getUpdateQueryObjectFor_eq in Hq.
  destruct (schema_path sch pathRef) as [st | ]; [ | discriminate ].
  injection Hq as Hu Hf.
  assert (Hup : update_path u = update_target sch pathRef).
  { subst u. unfold terminal_update.
    destruct (String.eqb (st_ctor st) "SchemaArray"); reflexivity. }
  destruct (split_dot_snoc pathRef) as [pre [final [Hp [Hpre [Hlast Hnth]]]]].
  fold path in Hp, Hpre, Hlast, Hnth.
  assert (Hlen : List.length pre = List.length info).
  { unfold info. rewrite build_info_length. fold path. rewrite Hp, length_app.
    simpl. lia. }
  assert (Hsegs : forallb no_dot pre = true /\ forallb no_dot [final] = true).
  { apply forallb_no_dot_app. rewrite <- Hp. apply split_dot_segments. }
  destruct Hsegs as [Hnpre Hnfinal].
  assert (Hfinal : split_dot final = [final]).
  { simpl in Hnfinal. apply andb_true_iff in Hnfinal.
    unfold split_dot. rewrite (@split_dot_aux_no_dot final "") by apply Hnfinal.
    rewrite append_nil_l. reflexivity. }
  assert (Htarget : update_target sch pathRef
                    = (dotted (path_tokens 0 pre info (last_doc_array info)) ++ final)%string).
  { unfold update_target. fold path. fold info. rewrite Hnth.
    unfold build_updatePath. rewrite Hp.
    pose proof (@build_updatePath_gen pre info [] [] final ""
                                      (last_doc_array info) Hlen eq_refl) as G.
    simpl in G. simpl. rewrite G. reflexivity. }
  split.
  { rewrite Hup, Htarget, Hpre, Hlast.
    rewrite split_dotted by (apply path_tokens_no_dot; exact Hnpre).
    rewrite Hfinal. reflexivity. }
  assert (Hplain : forallb negb info = true -> last_doc_array info = None).
  { intros Hall. destruct (last_doc_array_spec info) as [[H _] | [j [_ [Hj _]]]].
    - exact H.
    - rewrite (all_false_nth info j Hall) in Hj. discriminate. }
  split.
  { subst f. unfold update_filter. fold path. fold info. split.
    - intros Hnone.
      destruct (last_doc_array_spec info) as [[_ H] | [j [Hj _]]]; [ exact H | ].
      rewrite Hj in Hnone. discriminate.
    - intros Hall. rewrite (Hplain Hall). reflexivity. }
  split.
  { intros Hall. rewrite Hup, Htarget.
    rewrite (path_tokens_plain pre info 0 (last_doc_array info) Hlen Hall).
    rewrite <- join_dot_snoc, <- Hp. apply join_split. }
  intros af Haf. subst f. unfold update_filter in Haf. fold path in Haf.
  fold info in Haf.
  destruct (last_doc_array_spec info) as [[Hnone _] | [j [Hj [Htrue Hafter]]]].
  { rewrite Hnone in Haf. discriminate. }
  exists j. rewrite Hj in Haf. injection Haf as Haf. subst af. cbn [af_key af_vals].
  split; [ exact Hj | ]. split; [ exact Htrue | ]. split; [ exact Hafter | ].
  split; [ | reflexivity ].
  rewrite Hnth. unfold build_condPath. rewrite <- Hlen. rewrite Hp.
  pose proof (@build_condPath_gen pre [] final "" j) as G.
  cbn [app List.length] in G. rewrite G. rewrite Nat.sub_0_r.
  rewrite append_nil_l.
  assert (Hj_lt : j < List.length pre).
  { rewrite Hlen. destruct (Nat.lt_ge_cases j (List.length info)) as [H | H]; [ exact H | ].
    rewrite nth_overflow in Htrue by exact H. discriminate. }
  change ("j." ++ dotted (skipn (S j) pre) ++ final)%string
    with (dotted ("j" :: skipn (S j) pre) ++ final)%string.
  rewrite split_dotted.
  - rewrite Hfinal. rewrite skipn_app.
    replace (S j - List.length pre) with 0 by lia. reflexivity.
  - simpl. rewrite <- (firstn_skipn (S j) pre) in Hnpre.
    apply forallb_no_dot_app in Hnpre. apply Hnpre.
Qed.

(** X2. The update path that [getUpdateQueryObjectFor] builds is the
    path of the reference with a positional operator after every segment
    that is a document array: [$[j]] after the last one, [$[]] after the
    earlier ones.  No array filter is returned exactly when the path
    crosses no document array, and then the update path is the path of
    the reference itself.  The array filter, when there is one, is keyed
    by [j] followed by the segments after the last document array and
    asks for the removed values. *)
Theorem update_path_marks_document_arrays
        (sch : schema) (pathRef : string) (vals : list value)
        (u : update) (f : option array_filter) :
  getUpdateQueryObjectFor sch pathRef vals = Ok (u, f) ->
  let path := split_dot pathRef in
  let info := build_info sch path in
  split_dot (update_path u)
  = path_tokens 0 (List.removelast path) info (last_doc_array info) ++ [List.last path ""]
  /\ (f = None <-> forallb negb info = true)
  /\ (forallb negb info = true -> update_path u = pathRef)
  /\ (forall af, f = Some af ->
        exists j, last_doc_array info = Some j
                  /\ nth j info false = true
                  /\ (forall i, j < i -> nth i info false = false)
                  /\ split_dot (af_key af) = "j" :: skipn (S j) path
                  /\ af_vals af = vals).
Proof. exact (@update_query_shape sch pathRef vals u f). Qed.

(** A reference below two document arrays: [$[]] after the first,
    [$[j]] after the second, and the filter on the last segment. *)
Lemma update_path_marks_witness :
  getUpdateQueryObjectFor TeamSchema "groups.members.contact" [VOid 10]
  = Ok (SetNull "groups.$[].members.$[j].contact",
        Some {| af_key := "j.contact"; af_vals := [VOid 10] |})
  /\ split_dot "groups.$[].members.$[j].contact"
     = ["groups"; "$[]"; "members"; "$[j]"; "contact"]
  /\ split_dot "j.contact" = ["j"; "contact"].
Proof.
  split; [ reflexivity | ].
  destruct (@update_path_marks_document_arrays
              TeamSchema "groups.members.contact" [VOid 10]
              (SetNull "groups.$[].members.$[j].contact")
              (Some {| af_key := "j.contact"; af_vals := [VOid 10] |})
              eq_refl)
    as [H1 [_ [_ H4]]].
  split; [ exact H1 | ].
  destruct (H4 _ eq_refl) as [j [Hj [_ [_ [Hk _]]]]].
  injection Hj as <-. exact Hk.
Defined.

(** ** The values a removal takes away *)

Lemma ref_value_closed (d : value) :
  ref_value d = if nullish d then Err (TypeError "Cannot read property _id")
                else Ok (if is_subdocument d then doc_id d else d).
Proof. destruct d; reflexivity. Qed.

Lemma mapR_ref_value (l : list value) :
  mapR ref_value l
  = if existsb nullish l then Err (TypeError "Cannot read property _id")
    else Ok (List.map (fun d => if is_subdocument d then doc_id d else d) l).
Proof.
  induction l as [ | d l IH ]; [ reflexivity | ].
  cbn [mapR existsb List.map]. rewrite ref_value_closed, IH.
  destruct (nullish d); [ reflexivity | ].
  destruct (existsb nullish l); reflexivity.
Qed.

(** X3. The referenced values of a document are read from the array at
    the target path: the [_id] of every subdocument that has one, and the
    element itself otherwise, in the order of the array.  The read fails
    with a [TypeError] when the path holds no array, or an array with a
    [null] or [undefined] element; it never fails otherwise. *)
Theorem referenced_values_are_ids_or_elements (pathSubRef : string) (document : value) :
  (forall l, doc_get document pathSubRef = VArr l ->
             existsb nullish l = false ->
             getReferencedValues pathSubRef document
             = Ok (List.map (fun d => if is_subdocument d then doc_id d else d) l))
  /\ (forall vs, getReferencedValues pathSubRef document = Ok vs ->
                 exists l, doc_get document pathSubRef = VArr l
                           /\ existsb nullish l = false
                           /\ List.length vs = List.length l)
  /\ (forall e, getReferencedValues pathSubRef document = Err e ->
                exists s, e = TypeError s).
Proof.
  unfold getReferencedValues, ref_values.
  split; [ | split ].
  - intros l Hl Hn. rewrite Hl, mapR_ref_value, Hn. reflexivity.
  - intros vs H.
    destruct (doc_get document pathSubRef); try discriminate.
    rewrite mapR_ref_value in H.
    destruct (existsb nullish l) eqn:E; [ discriminate | ].
    injection H as <-. eexists. split; [ reflexivity | ].
    split; [ exact E | apply length_map ].
  - intros e H.
    destruct (doc_get document pathSubRef);
      try (injection H as <-; eexists; reflexivity).
    rewrite mapR_ref_value in H.
    destruct (existsb nullish l); [ | discriminate ].
    injection H as <-. eexists; reflexivity.
Qed.

(** The contacts of the test person are subdocuments: their ids. *)
Lemma referenced_values_witness :
  doc_get parent "contacts" = VArr [contact0; contact1]
  /\ existsb nullish [contact0; contact1] = false
  /\ getReferencedValues "contacts" parent = Ok [doc_id contact0; doc_id contact1].
Proof.
  split; [ reflexivity | ]. split; [ reflexivity | ].
  destruct (@referenced_values_are_ids_or_elements "contacts" parent) as [H _].
  exact (H [contact0; contact1] eq_refl eq_refl).
Defined.

(** ** A removal that takes nothing away *)

Lemma matches_no_values (pathRef : string) (d : value) :
  matches (QIn pathRef []) d = false.
Proof.
  simpl. induction (candidates d (split_dot pathRef)) as [ | c l IH ];
    [ reflexivity | exact IH ].
Qed.


Lemma filter_none {A} (f : A -> bool) (l : list A) :
  (forall x, f x = false) -> List.filter f l = [].
Proof.
  intros H. induction l as [ | x l IH ]; simpl; [ reflexivity | ].
  rewrite H. exact IH.
Qed.

Lemma map_unmatched (f : value -> bool) (g : value -> value) (l : list value) :
  (forall x, In x l -> f x = false) ->
  List.map (fun d => if f d then g d else d) l = l.
Proof.
  intros H. induction l as [ | x l IH ]; simpl; [ reflexivity | ].
  rewrite (H x) by (left; reflexivity).
  rewrite IH; [ reflexivity | ]. intros y Hy. apply H. right. exact Hy.
Qed.

Lemma alter_unmatched (f : value -> bool) (g : value -> value) (m : string)
      (store : gmap string (list value)) :
  (forall l x, store !! m = Some l -> In x l -> f x = false) ->
  alter (List.map (fun d => if f d then g d else d)) m store = store.
Proof.
  intros H. apply map_eq. intros k.
  destruct (decide (k = m)) as [-> | Hne].
  - rewrite lookup_alter_eq.
    destruct (store !! m) as [l | ] eqn:E; simpl; [ | reflexivity ].
    f_equal. apply map_unmatched. intros x Hx. exact (H l x eq_refl Hx).
  - rewrite lookup_alter_ne by congruence. reflexivity.
Qed.

Lemma with_db_same (w : world) : with_db (db w) w = w.
Proof. destruct w. reflexivity. Qed.

(** X4. A removal that takes no value away, from a document that names no
    bound document, is enforced on nobody: under every policy and in
    every delete context the enforcement succeeds, asks the store at most
    one question and leaves every collection, the registry and the models
    as they are; no document is re-deleted, whatever [deleteOne] and
    [softDelete] would do. *)
Theorem nothing_removed_nothing_enforced
        (ops : doc_ops) (rt : refType)
        (modelRef pathRef modelSubRef pathSubRef : string)
        (bound : value) (ctx : delete_ctx) (sch : schema) (st : schemaType)
        (w : world) :
  truthy bound = false ->
  models w !! modelRef = Some sch ->
  schema_path sch pathRef = Some st ->
  exists evs,
    onDeleteConditions ops rt modelRef pathRef modelSubRef pathSubRef
                       [] bound ctx w
    = (Ok tt, with_log (log w ++ evs) w)
    /\ (List.length evs <= 1)%nat
    /\ forallb (fun e => match e with
                         | EDeleteOne _ _ | ESoftDelete _ _ _ => false
                         | _ => true
                         end) evs = true.
Proof.
  intros Hb Hm Hp.
  unfold onDeleteConditions.
  destruct (rt_required rt); [ destruct (rt_cascade rt) | ].
  - (* cascade *)
    unfold onDeleteCascade, getFindQueryObjectFor. rewrite Hb.
    unfold bind, model, find, bind, emit. rewrite Hm. cbn [fst snd].
    rewrite (filter_none (matches (QIn pathRef []))) by (intros x; apply matches_no_values).
    exists [EFind modelRef (QIn pathRef [])].
    destruct (ctx_softDelete ctx); simpl; (split; [ reflexivity | split; [ lia | reflexivity ] ]).
  - (* block *)
    rewrite (@onDeleteBlock_run modelRef pathRef modelSubRef pathSubRef [] bound ctx sch w Hm).
    destruct (is_restore ctx).
    + exists []. rewrite with_log_same.
      split; [ reflexivity | split; [ simpl; lia | reflexivity ] ].
    + cbv zeta. unfold getFindQueryObjectFor. rewrite Hb.
      rewrite (filter_none (matches (QIn pathRef []))) by (intros x; apply matches_no_values).
      exists [EFindOne modelRef (QIn pathRef [])].
      split; [ reflexivity | split; [ simpl; lia | reflexivity ] ].
  - (* set null *)
    unfold onDeleteSetNull.
    destruct (ctx_softDelete ctx); simpl.
    + exists []. rewrite with_log_same.
      split; [ reflexivity | split; [ simpl; lia | reflexivity ] ].
    + unfold bind, model, lift. rewrite Hm.
      rewrite getUpdateQueryObjectFor_eq, Hp.
      unfold updateMany, bind, emit, getFindQueryObjectFor. rewrite Hb. cbn [fst snd].
      exists [EUpdateMany modelRef (QIn pathRef [])
                          (terminal_update st (update_target sch pathRef) [])
                          (update_filter sch pathRef [])].
      split; [ | split; [ simpl; lia | reflexivity ] ].
      f_equal.
      change (db (with_log _ w)) with (db w).
      rewrite alter_unmatched by (intros l x _ _; apply matches_no_values).
      set (w1 := with_log _ w). change (db w) with (db w1). apply with_db_same.
Qed.

(** The test world, no value removed: the cascade finds nobody. *)
Lemma nothing_removed_witness :
  let w := test_world true true in
  exists evs,
    onDeleteConditions (ops_at 0) (contact_type true true)
                       "Message" "contact" "Person" "contacts" [] VNull no_ctx w
    = (Ok tt, with_log (log w ++ evs) w)
    /\ (List.length evs <= 1)%nat
    /\ forallb (fun e => match e with
                         | EDeleteOne _ _ | ESoftDelete _ _ _ => false
                         | _ => true
                         end) evs = true.
Proof.
  intros w.
  assert (Hm : models w !! "Message" = Some (MessageSchema true true))
    by (vm_compute; reflexivity).
  exact (@nothing_removed_nothing_enforced
           (ops_at 0) (contact_type true true) "Message" "contact" "Person"
           "contacts" VNull no_ctx (MessageSchema true true)
           (ref_field "Person.contacts" None true true) w eq_refl Hm eq_refl).
Defined.

(** ** What a computation does to the world, step by step *)

Section StepInvariant.

Variable R : world -> world -> Prop.
Hypothesis R_refl : forall w, R w w.
Hypothesis R_trans : forall w1 w2 w3, R w1 w2 -> R w2 w3 -> R w1 w3.

Lemma bind_keeps {A B} (m : M A) (k : A -> M B) :
  (forall w, R w (snd (m w))) ->
  (forall a w, R w (snd (k a w))) ->
  forall w, R w (snd (bind m k w)).
Proof.
  intros Hm Hk w. unfold bind. specialize (Hm w).
  destruct (m w) as [[a | e] w1]; simpl in *.
  - exact (R_trans Hm (Hk a w1)).
  - exact Hm.
Qed.

Lemma for_each_keeps {A} (l : list A) (f : A -> M unit) :
  (forall x, In x l -> forall w, R w (snd (f x w))) ->
  forall w, R w (snd (for_each l f w)).
Proof.
  induction l as [ | x l IH ]; intros H w.
  - apply R_refl.
  - cbn [for_each]. apply bind_keeps.
    + apply H. left. reflexivity.
    + intros _. apply IH. intros y Hy. apply H. right. exact Hy.
Qed.

Lemma promise_all_keeps (tasks : list (M unit)) :
  (forall t, In t tasks -> forall w, R w (snd (t w))) ->
  forall w, R w (snd (promise_all tasks w)).
Proof.
  induction tasks as [ | t rest IH ]; intros H w.
  - apply R_refl.
  - cbn [promise_all].
    pose proof (H t (or_introl eq_refl) w) as Ht.
    destruct (t w) as [r w1]. simpl in Ht.
    assert (Hrest : R w1 (snd (promise_all rest w1)))
      by (apply IH; intros t' Ht'; apply H; right; exact Ht').
    destruct (promise_all rest w1) as [r' w2]. simpl in *.
    exact (R_trans Ht Hrest).
Qed.

Lemma lift_keeps {A} (r : result A) : forall w, R w (snd (lift r w)).
Proof. intros w. apply R_refl. Qed.

Lemma throw_keeps {A} (e : error) : forall w, R w (snd (@throw A e w)).
Proof. intros w. apply R_refl. Qed.

Lemma model_keeps (name : string) : forall w, R w (snd (model name w)).
Proof. intros w. unfold model. destruct (models w !! name); apply R_refl. Qed.

Lemma when_plugged_keeps (m : string) (hook : M unit) :
  (forall w, R w (snd (hook w))) -> forall w, R w (snd (when_plugged m hook w)).
Proof.
  intros H w. unfold when_plugged. destruct (is_plugged m w); [ apply H | apply R_refl ].
Qed.

(** The loop of [onDelete], when every enforcement keeps [R]. *)
Lemma onDelete_keeps (ops : doc_ops) (modelName : string) (document : value)
      (ctx : delete_ctx) (w : world) :
  (forall ds d vals pathSubRef bound,
      refs w !! modelName = Some ds -> In d ds ->
      forall w1, R w1 (snd (onDeleteConditions ops (d_schemaType d) (d_modelName d)
                                               (d_path d) modelName pathSubRef
                                               vals bound ctx w1))) ->
  R w (snd (onDelete ops modelName document ctx w)).
Proof.
  intros H. unfold onDelete.
  destruct (refs w !! modelName) as [ds | ] eqn:E; [ | apply R_refl ].
  apply for_each_keeps. intros d Hd w1. unfold onDelete_step.
  destruct (rt_options (d_schemaType d)) as [o | ]; [ | apply R_refl ].
  destruct (subRef o) as [sr | ]; [ | apply R_refl ].
  apply bind_keeps; [ apply lift_keeps | ].
  intros vals w2. exact (H ds d vals _ _ eq_refl Hd w2).
Qed.

End StepInvariant.

(** ** References that block *)

Lemma read_only_refl (w : world) : read_only_step w w.
Proof. exists []. split; [ symmetry; apply with_log_same | reflexivity ]. Qed.

Lemma read_only_trans (w1 w2 w3 : world) :
  read_only_step w1 w2 -> read_only_step w2 w3 -> read_only_step w1 w3.
Proof.
  intros [e1 [H1 F1]] [e2 [H2 F2]]. exists (e1 ++ e2). split.
  - subst w3 w2. destruct w1. unfold with_log. simpl. rewrite app_assoc. reflexivity.
  - rewrite forallb_app, F1, F2. reflexivity.
Qed.

Lemma read_only_db (w w' : world) : read_only_step w w' -> db w' = db w.
Proof. intros [evs [-> _]]. reflexivity. Qed.

Lemma blocks_only_In (ds : list descriptor) (d : descriptor) :
  blocks_only ds = true -> In d ds ->
  rt_required (d_schemaType d) = true /\ rt_cascade (d_schemaType d) = false.
Proof.
  unfold blocks_only. rewrite forallb_forall. intros H Hd.
  specialize (H d Hd). apply andb_true_iff in H. destruct H as [H1 H2].
  apply negb_true_iff in H2. split; assumption.
Qed.

Lemma onDelete_blocks_read_only (ops : doc_ops) (modelName : string)
      (document : value) (ctx : delete_ctx) (ds : list descriptor) (w : world) :
  refs w !! modelName = Some ds -> blocks_only ds = true ->
  read_only_step w (snd (onDelete ops modelName document ctx w)).
Proof.
  intros Hr Hb.
  apply (@onDelete_keeps read_only_step read_only_refl read_only_trans).
  intros ds0 d vals pathSubRef bound Hr0 Hd w1.
  rewrite Hr in Hr0. injection Hr0 as <-.
  destruct (blocks_only_In ds d Hb Hd) as [Hreq Hcas].
  unfold onDeleteConditions. rewrite Hreq, Hcas.
  apply onDeleteBlock_read_only.
Qed.

(** X5. When every reference to a model is required and does not
    cascade, deleting one of its documents changes no other document:
    the hook only reads.  If it refuses, or fails in any other way, the
    store is as it was and the document is still there; if it accepts,
    the store has lost the document and nothing else.  Recursion depth
    plays no part. *)
Theorem blocking_references_only_read
        (fuel : nat) (m : string) (d : value) (ds : list descriptor) (w : world) :
  refs w !! m = Some ds ->
  blocks_only ds = true ->
  (forall ops ctx, read_only_step w (snd (onDelete ops m d ctx w)))
  /\ match fst (deleteOne fuel m d w) with
     | Ok _ =>
         db (snd (deleteOne fuel m d w))
         = alter (List.filter (fun x => negb (same_id d x))) m (db w)
     | Err e =>
         db (snd (deleteOne fuel m d w)) = db w /\ e <> OutOfFuel
     end.
Proof.
  intros Hr Hb. split.
  { intros ops ctx. apply onDelete_blocks_read_only with (ds := ds); assumption. }
  set (w0 := with_log (log w ++ [EDeleteOne m (doc_id d)]) w).
  assert (Hr0 : refs w0 !! m = Some ds) by exact Hr.
  assert (Heq : deleteOne fuel m d w
                = match (if is_plugged m w0
                         then onDelete (ops_at fuel) m d no_ctx w0
                         else (Ok tt, w0)) with
                  | (Ok _, w1) => remove_doc m d w1
                  | (Err e, w1) => (Err e, w1)
                  end) by reflexivity.
  rewrite Heq. clear Heq.
  destruct (is_plugged m w0).
  - pose proof (@onDelete_blocks_read_only (ops_at fuel) m d no_ctx ds w0 Hr0 Hb) as Hro.
    destruct (onDelete (ops_at fuel) m d no_ctx w0) as [[u | e] w1] eqn:Erun;
      simpl in Hro; cbn [fst snd].
    + unfold remove_doc. cbn [fst snd db with_db].
      rewrite (read_only_db Hro). reflexivity.
    + split; [ rewrite (read_only_db Hro); reflexivity | ].
      intros ->.
      (* the block check never runs out of fuel: it calls no method *)
      revert Erun. unfold onDelete. rewrite Hr0.
      clear Hro. revert w0 Hr0 w1.
      assert (G : forall l, (forall x, In x l -> In x ds) ->
                            forall wa wb, for_each l (onDelete_step (ops_at fuel) m d no_ctx) wa
                                          <> (Err OutOfFuel, wb)).
      { induction l as [ | x l IH ]; intros Hl wa wb; cbn [for_each].
        - discriminate.
        - unfold bind.
          destruct (onDelete_step (ops_at fuel) m d no_ctx x wa) as [[u | e] wc] eqn:Es.
          + apply IH. intros y Hy. apply Hl. right. exact Hy.
          + intros Heq. injection Heq as -> ->.
            revert Es. unfold onDelete_step.
            destruct (rt_options (d_schemaType x)) as [o | ]; [ | discriminate ].
            destruct (subRef o) as [sr | ]; [ | discriminate ].
            unfold bind, lift.
            destruct (getReferencedValues _ d) as [vals | e] eqn:Ev.
            * destruct (blocks_only_In ds x Hb (Hl x (or_introl eq_refl))) as [Hreq Hcas].
              unfold onDeleteConditions. rewrite Hreq, Hcas.
              unfold onDeleteBlock. simpl.
              unfold bind, model.
              destruct (models wa !! d_modelName x); [ | discriminate ].
              unfold findOne, bind, emit. cbn [fst snd].
              destruct (truthy _); discriminate.
            * intros Heq. injection Heq as -> _.
              apply (@getReferencedValues_no_fuel _ d) in Ev. exact Ev. }
      intros w0 _ w1. apply G. auto.
  - cbn [fst snd]. unfold remove_doc. cbn [fst snd db with_db]. reflexivity.
Qed.

(** The person of the test world is referenced by a message through a
    required reference: the delete is refused and the store is as it
    was. *)
Lemma blocking_references_witness :
  let w := test_world true false in
  refs w !! "Person" = Some [message_descriptor true false]
  /\ blocks_only [message_descriptor true false] = true
  /\ refused (fst (deleteOne 0 "Person" parent w)) = true
  /\ db (snd (deleteOne 0 "Person" parent w)) = db w.
Proof.
  intros w.
  assert (Hr : refs w !! "Person" = Some [message_descriptor true false])
    by (vm_compute; reflexivity).
  split; [ exact Hr | ]. split; [ reflexivity | ].
  destruct (@blocking_references_only_read 0 "Person" parent
              [message_descriptor true false] w Hr eq_refl) as [_ H].
  destruct (fst (deleteOne 0 "Person" parent w)) as [u | e] eqn:E.
  - vm_compute in E. discriminate.
  - split; [ | apply H ]. vm_compute in E. injection E as <-. reflexivity.
Defined.

(** ** What the plugin does itself on a soft delete *)

Lemma bind_ext {A B} (m : M A) (k k' : A -> M B) (w : world) :
  (forall a w1, k a w1 = k' a w1) -> bind m k w = bind m k' w.
Proof.
  intros H. unfold bind. destruct (m w) as [[a | e] w1]; [ apply H | reflexivity ].
Qed.

Lemma for_each_ext {A} (l : list A) (f g : A -> M unit) :
  (forall x w, f x w = g x w) -> forall w, for_each l f w = for_each l g w.
Proof.
  intros H. induction l as [ | x l IH ]; intros w; [ reflexivity | ].
  cbn [for_each]. unfold bind. rewrite H.
  destruct (g x w) as [[u | e] w1]; [ apply IH | reflexivity ].
Qed.

Lemma promise_all_map_ext {A} (l : list A) (f g : A -> M unit) :
  (forall x w, f x w = g x w) ->
  forall w, promise_all (List.map f l) w = promise_all (List.map g l) w.
Proof.
  intros H. induction l as [ | x l IH ]; intros w; [ reflexivity | ].
  cbn [List.map promise_all]. rewrite H.
  destruct (g x w) as [r w1]. rewrite IH. reflexivity.
Qed.

(** The enforcement of one reference uses of the two document methods
    only the one of the delete it is part of. *)
Lemma onDeleteConditions_uses (ops ops' : doc_ops) (rt : refType)
      (modelRef pathRef modelSubRef pathSubRef : string)
      (vals : list value) (bound : value) (ctx : delete_ctx) :
  (ctx_softDelete ctx = true ->
   forall m d flag w, op_softDelete ops m d flag w = op_softDelete ops' m d flag w) ->
  (ctx_softDelete ctx = false ->
   forall m d w, op_deleteOne ops m d w = op_deleteOne ops' m d w) ->
  forall w,
    onDeleteConditions ops rt modelRef pathRef modelSubRef pathSubRef vals bound ctx w
    = onDeleteConditions ops' rt modelRef pathRef modelSubRef pathSubRef vals bound
                         ctx w.
Proof.
  intros Hsoft Hhard w. unfold onDeleteConditions.
  destruct (rt_required rt); [ destruct (rt_cascade rt) | ]; try reflexivity.
  unfold onDeleteCascade.
  apply bind_ext. intros _ w1. apply bind_ext. intros documents w2.
  destruct (ctx_softDelete ctx) eqn:Es.
  - apply promise_all_map_ext. intros doc w3. apply (Hsoft eq_refl).
  - apply promise_all_map_ext. intros doc w3. apply (Hhard eq_refl).
Qed.

Lemma onDelete_uses (ops ops' : doc_ops) (modelName : string) (document : value)
      (ctx : delete_ctx) :
  (ctx_softDelete ctx = true ->
   forall m d flag w, op_softDelete ops m d flag w = op_softDelete ops' m d flag w) ->
  (ctx_softDelete ctx = false ->
   forall m d w, op_deleteOne ops m d w = op_deleteOne ops' m d w) ->
  forall w, onDelete ops modelName document ctx w
            = onDelete ops' modelName document ctx w.
Proof.
  intros Hsoft Hhard w. unfold onDelete.
  destruct (refs w !! modelName) as [ds | ]; [ | reflexivity ].
  apply for_each_ext. intros d w1. unfold onDelete_step.
  destruct (rt_options (d_schemaType d)) as [o | ]; [ | reflexivity ].
  destruct (subRef o) as [sr | ]; [ | reflexivity ].
  apply bind_ext. intros vals w2.
  apply onDeleteConditions_uses; assumption.
Qed.

(** X6. On a soft delete the plugin itself only reads.  Whatever the two
    document methods do, [onDelete] in a soft-delete context never calls
    [deleteOne] (its outcome and the world it leaves do not depend on
    that method) and makes no bulk update: when the [softDelete] calls of
    the cascade change no stored document, none is changed.  In a
    hard-delete context it never calls [softDelete]. *)
Theorem soft_delete_context_only_reads
        (ops ops' : doc_ops) (modelName : string) (document : value)
        (ctx : delete_ctx) (w : world) :
  (ctx_softDelete ctx = true ->
   (forall m d flag w1, op_softDelete ops m d flag w1 = op_softDelete ops' m d flag w1) ->
   onDelete ops modelName document ctx w = onDelete ops' modelName document ctx w)
  /\ (ctx_softDelete ctx = true ->
      (forall m d flag w1, read_only_step w1 (snd (op_softDelete ops m d flag w1))) ->
      read_only_step w (snd (onDelete ops modelName document ctx w)))
  /\ (ctx_softDelete ctx = false ->
      (forall m d w1, op_deleteOne ops m d w1 = op_deleteOne ops' m d w1) ->
      onDelete ops modelName document ctx w = onDelete ops' modelName document ctx w).
Proof.
  split; [ | split ].
  - intros Hs H. apply onDelete_uses; [ intros _; exact H | ].
    intros Hh. rewrite Hs in Hh. discriminate.
  - intros Hs H.
    apply (@onDelete_keeps read_only_step read_only_refl read_only_trans).
    intros ds d vals pathSubRef bound _ _ w1.
    unfold onDeleteConditions.
    destruct (rt_required (d_schemaType d)); [ destruct (rt_cascade (d_schemaType d)) | ].
    + unfold onDeleteCascade. rewrite Hs.
      apply (@bind_keeps read_only_step read_only_trans).
      { apply (@model_keeps read_only_step read_only_refl). }
      intros _.
      apply (@bind_keeps read_only_step read_only_trans).
      { intros w2. eexists [_]. split; reflexivity. }
      intros documents.
      apply (@promise_all_keeps read_only_step read_only_refl read_only_trans).
      intros t Ht w2. apply in_map_iff in Ht. destruct Ht as [doc [<- _]].
      apply H.
    + apply onDeleteBlock_read_only.
    + unfold onDeleteSetNull. rewrite Hs. apply read_only_refl.
  - intros Hh H. apply onDelete_uses; [ | intros _; exact H ].
    intros Hs. rewrite Hh in Hs. discriminate.
Qed.

(** A soft delete of the person of the test world cascades to the
    messages: the outcome is the same with a [deleteOne] that cannot be
    called. *)
Lemma soft_delete_context_witness :
  let ctx := {| ctx_softDelete := true; ctx_deleted := true |} in
  let ops' := {| op_deleteOne := fun _ _ => throw OutOfFuel;
                 op_softDelete := op_softDelete (ops_at 1) |} in
  ctx_softDelete ctx = true
  /\ onDelete (ops_at 1) "Person" parent ctx (test_world true true)
     = onDelete ops' "Person" parent ctx (test_world true true).
Proof.
  intros ctx ops'. split; [ reflexivity | ].
  destruct (@soft_delete_context_only_reads
              (ops_at 1) ops' "Person" parent ctx (test_world true true))
    as [H _].
  apply H; [ reflexivity | ]. intros m d flag w1. reflexivity.
Defined.

(** ** Restores *)

Lemma bind_not_refused {A B} (m : M A) (k : A -> M B) (w : world) :
  refused (fst (m w)) = false ->
  (forall a w1, refused (fst (k a w1)) = false) ->
  refused (fst (bind m k w)) = false.
Proof.
  intros Hm Hk. unfold bind.
  destruct (m w) as [[a | e] w1]; simpl in *; [ apply Hk | exact Hm ].
Qed.

Lemma for_each_not_refused {A} (l : list A) (f : A -> M unit) :
  (forall x, In x l -> forall w, refused (fst (f x w)) = false) ->
  forall w, refused (fst (for_each l f w)) = false.
Proof.
  induction l as [ | x l IH ]; intros H w.
  - reflexivity.
  - cbn [for_each]. apply bind_not_refused.
    + apply H. left. reflexivity.
    + intros _. apply IH. intros y Hy. apply H. right. exact Hy.
Qed.

Lemma promise_all_not_refused (tasks : list (M unit)) :
  (forall t, In t tasks -> forall w, refused (fst (t w)) = false) ->
  forall w, refused (fst (promise_all tasks w)) = false.
Proof.
  induction tasks as [ | t rest IH ]; intros H w.
  - reflexivity.
  - cbn [promise_all].
    pose proof (H t (or_introl eq_refl) w) as Ht.
    destruct (t w) as [r w1]. simpl in Ht.
    assert (Hrest : refused (fst (promise_all rest w1)) = false)
      by (apply IH; intros t' Ht'; apply H; right; exact Ht').
    destruct (promise_all rest w1) as [r' w2]. simpl in *.
    destruct r as [u | e]; [ exact Hrest | exact Ht ].
Qed.

Lemma getReferencedValues_not_refused (p : string) (d : value) :
  refused (getReferencedValues p d) = false.
Proof.
  unfold getReferencedValues, ref_values.
  destruct (doc_get d p); try reflexivity.
  rewrite mapR_ref_value. destruct (existsb nullish l); reflexivity.
Qed.

(** The loop of [onDelete] on a restore, when the restores it cascades
    to are not refused. *)
Lemma onDelete_restore_not_refused (ops : doc_ops) (modelName : string)
      (document : value) :
  (forall m d w, refused (fst (op_softDelete ops m d false w)) = false) ->
  forall w, refused (fst (onDelete ops modelName document
                                   {| ctx_softDelete := true; ctx_deleted := false |}
                                   w)) = false.
Proof.
  intros Hops w. unfold onDelete.
  destruct (refs w !! modelName) as [ds | ]; [ | reflexivity ].
  apply for_each_not_refused. intros x _ w1. unfold onDelete_step.
  destruct (rt_options (d_schemaType x)) as [o | ]; [ | reflexivity ].
  destruct (subRef o) as [sr | ]; [ | reflexivity ].
  apply bind_not_refused; [ apply getReferencedValues_not_refused | ].
  intros vals w2. unfold onDeleteConditions.
  destruct (rt_required (d_schemaType x)); [ destruct (rt_cascade (d_schemaType x)) | ].
  - unfold onDeleteCascade. cbn [ctx_softDelete ctx_deleted].
    apply bind_not_refused.
    { unfold model. destruct (models w2 !! d_modelName x); reflexivity. }
    intros _ w3. apply bind_not_refused; [ reflexivity | ].
    intros documents w4. apply promise_all_not_refused.
    intros t Ht w5. apply in_map_iff in Ht. destruct Ht as [doc [<- _]].
    apply Hops.
  - reflexivity.
  - reflexivity.
Qed.

Lemma restore_not_refused (n : nat) :
  forall m d w, refused (fst (op_softDelete (ops_at n) m d false w)) = false.
Proof.
  induction n as [ | n IH ]; intros m d w.
  - reflexivity.
  - cbn [ops_at op_softDelete].
    apply bind_not_refused; [ reflexivity | ].
    intros _ w1. apply bind_not_refused.
    + unfold when_plugged. destruct (is_plugged m w1); [ | reflexivity ].
      apply onDelete_restore_not_refused. exact IH.
    + intros _ w2. reflexivity.
Qed.

(** X7. Restoring a soft-deleted document is never refused: whatever the
    registry, the store and the depth of cascade, [softDelete(false)]
    does not end in a [SubRefConstraintError], because the block check
    is skipped on a restore and a cascade hands the restore on.  So the
    hook never rolls back the flag of a document that is being restored:
    it returns the document as it got it. *)
Theorem restore_is_never_refused
        (fuel : nat) (m : string) (d document : value) (w : world) :
  refused (fst (softDelete fuel m d false w)) = false
  /\ (truthy (doc_get document "_deleted") = false ->
      snd (fst (preSoftDelete (ops_at fuel) m document w)) = document).
Proof.
  split; [ apply restore_not_refused | ].
  intros Hd. unfold preSoftDelete. rewrite Hd.
  pose proof (@onDelete_restore_not_refused (ops_at fuel) m document
                                            (restore_not_refused fuel) w) as H.
  destruct (onDelete (ops_at fuel) m document _ w) as [[u | e] w1]; simpl in *.
  - reflexivity.
  - rewrite H. reflexivity.
Qed.

(** The person of the test world was never soft-deleted: the hook gives
    the document back as it is. *)
Lemma restore_witness :
  truthy (doc_get parent "_deleted") = false
  /\ snd (fst (preSoftDelete (ops_at 1) "Person" parent (test_world true false)))
     = parent.
Proof.
  split; [ reflexivity | ].
  destruct (@restore_is_never_refused 1 "Person" parent parent (test_world true false))
    as [_ H].
  exact (H eq_refl).
Defined.

(** ** Integrity after a cascade *)

Lemma coll_alter_eq (f : list value -> list value) (m : string) (w w0 : world) :
  f [] = [] ->
  db w0 = alter f m (db w) ->
  coll m w0 = f (coll m w).
Proof.
  intros Hf Hdb. unfold coll. rewrite Hdb, lookup_alter_eq.
  destruct (db w !! m); simpl; [ reflexivity | symmetry; exact Hf ].
Qed.

Lemma coll_alter_ne (f : list value -> list value) (m k : string) (w w0 : world) :
  k <> m ->
  db w0 = alter f m (db w) ->
  coll k w0 = coll k w.
Proof.
  intros Hne Hdb. unfold coll. rewrite Hdb, lookup_alter_ne by congruence.
  reflexivity.
Qed.

Lemma deleteOne_leaf (n : nat) (m : string) (d : value) (w : world) :
  hook_free m w = true ->
  op_deleteOne (ops_at (S n)) m d w
  = (Ok tt,
     with_db (alter (List.filter (fun x => negb (same_id d x))) m (db w))
             (with_log (log w ++ [EDeleteOne m (doc_id d)]) w)).
Proof.
  intros H. cbn [ops_at op_deleteOne].
  unfold bind at 1. unfold emit. 
  set (w0 := with_log (log w ++ [EDeleteOne m (doc_id d)]) w).
  unfold bind, when_plugged.
  change (is_plugged m w0) with (is_plugged m w).
  unfold hook_free in H.
  destruct (is_plugged m w); [ | reflexivity ].
  simpl in H. unfold onDelete.
  change (refs w0) with (refs w).
  destruct (refs w !! m) as [[ | x l] | ]; try discriminate.
  reflexivity.
Qed.

Lemma filter_filter_and {A} (f g : A -> bool) (l : list A) :
  List.filter f (List.filter g l) = List.filter (fun x => g x && f x) l.
Proof.
  induction l as [ | x l IH ]; simpl; [ reflexivity | ].
  destruct (g x); simpl; [ | exact IH ].
  destruct (f x); rewrite IH; reflexivity.
Qed.

Lemma fold_remove (docs : list value) :
  forall l,
    fold_left (fun (l : list value) (d : value) =>
                 List.filter (fun x => negb (same_id d x)) l) docs l
    = List.filter (fun x => negb (existsb (fun d => same_id d x) docs)) l.
Proof.
  induction docs as [ | d docs IH ]; intros l; simpl.
  - induction l as [ | x l IHl ]; simpl; [ reflexivity | ]. rewrite <- IHl. reflexivity.
  - rewrite IH, filter_filter_and. apply List.filter_ext. intros x.
    rewrite negb_orb. reflexivity.
Qed.

Lemma cascade_leaf_all (n : nat) (m : string) (docs : list value) :
  forall w,
    hook_free m w = true ->
    let r := promise_all (List.map (op_deleteOne (ops_at (S n)) m) docs) w in
    fst r = Ok tt
    /\ coll m (snd r)
       = fold_left (fun (l : list value) (d : value) =>
                      List.filter (fun x => negb (same_id d x)) l) docs (coll m w)
    /\ (forall k, k <> m -> coll k (snd r) = coll k w)
    /\ refs (snd r) = refs w /\ models (snd r) = models w.
Proof.
  induction docs as [ | d docs IH ]; intros w H; cbn zeta.
  - simpl. repeat split; reflexivity.
  - cbn [List.map promise_all]. rewrite (deleteOne_leaf n m d w H).
    set (w1 := with_db _ _).
    assert (H1 : hook_free m w1 = true) by exact H.
    specialize (IH w1 H1). cbn zeta in IH.
    destruct (promise_all (List.map (op_deleteOne (ops_at (S n)) m) docs) w1)
      as [r w2].
    cbn [fst snd] in *.
    destruct IH as [Hr [Hc [Hk [Hrefs Hmodels]]]].
    split; [ exact Hr | ].
    split.
    { rewrite Hc. cbn [fold_left]. f_equal.
      apply (@coll_alter_eq _ m w w1); reflexivity. }
    split.
    { intros k Hne. rewrite (Hk k Hne).
      apply (@coll_alter_ne (List.filter (fun x => negb (same_id d x))) m k w w1 Hne).
      reflexivity. }
    split; [ rewrite Hrefs; reflexivity | rewrite Hmodels; reflexivity ].
Qed.

Lemma value_eqb_refl (a : value) : value_eqb a a = true.
Proof. apply value_eqb_eq. reflexivity. Qed.

(** X8. A hard cascade onto a model whose documents trigger no further
    hook (nothing references them, or their schema does not carry the
    plugin) succeeds and restores integrity: the referencing collection
    loses the documents the find query matched, by [_id], and afterwards
    holds no document that the query matches; the other collections,
    the registry and the models are untouched. *)
Theorem cascade_leaves_no_referencing_document
        (n : nat) (modelRef pathRef modelSubRef pathSubRef : string)
        (vals : list value) (bound : value) (ctx : delete_ctx)
        (sch : schema) (w : world) :
  ctx_softDelete ctx = false ->
  models w !! modelRef = Some sch ->
  hook_free modelRef w = true ->
  let q := getFindQueryObjectFor modelRef pathRef vals bound in
  let run := onDeleteCascade (ops_at (S n)) modelRef pathRef modelSubRef pathSubRef
                             vals bound ctx w in
  fst run = Ok tt
  /\ coll modelRef (snd run)
     = List.filter (fun x => negb (existsb (fun d => same_id d x)
                                           (List.filter (matches q) (coll modelRef w))))
                   (coll modelRef w)
  /\ forallb (fun x => negb (matches q x)) (coll modelRef (snd run)) = true
  /\ (forall k, k <> modelRef -> coll k (snd run) = coll k w)
  /\ refs (snd run) = refs w /\ models (snd run) = models w.
Proof.
  intros Hs Hm Hh q run.
  set (docs := List.filter (matches q) (coll modelRef w)).
  set (w0 := with_log (log w ++ [EFind modelRef q]) w).
  assert (Hrun : run = promise_all (List.map (op_deleteOne (ops_at (S n)) modelRef) docs) w0).
  { unfold run, onDeleteCascade. fold q. rewrite Hs.
    unfold bind, model. rewrite Hm. reflexivity. }
  assert (H0 : hook_free modelRef w0 = true) by exact Hh.
  destruct (@cascade_leaf_all n modelRef docs w0 H0) as [Hr [Hc [Hk [Hrefs Hmodels]]]].
  rewrite <- Hrun in Hr, Hc, Hk, Hrefs, Hmodels.
  change (coll modelRef w0) with (coll modelRef w) in Hc.
  rewrite fold_remove in Hc.
  split; [ exact Hr | ]. split; [ exact Hc | ].
  split.
  { rewrite Hc. apply forallb_forall. intros x Hx.
    apply filter_In in Hx. destruct Hx as [Hin Hnot].
    destruct (matches q x) eqn:Em; [ | reflexivity ].
    exfalso. apply negb_true_iff in Hnot.
    assert (Hex : existsb (fun d => same_id d x) docs = true).
    { apply existsb_exists. exists x. split.
      - apply filter_In. split; assumption.
      - unfold same_id. apply value_eqb_refl. }
    congruence. }
  split; [ exact Hk | ]. split; assumption.
Qed.

(** The cascade test of the repository: removing contact 10 deletes the
    two messages that reference it and keeps the third. *)
Lemma cascade_leaf_witness :
  let w := test_world true true in
  ctx_softDelete no_ctx = false
  /\ models w !! "Message" = Some (MessageSchema true true)
  /\ hook_free "Message" w = true
  /\ coll "Message"
          (snd (onDeleteCascade (ops_at 1) "Message" "contact" "Person" "contacts"
                                [VOid 10] VNull no_ctx w))
     = [message 101 11].
Proof.
  intros w.
  assert (Hm : models w !! "Message" = Some (MessageSchema true true))
    by (vm_compute; reflexivity).
  assert (Hh : hook_free "Message" w = true) by (vm_compute; reflexivity).
  split; [ reflexivity | ]. split; [ exact Hm | ]. split; [ exact Hh | ].
  destruct (@cascade_leaves_no_referencing_document
              0 "Message" "contact" "Person" "contacts" [VOid 10] VNull no_ctx
              (MessageSchema true true) w eq_refl Hm Hh) as [_ [Hc _]].
  etransitivity; [ exact Hc | vm_compute; reflexivity ].
Defined.

(** ** Integrity after set-null *)

Lemma candidates_set_field (k : string) (v : value) (fs : list (string * value)) :
  candidates (VObj (set_field k v fs)) [k]
  = v :: match v with VArr l => l | _ => [] end.
Proof.
  induction fs as [ | [k' x] fs IH ].
  - simpl. rewrite String.eqb_refl. destruct v; reflexivity.
  - simpl. destruct (String.eqb k k') eqn:E.
    + simpl. rewrite String.eqb_refl. destruct v; reflexivity.
    + simpl. rewrite E. exact IH.
Qed.

Lemma existsb_filter_negb {A} (f : A -> bool) (l : list A) :
  existsb f (List.filter (fun x => negb (f x)) l) = false.
Proof.
  induction l as [ | x l IH ]; simpl; [ reflexivity | ].
  destruct (f x) eqn:E; simpl; [ exact IH | ]. rewrite E. exact IH.
Qed.

Lemma scalar_refs_no_null (vals : list value) :
  forallb scalar_ref vals = true -> in_values vals VNull = false.
Proof.
  intros H. destruct (in_values vals VNull) eqn:E; [ | reflexivity ].
  apply in_values_In in E. rewrite forallb_forall in H.
  specialize (H _ E). discriminate.
Qed.

Lemma scalar_refs_no_array (vals : list value) (l : list value) :
  forallb scalar_ref vals = true -> in_values vals (VArr l) = false.
Proof.
  intros H. destruct (in_values vals (VArr l)) eqn:E; [ | reflexivity ].
  apply in_values_In in E. rewrite forallb_forall in H.
  specialize (H _ E). discriminate.
Qed.

(** One stored document after the update of a top-level field. *)
Lemma terminal_update_unreferenced (st : schemaType) (k : string)
      (vals : list value) (fs : list (string * value)) :
  no_dot k = true ->
  forallb scalar_ref vals = true ->
  (st_ctor st = "SchemaArray" -> exists l, field k fs = VArr l) ->
  matches (QIn k vals) (apply_update (terminal_update st k vals) None (VObj fs))
  = false.
Proof.
  intros Hk Hv Harr.
  assert (Hsplit : split_dot k = [k]).
  { unfold split_dot. rewrite (@split_dot_aux_no_dot k "") by exact Hk.
    rewrite append_nil_l. reflexivity. }
  unfold apply_update, terminal_update.
  destruct (String.eqb (st_ctor st) "SchemaArray") eqn:Ec.
  - apply String.eqb_eq in Ec. destruct (Harr Ec) as [l Hl].
    cbn [update_path]. rewrite Hsplit. cbn [update_at update_terminal].
    rewrite Hl. cbn [matches]. rewrite Hsplit, candidates_set_field.
    cbn [existsb]. rewrite (scalar_refs_no_array vals _ Hv).
    unfold in_values at 1.
    exact (existsb_filter_negb (in_values vals) l).
  - cbn [update_path]. rewrite Hsplit. cbn [update_at update_terminal].
    cbn [matches]. rewrite Hsplit, candidates_set_field.
    cbn [existsb]. rewrite (scalar_refs_no_null vals Hv). reflexivity.
Qed.

(** X9. Set-null on a top-level reference field restores integrity.  On a
    hard delete, with no bound document and removed values that are
    neither [null] nor arrays, the bulk update succeeds; it rewrites the
    documents that reference a removed value and only those, and
    afterwards no document of the referencing collection references a
    removed value: a scalar field is [null], an array of references has
    lost the removed values.  No document is added or removed and the
    other collections are untouched. *)
Theorem set_null_leaves_no_reference
        (modelRef pathRef modelSubRef pathSubRef : string)
        (vals : list value) (bound : value) (ctx : delete_ctx)
        (sch : schema) (st : schemaType) (w : world) :
  ctx_softDelete ctx = false ->
  truthy bound = false ->
  models w !! modelRef = Some sch ->
  schema_path sch pathRef = Some st ->
  no_dot pathRef = true ->
  forallb scalar_ref vals = true ->
  (forall d, In d (coll modelRef w) ->
             exists fs, d = VObj fs
                        /\ (st_ctor st = "SchemaArray" ->
                            exists l, field pathRef fs = VArr l)) ->
  let q := QIn pathRef vals in
  let run := onDeleteSetNull modelRef pathRef modelSubRef pathSubRef
                             vals bound ctx w in
  fst run = Ok tt
  /\ coll modelRef (snd run)
     = List.map (fun d => if matches q d
                          then apply_update (terminal_update st pathRef vals) None d
                          else d)
                (coll modelRef w)
  /\ forallb (fun d => negb (matches q d)) (coll modelRef (snd run)) = true
  /\ (forall k, k <> modelRef -> coll k (snd run) = coll k w).
Proof.
  intros Hs Hb Hm Hp Hk Hv Hdocs q run.
  assert (Hsplit : split_dot pathRef = [pathRef]).
  { unfold split_dot. rewrite (@split_dot_aux_no_dot pathRef "") by exact Hk.
    rewrite append_nil_l. reflexivity. }
  destruct (update_target_plain sch vals Hsplit) as [Ht Hf].
  set (u := terminal_update st pathRef vals).
  set (f := List.map (fun d => if matches q d then apply_update u None d else d)).
  assert (Hrun : run = (Ok tt,
                        with_db (alter f modelRef (db w))
                                (with_log (log w ++ [EUpdateMany modelRef q u None]) w))).
  { unfold run, onDeleteSetNull. rewrite Hs. cbn [negb].
    unfold bind, model, lift. rewrite Hm.
    rewrite getUpdateQueryObjectFor_eq, Hp, Ht, Hf.
    unfold getFindQueryObjectFor. rewrite Hb. reflexivity. }
  rewrite Hrun. cbn [fst snd].
  set (w1 := with_db _ _).
  assert (Hc : coll modelRef w1 = f (coll modelRef w)).
  { apply (@coll_alter_eq f modelRef w w1); reflexivity. }
  split; [ reflexivity | ]. split; [ exact Hc | ].
  split.
  { rewrite Hc. unfold f. apply forallb_forall. intros x Hx.
    apply in_map_iff in Hx. destruct Hx as [d [<- Hd]].
    destruct (matches q d) eqn:Em.
    - destruct (Hdocs d Hd) as [fs [-> Harr]].
      apply negb_true_iff.
      apply terminal_update_unreferenced; assumption.
    - rewrite Em. reflexivity. }
  intros k Hne. apply (@coll_alter_ne f modelRef k w w1 Hne). reflexivity.
Qed.

(** The set-null test of the repository: contact 10 is removed, the two
    messages that reference it hold [null] and the third is as it was. *)
Lemma set_null_witness :
  let w := test_world false false in
  (ctx_softDelete no_ctx = false
   /\ truthy VNull = false
   /\ models w !! "Message" = Some (MessageSchema false false)
   /\ no_dot "contact" = true
   /\ forallb scalar_ref [VOid 10] = true)
  /\ coll "Message"
          (snd (onDeleteSetNull "Message" "contact" "Person" "contacts"
                                [VOid 10] VNull no_ctx w))
     = [VObj [("_id", VOid 100); ("contact", VNull)];
        message 101 11;
        VObj [("_id", VOid 102); ("contact", VNull)]].
Proof.
  intros w.
  assert (Hm : models w !! "Message" = Some (MessageSchema false false))
    by (vm_compute; reflexivity).
  split; [ repeat split; try reflexivity; exact Hm | ].
  assert (Hdocs : forall d, In d (coll "Message" w) ->
                            exists fs, d = VObj fs
                                       /\ (st_ctor (ref_field "Person.contacts" None false false)
                                           = "SchemaArray" ->
                                           exists l, field "contact" fs = VArr l)).
  { intros d Hd.
    assert (Hc : coll "Message" w = [message 100 10; message 101 11; message 102 10])
      by (vm_compute; reflexivity).
    rewrite Hc in Hd. simpl in Hd.
    destruct Hd as [<- | [<- | [<- | []]]]; eexists; (split; [ reflexivity | discriminate ]). }
  destruct (@set_null_leaves_no_reference
              "Message" "contact" "Person" "contacts" [VOid 10] VNull no_ctx
              (MessageSchema false false)
              (ref_field "Person.contacts" None false false) w
              eq_refl eq_refl Hm eq_refl eq_refl eq_refl Hdocs) as [_ [Hc _]].
  etransitivity; [ exact Hc | vm_compute; reflexivity ].
Defined.

(** ** Integrity after set-null below a document array *)

Lemma split_two (a b : string) :
  no_dot a = true -> no_dot b = true -> split_dot (a ++ "." ++ b) = [a; b].
Proof.
  intros Ha Hb. unfold split_dot.
  change (a ++ "." ++ b)%string with (a ++ String "."%char b)%string.
  rewrite (split_dot_aux_prefix a b "" Ha), append_nil_l.
  rewrite (@split_dot_aux_no_dot b "") by exact Hb.
  rewrite append_nil_l. reflexivity.
Qed.

(** What [getUpdateQueryObjectFor] returns for a field of the elements
    of a document array. *)
Lemma update_query_one_array (sch : schema) (a b : string) (vals : list value)
      (st : schemaType) :
  no_dot a = true -> no_dot b = true ->
  option_map st_ctor (schema_path sch a) = Some "DocumentArrayPath" ->
  schema_path sch (a ++ "." ++ b) = Some st ->
  getUpdateQueryObjectFor sch (a ++ "." ++ b) vals
  = Ok (terminal_update st (a ++ ".$[j]." ++ b) vals,
        Some {| af_key := ("j." ++ b)%string; af_vals := vals |}).
Proof.
  intros Ha Hb Harr Hp.
  unfold getUpdateQueryObjectFor. rewrite (split_two a b Ha Hb), Hp.
  unfold build_info. cbn [List.length Nat.sub seq List.map firstn join_dot].
  destruct (schema_path sch a) as [sta | ]; [ | discriminate ].
  simpl in Harr. injection Harr as Harr. rewrite Harr.
  cbn [String.eqb Ascii.eqb Bool.eqb].
  unfold last_doc_array, build_updatePath, build_condPath, terminal_update.
  cbn [List.length seq combine fold_left fst snd nth opt_nat_is after_last
       Nat.eqb Nat.ltb Nat.leb].
  rewrite !append_nil_l, !append_assoc.
  reflexivity.
Qed.

Lemma split_three (a b : string) :
  no_dot a = true -> no_dot b = true ->
  split_dot (a ++ ".$[j]." ++ b) = [a; "$[j]"; b].
Proof.
  intros Ha Hb. unfold split_dot.
  change (a ++ ".$[j]." ++ b)%string
    with (a ++ String "."%char ("$[j]" ++ String "."%char b))%string.
  rewrite (split_dot_aux_prefix a _ "" Ha), append_nil_l.
  rewrite (split_dot_aux_prefix "$[j]" b "" eq_refl).
  rewrite (@split_dot_aux_no_dot b "") by exact Hb.
  rewrite !append_nil_l. reflexivity.
Qed.

(** An element of a document array after the terminal update. *)
Lemma element_unreferenced (st : schemaType) (target k : string)
      (vals : list value) (gs : list (string * value)) :
  forallb scalar_ref vals = true ->
  (st_ctor st = "SchemaArray" -> exists l, field k gs = VArr l) ->
  existsb (in_values vals)
          (candidates (VObj (update_terminal (terminal_update st target vals) k gs))
                      [k])
  = false.
Proof.
  intros Hv Harr. unfold terminal_update.
  destruct (String.eqb (st_ctor st) "SchemaArray") eqn:Ec.
  - apply String.eqb_eq in Ec. destruct (Harr Ec) as [l Hl].
    cbn [update_terminal]. rewrite Hl, candidates_set_field.
    cbn [existsb]. rewrite (scalar_refs_no_array vals _ Hv).
    exact (existsb_filter_negb (in_values vals) l).
  - cbn [update_terminal]. rewrite candidates_set_field.
    cbn [existsb]. rewrite (scalar_refs_no_null vals Hv). reflexivity.
Qed.

(** A document array under [$[j]]: the elements the filter selects are
    updated, and afterwards no element references a removed value. *)
Lemma array_filter_unreferenced (st : schemaType) (target b : string)
      (vals : list value) (l : list value) :
  no_dot b = true ->
  forallb scalar_ref vals = true ->
  (st_ctor st = "SchemaArray" ->
   forall e gs, In e l -> e = VObj gs -> exists l', field b gs = VArr l') ->
  existsb (in_values vals)
          (candidates
             (update_at (terminal_update st target vals)
                        (Some {| af_key := ("j." ++ b)%string; af_vals := vals |})
                        (VArr l) ["$[j]"; b])
             [b])
  = false.
Proof.
  intros Hb Hv Harr.
  assert (Hkey : List.tl (split_dot ("j." ++ b)) = [b]).
  { change ("j." ++ b)%string with ("j" ++ "." ++ b)%string.
    rewrite (split_two "j" b eq_refl Hb). reflexivity. }
  cbn [update_at String.eqb Ascii.eqb Bool.eqb].
  induction l as [ | e l IH ].
  - reflexivity.
  - cbn [candidates] in *.
    rewrite existsb_app.
    rewrite IH
      by (intros Hc x gs0 Hx Heq; apply (Harr Hc x gs0); [ right; exact Hx | exact Heq ]).
    rewrite orb_false_r.
    unfold filter_holds. cbn [af_key af_vals]. rewrite Hkey.
    destruct e as [ | | x | x | x | x | l0 | gs ]; try reflexivity.
    { destruct (existsb (in_values vals) (candidates (VArr l0) [b])); reflexivity. }
    destruct (existsb (in_values vals) (candidates (VObj gs) [b])) eqn:E.
    + cbn [update_at].
      apply element_unreferenced; [ exact Hv | ].
      intros Hc. apply (Harr Hc (VObj gs) gs); [ left | ]; reflexivity.
    + exact E.
Qed.

(** A stored document under a three-token update path: the first field
    of that name is what the query reads afterwards. *)
Lemma candidates_walk (u : update) (af : option array_filter)
      (a t b : string) (l : list value) (fs : list (string * value)) :
  field a fs = VArr l ->
  candidates (update_at u af (VObj fs) [a; t; b]) [a; b]
  = candidates (update_at u af (VArr l) [t; b]) [b].
Proof.
  intros Hf. cbn [update_at].
  induction fs as [ | [k x] fs IH ].
  - discriminate.
  - simpl in Hf. cbn [candidates] in *.
    destruct (String.eqb a k) eqn:E.
    + subst x. reflexivity.
    + exact (IH Hf).
Qed.

(** X10. Set-null on a reference field of the elements of a document
    array restores integrity.  On a hard delete, with no bound document
    and removed values that are neither [null] nor arrays, the bulk
    update goes to [array.$[j].field] with the array filter [j.field];
    it succeeds, and afterwards no document of the referencing
    collection has an element that references a removed value.  No
    document is added or removed and the other collections are
    untouched. *)
Theorem set_null_below_document_array
        (modelRef a b modelSubRef pathSubRef : string)
        (vals : list value) (bound : value) (ctx : delete_ctx)
        (sch : schema) (st : schemaType) (w : world) :
  ctx_softDelete ctx = false ->
  truthy bound = false ->
  models w !! modelRef = Some sch ->
  no_dot a = true -> no_dot b = true ->
  option_map st_ctor (schema_path sch a) = Some "DocumentArrayPath" ->
  schema_path sch (a ++ "." ++ b) = Some st ->
  forallb scalar_ref vals = true ->
  (forall d, In d (coll modelRef w) ->
             exists fs l, d = VObj fs /\ field a fs = VArr l
                          /\ (st_ctor st = "SchemaArray" ->
                              forall e gs, In e l -> e = VObj gs ->
                                           exists l', field b gs = VArr l')) ->
  let q := QIn (a ++ "." ++ b) vals in
  let u := terminal_update st (a ++ ".$[j]." ++ b) vals in
  let af := Some {| af_key := ("j." ++ b)%string; af_vals := vals |} in
  let run := onDeleteSetNull modelRef (a ++ "." ++ b) modelSubRef pathSubRef
                             vals bound ctx w in
  fst run = Ok tt
  /\ log (snd run) = log w ++ [EUpdateMany modelRef q u af]
  /\ coll modelRef (snd run)
     = List.map (fun d => if matches q d then apply_update u af d else d)
                (coll modelRef w)
  /\ forallb (fun d => negb (matches q d)) (coll modelRef (snd run)) = true
  /\ (forall k, k <> modelRef -> coll k (snd run) = coll k w).
Proof.
  intros Hs Hbound Hm Ha Hb Harr Hp Hv Hdocs q u af run.
  set (f := List.map (fun d => if matches q d then apply_update u af d else d)).
  assert (Hrun : run = (Ok tt,
                        with_db (alter f modelRef (db w))
                                (with_log (log w ++ [EUpdateMany modelRef q u af]) w))).
  { unfold run, onDeleteSetNull. rewrite Hs. cbn [negb].
    unfold bind, model, lift. rewrite Hm.
    rewrite (@update_query_one_array sch a b vals st Ha Hb Harr Hp).
    unfold getFindQueryObjectFor. rewrite Hbound. reflexivity. }
  rewrite Hrun. cbn [fst snd].
  set (w1 := with_db _ _).
  assert (Hc : coll modelRef w1 = f (coll modelRef w)).
  { apply (@coll_alter_eq f modelRef w w1); reflexivity. }
  split; [ reflexivity | ]. split; [ reflexivity | ]. split; [ exact Hc | ].
  split.
  { rewrite Hc. unfold f. apply forallb_forall. intros x Hx.
    apply in_map_iff in Hx. destruct Hx as [d [<- Hd]].
    destruct (matches q d) eqn:Em; [ | rewrite Em; reflexivity ].
    destruct (Hdocs d Hd) as [fs [l [-> [Hf Hel]]]].
    apply negb_true_iff.
    assert (Hpath : update_path u = (a ++ ".$[j]." ++ b)%string).
    { unfold u, terminal_update.
      destruct (String.eqb (st_ctor st) "SchemaArray"); reflexivity. }
    unfold q, apply_update. rewrite Hpath, (split_three a b Ha Hb).
    cbn [matches]. rewrite (split_two a b Ha Hb).
    rewrite (@candidates_walk u af a "$[j]" b l fs Hf).
    subst u af. apply array_filter_unreferenced; assumption. }
  intros k Hne. apply (@coll_alter_ne f modelRef k w w1 Hne). reflexivity.
Qed.

(** The order of the example: line 301 references contact 10 and is
    nulled, line 302 is kept. *)
Lemma set_null_below_witness :
  let w := order_world in
  (ctx_softDelete no_ctx = false
   /\ truthy VNull = false
   /\ models w !! "Order" = Some OrderSchema
   /\ no_dot "lines" = true /\ no_dot "contact" = true
   /\ option_map st_ctor (schema_path OrderSchema "lines") = Some "DocumentArrayPath"
   /\ forallb scalar_ref [VOid 10] = true)
  /\ List.map (fun d => doc_get d "lines")
              (coll "Order"
                    (snd (onDeleteSetNull "Order" "lines.contact" "Person" "contacts"
                                          [VOid 10] VNull no_ctx w)))
     = [VArr [VObj [("_id", VOid 301); ("contact", VNull)];
              VObj [("_id", VOid 302); ("contact", VOid 11)]]].
Proof.
  intros w.
  assert (Hm : models w !! "Order" = Some OrderSchema) by (vm_compute; reflexivity).
  split; [ repeat split; try reflexivity; exact Hm | ].
  assert (Hdocs : forall d, In d (coll "Order" w) ->
                            exists fs l,
                              d = VObj fs /\ field "lines" fs = VArr l
                              /\ (st_ctor (ref_field "Person.contacts" None false false)
                                  = "SchemaArray" ->
                                  forall e gs, In e l -> e = VObj gs ->
                                               exists l', field "contact" gs = VArr l')).
  { intros d Hd.
    assert (Hc : coll "Order" w = [order]) by (vm_compute; reflexivity).
    rewrite Hc in Hd. simpl in Hd. destruct Hd as [<- | []].
    do 2 eexists. split; [ reflexivity | ]. split; [ reflexivity | discriminate ]. }
  destruct (@set_null_below_document_array
              "Order" "lines" "contact" "Person" "contacts" [VOid 10] VNull no_ctx
              OrderSchema (ref_field "Person.contacts" None false false) w
              eq_refl eq_refl Hm eq_refl eq_refl eq_refl eq_refl eq_refl Hdocs)
    as [_ [_ [Hc _]]].
  change ("lines" ++ "." ++ "contact")%string with "lines.contact" in Hc.
  rewrite Hc. vm_compute. reflexivity.
Defined.

(** ** Registrations that fail half-way *)

Lemma bind_fail {A B} (m : M A) (k : A -> M B) (e : error) (w w' : world) :
  m w = (Err e, w') -> bind m k w = (Err e, w').
Proof. intros H. unfold bind. rewrite H. reflexivity. Qed.

Lemma bind_ok {A B} (m : M A) (k : A -> M B) (a : A) (w w' : world) :
  m w = (Ok a, w') -> bind m k w = k a w'.
Proof. intros H. unfold bind. rewrite H. reflexivity. Qed.

Lemma for_each_fails_at {A} (f : A -> M unit) (x : A) (l1 l2 : list A) :
  (forall w, succeeded (fst (f x w)) = false) ->
  forall w, succeeded (fst (for_each (l1 ++ x :: l2) f w)) = false.
Proof.
  intros Hx. induction l1 as [ | y l1 IH ]; intros w; cbn [app for_each]; unfold bind.
  - specialize (Hx w). destruct (f x w) as [[u | e] w1]; [ discriminate | reflexivity ].
  - destruct (f y w) as [[u | e] w1]; [ apply IH | reflexivity ].
Qed.

(** X11. An array of references declared through its element,
    [[{ type: ObjectId, subRef: 'T.p' }]], cannot be registered: the
    element declaration is a plain object without [options], so
    [setValidator] throws a [TypeError] and [plugin] fails without
    installing its hooks.  But the descriptor is written to the registry
    before that, and there it makes every later deletion of a document of
    the target model fail, under every policy, for as long as it stays
    in the registry. *)
Theorem element_declared_reference_breaks_target
        (modelName path sr : string) (options : ref_options)
        (required cascade rreq rcas : bool)
        (sub : option (list (string * schemaType))) (post : schema) (w : world) :
  str_truthy (Some sr) = true ->
  let r := {| raw_subRef := Some sr; raw_options := None;
              raw_required := rreq; raw_cascade := rcas |} in
  let st := SchemaType "SchemaArray" options (Some r) required cascade sub in
  let d := {| d_modelName := modelName; d_path := path;
              d_schemaType := refType_of_raw r |} in
  eachPath modelName path st w
  = (Err (TypeError "Cannot read property subRef of undefined"),
     with_refs (<[getRootRef sr := appended (subRef options) d w]> (refs w)) w)
  /\ succeeded (fst (plugin modelName ((path, st) :: post) w)) = false
  /\ plugged (snd (plugin modelName ((path, st) :: post) w)) = plugged w
  /\ (forall ops document ctx ds ds' w',
         refs w' !! getRootRef sr = Some (ds ++ d :: ds') ->
         succeeded (fst (onDelete ops (getRootRef sr) document ctx w')) = false).
Proof.
  intros Ht r st d.
  assert (Heach : forall w0,
             eachPath modelName path st w0
             = (Err (TypeError "Cannot read property subRef of undefined"),
                with_refs (<[getRootRef sr := appended (subRef options) d w0]> (refs w0))
                          w0)).
  { intros w0. unfold st. cbn [eachPath String.eqb Ascii.eqb Bool.eqb].
    cbn [r raw_subRef]. rewrite Ht. reflexivity. }
  split; [ apply Heach | ].
  assert (Hplugin : forall w0, exists w1,
             plugin modelName ((path, st) :: post) w0
             = (Err (TypeError "Cannot read property subRef of undefined"), w1)
             /\ plugged w1 = plugged w0).
  { intros w0. unfold plugin. unfold bind at 1.
    set (w1 := match refs w0 !! modelName with
               | Some _ => w0
               | None => with_refs (<[modelName := []]> (refs w0)) w0
               end).
    assert (Hp : plugged w1 = plugged w0)
      by (unfold w1; destruct (refs w0 !! modelName); reflexivity).
    cbn [for_each fst snd]. unfold bind. rewrite (Heach w1).
    eexists. split; [ reflexivity | exact Hp ]. }
  destruct (Hplugin w) as [w1 [Hrun Hp]]. rewrite Hrun. cbn [fst snd].
  split; [ reflexivity | ]. split; [ exact Hp | ].
  intros ops document ctx ds ds' w' Hrefs.
  unfold onDelete. rewrite Hrefs.
  apply for_each_fails_at. intros w0. reflexivity.
Qed.

(** X12. A reference registered before its target model is refused with
    a [MissingSchemaError]: the model is not compiled and its hooks are
    not installed, no validator is attached, but its descriptor is
    already in the registry of the target. *)
Theorem reference_before_target_is_refused
        (modelName path sr ctor : string) (bound : option string)
        (required cascade : bool) (post : schema) (w : world) :
  str_truthy (Some sr) = true ->
  models w !! getRootRef sr = None ->
  let st := SchemaType ctor {| subRef := Some sr; boundTo := bound |} None
                       required cascade None in
  let d := {| d_modelName := modelName; d_path := path;
              d_schemaType := refType_of_schemaType st |} in
  let run := consistentModel modelName ((path, st) :: post) w in
  fst run = Err (MissingSchemaError (getRootRef sr))
  /\ models (snd run) = models w
  /\ plugged (snd run) = plugged w
  /\ validators (snd run) = validators w
  /\ exists ds, refs (snd run) !! getRootRef sr = Some (ds ++ [d]).
Proof.
  intros Ht Hm st d run.
  set (w1 := match refs w !! modelName with
             | Some _ => w
             | None => with_refs (<[modelName := []]> (refs w)) w
             end).
  assert (Hm1 : models w1 = models w)
    by (unfold w1; destruct (refs w !! modelName); reflexivity).
  assert (Hp1 : plugged w1 = plugged w)
    by (unfold w1; destruct (refs w !! modelName); reflexivity).
  assert (Hv1 : validators w1 = validators w)
    by (unfold w1; destruct (refs w !! modelName); reflexivity).
  set (w2 := with_refs (<[getRootRef sr := appended (Some sr) d w1]> (refs w1)) w1).
  assert (Heach : eachPath modelName path st w1
                  = (Err (MissingSchemaError (getRootRef sr)), w2)).
  { unfold st. cbn [eachPath].
    assert (He : (if String.eqb ctor "SchemaArray"
                  then @None raw_decl else None) = None)
      by (destruct (String.eqb ctor "SchemaArray"); reflexivity).
    rewrite He. cbn [subRef]. rewrite Ht.
    unfold bind at 1. unfold register. cbn [fst snd key_of].
    fold st. fold d. 
    unfold setValidator. cbn [refType_of_schemaType rt_options st_options st subRef].
    unfold bind, model. cbn [models with_refs]. rewrite Hm1, Hm. reflexivity. }
  assert (Hrun : run = (Err (MissingSchemaError (getRootRef sr)), w2)).
  { unfold run, consistentModel. apply bind_fail.
    unfold plugin. rewrite (@bind_ok _ _ _ _ tt w w1) by reflexivity.
    apply bind_fail. cbn [for_each]. apply bind_fail. exact Heach. }
  rewrite Hrun. cbn [fst snd].
  split; [ reflexivity | ]. split; [ exact Hm1 | ]. split; [ exact Hp1 | ].
  split; [ exact Hv1 | ].
  eexists. unfold w2. cbn [refs with_refs]. rewrite lookup_insert_eq.
  unfold appended. reflexivity.
Qed.

(** [watchers] declared through its element in the schema of [Order]. *)
Lemma element_declared_witness :
  let st := SchemaType "SchemaArray" no_options (Some watchers_element)
                       false false None in
  str_truthy (Some "Person.contacts") = true
  /\ fst (eachPath "Order" "watchers" st (registered true false))
     = Err (TypeError "Cannot read property subRef of undefined")
  /\ succeeded (fst (plugin "Order" [("watchers", st)] (registered true false)))
     = false.
Proof.
  intros st. split; [ reflexivity | ].
  destruct (@element_declared_reference_breaks_target
              "Order" "watchers" "Person.contacts" no_options false false false false
              None [] (registered true false) eq_refl) as [H1 [H2 _]].
  split; [ | exact H2 ].
  unfold st, watchers_element. rewrite H1. reflexivity.
Defined.

(** [Message] registered before [Person]. *)
Lemma reference_before_target_witness :
  str_truthy (Some "Person.contacts") = true
  /\ models empty_world !! "Person" = None
  /\ fst (consistentModel "Message" (MessageSchema true false) empty_world)
     = Err (MissingSchemaError "Person")
  /\ models (snd (consistentModel "Message" (MessageSchema true false) empty_world))
     = models empty_world.
Proof.
  split; [ reflexivity | ]. split; [ reflexivity | ].
  destruct (@reference_before_target_is_refused
              "Message" "contact" "Person.contacts" "ObjectId" None true false
              [("content", plain "SchemaString"); ("_id", plain "ObjectId")]
              empty_world eq_refl eq_refl) as [H1 [H2 _]].
  split; [ exact H1 | exact H2 ].
Defined.

(** ** After the post-save hook *)

(** X13. Once the post-save hook has run a batch, whether the batch
    succeeded or failed, the queue is gone and the flag is set: a caller
    of [subRefsUpdates] that comes afterwards gets a promise that is
    resolved at once, also when the batch has failed and the earlier
    callers were rejected. *)
Theorem late_caller_is_resolved_whatever_the_outcome
        (ops : doc_ops) (this : instance) (ps : list pstate) (w : world)
        (q : list pending_task) :
  i_queue this = Some q ->
  let this' := snd (fst (fst (post_save ops this ps w))) in
  let ps' := snd (fst (post_save ops this ps w)) in
  i_queue this' = None
  /\ i_updated this' = Some true
  /\ resolves_at_once this' ps'.
Proof.
  intros Hq this' ps'.
  assert (Hu : i_queue this' = None /\ i_updated this' = Some true).
  { unfold this', post_save.
    assert (Hb : post_save_begin this = with_updated (Some false) this)
      by (unfold post_save_begin; rewrite Hq; reflexivity).
    rewrite Hb.
    destruct (post_save_tasks ops (with_updated (Some false) this) w) as [r w1].
    unfold post_save_end. cbn [with_updated i_queue]. rewrite Hq.
    destruct r; split; reflexivity. }
  destruct Hu as [Hqueue Hflag].
  split; [ exact Hqueue | ]. split; [ exact Hflag | ].
  unfold resolves_at_once, subRefsUpdates. rewrite Hflag.
  apply settle_same.
  rewrite lookup_app_r by lia. rewrite Nat.sub_diag. reflexivity.
Qed.

(** The cascade of the shifted contact fails for want of fuel: the late
    caller is resolved all the same. *)
Lemma late_caller_witness :
  let this := enqueue {| pt_closure := contact_validator true true;
                         pt_deletedValues := [contact0] |} parent_shifted in
  let run := post_save (ops_at 0) this [] (test_world true true) in
  i_queue this = Some [{| pt_closure := contact_validator true true;
                          pt_deletedValues := [contact0] |}]
  /\ fst (fst (fst run)) = Err OutOfFuel
  /\ resolves_at_once (snd (fst (fst run))) (snd (fst run)).
Proof.
  intros this run.
  split; [ reflexivity | ]. split; [ vm_compute; reflexivity | ].
  destruct (@late_caller_is_resolved_whatever_the_outcome
              (ops_at 0) this [] (test_world true true) _ eq_refl) as [_ [_ H]].
  exact H.
Defined.

(** ** Saves that remove nothing *)




(** ** Termination of the cascade *)

(** X15. Over a registry whose references go down a rank, a delete or a
    soft delete of a document of model [m] follows cascades to a depth of
    at most the rank of [m]: with that much room for recursion it ends
    without exhausting it, and more room changes nothing to its outcome
    or to the world it leaves. *)
Theorem cascade_ends_within_rank
        (rank : string -> nat) (w : world) (fuel fuel' : nat)
        (m : string) (d : value) (flag : bool) :
  acyclic rank w ->
  rank m <= fuel -> fuel <= fuel' ->
  fst (deleteOne fuel m d w) <> Err OutOfFuel
  /\ deleteOne fuel' m d w = deleteOne fuel m d w
  /\ fst (softDelete fuel m d flag w) <> Err OutOfFuel
  /\ softDelete fuel' m d flag w = softDelete fuel m d flag w.
Proof.
  intros Hacyc Hrank Hle.
  destruct (@fuel_above_rank_suffices rank w Hacyc (S fuel) m (S fuel'))
    as [Hd Hs]; [ lia | lia | ].
  assert (Hw : same_registry w w) by (repeat split).
  destruct (Hd d w Hw) as [Heq [_ Hfuel]].
  destruct (Hs d flag w Hw) as [Heq' [_ Hfuel']].
  unfold deleteOne, softDelete.
  split; [ exact Hfuel | ]. split; [ symmetry; exact Heq | ].
  split; [ exact Hfuel' | symmetry; exact Heq' ].
Qed.

(** The chain of three models: room for two nested cascades is enough to
    delete a person. *)
Lemma cascade_ends_witness :
  acyclic chain_rank chain_world
  /\ chain_rank "Person" <= 2
  /\ deleteOne 5 "Person" parent chain_world = deleteOne 2 "Person" parent chain_world.
Proof.
  assert (Hacyc : acyclic chain_rank chain_world)
    by (apply acyclicb_sound; vm_compute; reflexivity).
  split; [ exact Hacyc | ]. split; [ vm_compute; lia | ].
  destruct (@cascade_ends_within_rank chain_rank chain_world 2 5 "Person" parent
                                      true Hacyc) as [_ [H _]].
  - vm_compute. lia.
  - lia.
  - exact H.
Defined.

(** ** The rollback of the soft-delete hook *)

Lemma field_set_field_ne (k k' : string) (v : value) (fs : list (string * value)) :
  k <> k' -> field k (set_field k' v fs) = field k fs.
Proof.
  intros Hne. induction fs as [ | [k0 x] fs IH ]; simpl.
  - apply String.eqb_neq in Hne. rewrite Hne. reflexivity.
  - destruct (String.eqb k' k0) eqn:E; simpl.
    + apply String.eqb_eq in E. subst k0.
      apply String.eqb_neq in Hne. rewrite Hne. reflexivity.
    + destruct (String.eqb k k0); [ reflexivity | exact IH ].
Qed.

Lemma doc_get_field (k : string) (fs : list (string * value)) :
  no_dot k = true -> doc_get (VObj fs) k = field k fs.
Proof.
  intros Hk. unfold doc_get, split_dot.
  rewrite (@split_dot_aux_no_dot k "") by exact Hk.
  rewrite append_nil_l, get_path_obj. apply get_path_nil.
Qed.

(** X16. The soft-delete hook runs the enforcement with the flag of the
    document and hands its outcome on.  When the outcome is a
    [SubRefConstraintError] the document comes back with [_deleted] set
    to [false] and every other field as it was; on success and on any
    other error the document comes back untouched. *)
Theorem refused_soft_delete_resets_the_flag
        (ops : doc_ops) (m : string) (fs : list (string * value)) (w : world) :
  let document := VObj fs in
  let ctx := {| ctx_softDelete := true;
                ctx_deleted := truthy (field "_deleted" fs) |} in
  let run := preSoftDelete ops m document w in
  (fst (fst run), snd run) = onDelete ops m document ctx w
  /\ (refused (fst (fst run)) = true ->
      doc_get (snd (fst run)) "_deleted" = VBool false
      /\ forall k, no_dot k = true -> k <> "_deleted" ->
                   doc_get (snd (fst run)) k = doc_get document k)
  /\ (refused (fst (fst run)) = false -> snd (fst run) = document).
Proof.
  intros document ctx run. unfold run, preSoftDelete.
  assert (Hd : doc_get document "_deleted" = field "_deleted" fs)
    by (apply doc_get_field; reflexivity).
  rewrite Hd.
  change {| ctx_softDelete := true;
            ctx_deleted := truthy (field "_deleted" fs) |} with ctx.
  destruct (onDelete ops m document ctx w) as [[u | e] w1]; cbn [fst snd].
  - split; [ reflexivity | ]. split; [ discriminate | reflexivity ].
  - split; [ reflexivity | ]. cbn [refused].
    destruct (is_constraint_error e).
    + split; [ | discriminate ]. intros _.
      unfold clear_deleted, set_deleted, document. split.
      * rewrite doc_get_field by reflexivity. apply field_set_field.
      * intros k Hk Hne. rewrite !doc_get_field by exact Hk.
        apply field_set_field_ne. exact Hne.
    + split; [ discriminate | reflexivity ].
Qed.

(** The person of the test world is referenced through a required
    reference: soft-deleting it is refused and the flag is rolled back. *)
Lemma refused_soft_delete_witness :
  let document := set_deleted true parent in
  let run := preSoftDelete (ops_at 0) "Person" document (test_world true false) in
  refused (fst (fst run)) = true
  /\ doc_get (snd (fst run)) "_deleted" = VBool false
  /\ doc_get (snd (fst run)) "contacts" = doc_get document "contacts".
Proof.
  intros document run.
  assert (Hr : refused (fst (fst run)) = true) by (vm_compute; reflexivity).
  split; [ exact Hr | ].
  destruct (@refused_soft_delete_resets_the_flag
              (ops_at 0) "Person"
              [("_id", VOid 1); ("contacts", VArr [contact0; contact1]);
               ("_deleted", VBool true)]
              (test_world true false)) as [_ [H _]].
  destruct (H Hr) as [H1 H2].
  split; [ exact H1 | ].
  apply H2; [ reflexivity | discriminate ].
Defined.

(** ** Schemas that declare no reference *)

Lemma eachPath_no_ref (st : schemaType) :
  forall modelName path w,
    declares_ref st = false -> has_untyped_array st = false ->
    eachPath modelName path st w = (Ok tt, w).
Proof.
  induction st as [ ctor options type0 required cascade
                  | ctor options type0 required cascade paths IH
                  | options required cascade ]
                    using schemaType_nested_ind;
    intros modelName path w H U; cbn [declares_ref] in H;
    [ | | discriminate ];
    apply orb_false_iff in H; destruct H as [H1 H2]; cbn [eachPath].
  - assert (He : (if String.eqb ctor "SchemaArray"
                  then match type0 with
                       | Some r => if str_truthy (raw_subRef r) then Some r else None
                       | None => None
                       end
                  else None) = None).
    { destruct (String.eqb ctor "SchemaArray"); [ | reflexivity ].
      destruct type0 as [r | ]; [ | reflexivity ].
      simpl in H1. rewrite H1. reflexivity. }
    rewrite He, H2. reflexivity.
  - assert (He : (if String.eqb ctor "SchemaArray"
                  then match type0 with
                       | Some r => if str_truthy (raw_subRef r) then Some r else None
                       | None => None
                       end
                  else None) = None).
    { destruct (String.eqb ctor "SchemaArray"); [ | reflexivity ].
      destruct type0 as [r | ]; [ | reflexivity ].
      simpl in H1. rewrite H1. reflexivity. }
    rewrite He. clear He H1. cbn [has_untyped_array] in U. revert w.
    induction IH as [ | [subPath x] paths Hx _ IHp ]; intros w.
    + reflexivity.
    + apply orb_false_iff in H2. destruct H2 as [Hx2 Hrest].
      apply orb_false_iff in U. destruct U as [Ux Urest].
      unfold bind. simpl in Hx. rewrite (Hx modelName _ w Hx2 Ux).
      apply (IHp Hrest Urest).
Qed.

(** X17. A schema that declares no reference and no array without
    element declaration, at any depth, registers nothing: [plugin]
    succeeds, makes sure the model has an entry in the registry (an entry
    that exists is kept with its descriptors), installs the hooks, and
    leaves the entries of the other models, the validators, the models
    and the store as they are.  An array without element declaration,
    [tags: []], makes [plugin] fail instead, whatever else the schema
    declares after it: reading [options.type[0].subRef] throws. *)
Theorem schema_without_references_registers_nothing
        (modelName : string) (sch : schema) (w : world) :
  forallb (fun ps => negb (declares_ref (snd ps))
                     && negb (has_untyped_array (snd ps))) sch = true ->
  let run := plugin modelName sch w in
  (fst run = Ok tt
   /\ refs (snd run) !! modelName
      = Some (match refs w !! modelName with Some l => l | None => [] end)
   /\ (forall k, k <> modelName -> refs (snd run) !! k = refs w !! k)
   /\ plugged (snd run) = plugged w ++ [modelName]
   /\ validators (snd run) = validators w
   /\ models (snd run) = models w
   /\ db (snd run) = db w)
  /\ (forall path options required cascade post,
         let failing := plugin modelName
                               (sch ++ (path, UntypedArray options required cascade)
                                    :: post) w in
         fst failing = Err (TypeError "Cannot read property subRef of undefined")
         /\ plugged (snd failing) = plugged w).
Proof.
  intros H run.
  set (w1 := match refs w !! modelName with
             | Some _ => w
             | None => with_refs (<[modelName := []]> (refs w)) w
             end).
  assert (Hloop : forall l w0,
             forallb (fun ps => negb (declares_ref (snd ps))
                                && negb (has_untyped_array (snd ps))) l = true ->
             for_each l (fun ps => eachPath modelName (fst ps) (snd ps)) w0
             = (Ok tt, w0)).
  { induction l as [ | ps l IH ]; intros w0 Hl; [ reflexivity | ].
    simpl in Hl. apply andb_true_iff in Hl. destruct Hl as [Hps Hl].
    apply andb_true_iff in Hps. destruct Hps as [Hd Hu].
    apply negb_true_iff in Hd. apply negb_true_iff in Hu.
    cbn [for_each]. unfold bind. rewrite (eachPath_no_ref _ _ _ w0 Hd Hu).
    apply IH. exact Hl. }
  assert (Hrun : run = (Ok tt, with_plugged (plugged w1 ++ [modelName]) w1)).
  { unfold run, plugin.
    rewrite (@bind_ok _ _ _ _ tt w w1) by reflexivity.
    rewrite (@bind_ok _ _ _ _ tt w1 w1) by (apply Hloop; exact H).
    reflexivity. }
  split.
  { rewrite Hrun. cbn [fst snd refs plugged validators models db with_plugged].
    unfold w1. destruct (refs w !! modelName) as [l | ] eqn:E.
    - rewrite E. repeat split; reflexivity.
    - cbn [refs plugged validators models db with_refs].
      split; [ reflexivity | ]. split; [ apply lookup_insert_eq | ].
      split; [ intros k Hk; apply lookup_insert_ne; congruence | ].
      repeat split; reflexivity. }
  intros path options required cascade post failing.
  assert (Hfail : failing
                  = (Err (TypeError "Cannot read property subRef of undefined"), w1)).
  { unfold failing, plugin.
    rewrite (@bind_ok _ _ _ _ tt w w1) by reflexivity.
    apply bind_fail.
    assert (G : forall l w0,
               forallb (fun ps => negb (declares_ref (snd ps))
                                  && negb (has_untyped_array (snd ps))) l = true ->
               for_each (l ++ (path, UntypedArray options required cascade) :: post)
                        (fun ps => eachPath modelName (fst ps) (snd ps)) w0
               = (Err (TypeError "Cannot read property subRef of undefined"), w0)).
    { induction l as [ | ps l IH ]; intros w0 Hl.
      - reflexivity.
      - simpl in Hl. apply andb_true_iff in Hl. destruct Hl as [Hps Hl].
        apply andb_true_iff in Hps. destruct Hps as [Hd Hu].
        apply negb_true_iff in Hd. apply negb_true_iff in Hu.
        cbn [app for_each]. unfold bind. rewrite (eachPath_no_ref _ _ _ w0 Hd Hu).
        apply IH. exact Hl. }
    apply G. exact H. }
  rewrite Hfail. split; [ reflexivity | ].
  unfold w1. destruct (refs w !! modelName); reflexivity.
Qed.

(** The schema of [Person] declares no reference. *)
Lemma schema_without_references_witness :
  forallb (fun ps => negb (declares_ref (snd ps))
                     && negb (has_untyped_array (snd ps))) PersonSchema = true
  /\ fst (plugin "Person" PersonSchema (registered true false)) = Ok tt
  /\ refs (snd (plugin "Person" PersonSchema (registered true false))) !! "Person"
     = Some [message_descriptor true false].
Proof.
  split; [ reflexivity | ].
  destruct (@schema_without_references_registers_nothing
              "Person" PersonSchema (registered true false) eq_refl)
    as [[H1 [H2 _]] _].
  split; [ exact H1 | ]. rewrite H2. vm_compute. reflexivity.
Defined.

(* ===================================================================== *)
(** * Asynchronous runs *)
(* ===================================================================== *)

(** ** The sequential run is the policy engine of [Engine] *)

Lemma run_seq_andThen (p k : Async.proc) (w : world) :
  Async.run_seq (Async.andThen p k) w
  = bind (Async.run_seq p) (fun _ => Async.run_seq k) w.
Proof.
  revert w. induction p as [ r | B call f IH | started k' _ IH ]
                            using proc_nested_ind; intros w.
  - destruct r as [ [] | e ]; reflexivity.
  - cbn [Async.andThen Async.run_seq]. unfold bind.
    destruct (call w) as [[b | e] w1]; [ | reflexivity ].
    rewrite IH. reflexivity.
  - cbn [Async.andThen Async.run_seq]. unfold bind.
    destruct (promise_all (List.map Async.run_seq started) w) as [[u | e] w1];
      [ | reflexivity ].
    rewrite IH. reflexivity.
Qed.

Lemma run_seq_for_each {A} (l : list A) (f : A -> Async.proc) (w : world) :
  Async.run_seq (Async.for_each l f) w
  = for_each l (fun x => Async.run_seq (f x)) w.
Proof.
  revert w. induction l as [ | x l IH ]; intros w; [ reflexivity | ].
  cbn [Async.for_each for_each]. rewrite run_seq_andThen. unfold bind.
  destruct (Async.run_seq (f x) w) as [[u | e] w1]; [ apply IH | reflexivity ].
Qed.

Lemma run_seq_onDeleteConditions (aops : Async.doc_ops) (ops : doc_ops)
      (rt : refType) (modelRef pathRef modelSubRef pathSubRef : string)
      (vals : list value) (bound : value) (ctx : delete_ctx) (w : world) :
  (forall m d w1, Async.run_seq (Async.op_deleteOne aops m d) w1
                  = op_deleteOne ops m d w1) ->
  (forall m d flag w1, Async.run_seq (Async.op_softDelete aops m d flag) w1
                       = op_softDelete ops m d flag w1) ->
  Async.run_seq (Async.onDeleteConditions aops rt modelRef pathRef modelSubRef
                                          pathSubRef vals bound ctx) w
  = onDeleteConditions ops rt modelRef pathRef modelSubRef pathSubRef
                       vals bound ctx w.
Proof.
  intros Hd Hs. unfold Async.onDeleteConditions, onDeleteConditions.
  destruct (rt_required rt); [ destruct (rt_cascade rt) | ].
  - unfold Async.onDeleteCascade, onDeleteCascade. cbn [Async.run_seq]. unfold bind.
    destruct (model modelRef w) as [[sch | e] w1]; [ | reflexivity ].
    cbn [fst snd].
    destruct (find modelRef _ w1) as [[documents | e] w2]; [ | reflexivity ].
    destruct (ctx_softDelete ctx); rewrite List.map_map.
    + rewrite (@promise_all_map_ext _ documents _
                 (fun doc => op_softDelete ops modelRef doc (ctx_deleted ctx)))
        by (intros; apply Hs).
      destruct (promise_all _ w2) as [[[] | e] w3]; reflexivity.
    + rewrite (@promise_all_map_ext _ documents _
                 (fun doc => op_deleteOne ops modelRef doc))
        by (intros; apply Hd).
      destruct (promise_all _ w2) as [[[] | e] w3]; reflexivity.
  - unfold Async.onDeleteBlock, onDeleteBlock.
    destruct (negb (ctx_softDelete ctx) || ctx_deleted ctx); [ | reflexivity ].
    cbn [Async.run_seq]. unfold bind.
    destruct (model modelRef w) as [[sch | e] w1]; [ | reflexivity ].
    destruct (findOne modelRef _ w1) as [[doc | e] w2]; [ | reflexivity ].
    destruct (truthy doc); reflexivity.
  - unfold Async.onDeleteSetNull, onDeleteSetNull.
    destruct (negb (ctx_softDelete ctx)); [ | reflexivity ].
    cbn [Async.run_seq]. unfold bind.
    destruct (model modelRef w) as [[sch | e] w1]; [ | reflexivity ].
    destruct (lift _ w1) as [[ua | e] w2]; [ | reflexivity ].
    destruct (updateMany modelRef _ (fst ua) (snd ua) w2) as [[[] | e] w3];
      reflexivity.
Qed.

Lemma run_seq_onDelete (aops : Async.doc_ops) (ops : doc_ops)
      (modelName : string) (document : value) (ctx : delete_ctx) (w : world) :
  (forall m d w1, Async.run_seq (Async.op_deleteOne aops m d) w1
                  = op_deleteOne ops m d w1) ->
  (forall m d flag w1, Async.run_seq (Async.op_softDelete aops m d flag) w1
                       = op_softDelete ops m d flag w1) ->
  Async.run_seq (Async.onDelete aops modelName document ctx) w
  = onDelete ops modelName document ctx w.
Proof.
  intros Hd Hs. unfold Async.onDelete, onDelete. cbn [Async.run_seq].
  unfold Async.read_refs.
  destruct (refs w !! modelName) as [ ds | ]; [ | reflexivity ].
  rewrite run_seq_for_each. apply for_each_ext. intros d w1.
  unfold Async.onDelete_step, onDelete_step.
  destruct (rt_options (d_schemaType d)) as [ o | ]; [ | reflexivity ].
  destruct (subRef o) as [ sr | ]; [ | reflexivity ].
  cbn [Async.run_seq]. unfold bind.
  destruct (lift _ w1) as [[vals | e] w2]; [ | reflexivity ].
  apply run_seq_onDeleteConditions; assumption.
Qed.

Lemma run_seq_when_plugged (m : string) (hook : Async.proc) (h : M unit)
      (w : world) :
  (forall w1, Async.run_seq hook w1 = h w1) ->
  Async.run_seq (Async.when_plugged m hook) w = when_plugged m h w.
Proof.
  intros H. unfold Async.when_plugged, when_plugged. cbn [Async.run_seq].
  destruct (is_plugged m w); [ apply H | reflexivity ].
Qed.

(** The document methods of [Async], run with every started operation
    going to its end before another one moves, are those of [ops_at]. *)
Lemma run_seq_ops_at (n : nat) :
  (forall m d w, Async.run_seq (Async.op_deleteOne (Async.ops_at n) m d) w
                 = op_deleteOne (ops_at n) m d w)
  /\ (forall m d flag w,
         Async.run_seq (Async.op_softDelete (Async.ops_at n) m d flag) w
         = op_softDelete (ops_at n) m d flag w).
Proof.
  induction n as [ | n [IHd IHs] ]; [ split; reflexivity | ].
  assert (Hrm : forall m d (hook : Async.proc) (h : M unit) w,
             (forall w1, Async.run_seq hook w1 = h w1) ->
             Async.run_seq
               (Async.andThen (Async.when_plugged m hook)
                              (Async.Await (remove_doc m d)
                                           (fun _ => Async.Done (Ok tt)))) w
             = bind (when_plugged m h) (fun _ => remove_doc m d) w).
  { intros m d hook h w H. rewrite run_seq_andThen. unfold bind.
    rewrite (@run_seq_when_plugged m hook h w H).
    destruct (when_plugged m h w) as [[u | e] w1]; reflexivity. }
  split.
  - intros m d w. cbn [Async.ops_at Async.op_deleteOne ops_at op_deleteOne
                                    Async.run_seq].
    unfold bind at 1. cbn [emit].
    apply Hrm. intros w1. apply run_seq_onDelete; assumption.
  - intros m d flag w.
    cbn [Async.ops_at Async.op_softDelete ops_at op_softDelete Async.run_seq].
    unfold bind at 1. cbn [emit].
    destruct (flag && truthy (doc_get d "_deleted")).
    + cbn [Async.run_seq]. unfold bind at 1. cbn [emit].
      apply Hrm. intros w1. apply run_seq_onDelete; assumption.
    + rewrite run_seq_andThen. unfold bind.
      rewrite (@run_seq_when_plugged m _
                 (onDelete (ops_at n) m (set_deleted flag d)
                           {| ctx_softDelete := true; ctx_deleted := flag |}))
        by (intros w1; apply run_seq_onDelete; assumption).
      destruct (when_plugged m _ _) as [[u | e] w1]; reflexivity.
Qed.

(** ** Runs *)

Lemma steps_trans (t : Async.thread) (w : world) (t1 : Async.thread) (w1 : world)
      (t2 : Async.thread) (w2 : world) :
  Async.steps t w t1 w1 -> Async.steps t1 w1 t2 w2 -> Async.steps t w t2 w2.
Proof.
  intros H. induction H as [ | t w ta wa tb wb Hs _ IH ]; intros H2.
  - exact H2.
  - eapply Async.steps_step; [ exact Hs | apply IH, H2 ].
Qed.

Lemma steps_one (t : Async.thread) (w : world) (t1 : Async.thread) (w1 : world) :
  Async.step t w t1 w1 -> Async.steps t w t1 w1.
Proof.
  intros H. eapply Async.steps_step; [ exact H | apply Async.steps_refl ].
Qed.

Lemma steps_child (cs1 : list Async.thread) (c c' : Async.thread)
      (cs2 : list Async.thread) (k : Async.proc) (w w' : world) :
  Async.steps c w c' w' ->
  Async.steps (Async.Wait (cs1 ++ c :: cs2) k) w
              (Async.Wait (cs1 ++ c' :: cs2) k) w'.
Proof.
  intros H. induction H as [ | t w ta wa tb wb Hs _ IH ].
  - apply Async.steps_refl.
  - eapply Async.steps_step; [ apply Async.step_child, Hs | exact IH ].
Qed.

Lemma outcome_finished_ok (t : Async.thread) (u : unit) :
  Async.outcome t = Some (Ok u) -> Async.finished_ok t = true.
Proof.
  destruct t as [ [ [ [] | e ] | | ] | | ]; simpl; intros H;
    try discriminate; reflexivity.
Qed.

Lemma outcome_failure (t : Async.thread) (e : error) :
  Async.outcome t = Some (Err e) -> Async.failure t = Some e.
Proof.
  destruct t as [ [ [ [] | e' ] | | ] | | ]; simpl; intros H;
    try discriminate; injection H as ->; reflexivity.
Qed.

(** The operations awaited together can run one after the other, each
    to its end. *)
Lemma steps_children_in_turn (started : list Async.proc) :
  Forall (fun p => forall w, exists t',
              Async.steps (Async.Run p) w t' (snd (Async.run_seq p w))
              /\ Async.outcome t' = Some (fst (Async.run_seq p w))) started ->
  forall (done : list Async.thread) (k : Async.proc) (w : world),
  exists cs',
    Async.steps (Async.Wait (done ++ List.map Async.Run started) k) w
                (Async.Wait (done ++ cs') k)
                (world_after (List.map Async.run_seq started) w)
    /\ List.map Async.outcome cs'
       = List.map Some (outcomes (List.map Async.run_seq started) w).
Proof.
  intros H. induction H as [ | p rest Hp _ IH ]; intros done k w.
  - exists []. split; [ apply Async.steps_refl | reflexivity ].
  - destruct (Hp w) as [t' [Hs Ho]].
    destruct (IH (done ++ [t']) k (snd (Async.run_seq p w))) as [cs' [Hs' Ho']].
    exists (t' :: cs'). split.
    + cbn [List.map]. eapply steps_trans.
      * apply steps_child, Hs.
      * rewrite <- !app_assoc in Hs'. exact Hs'.
    + cbn [List.map outcomes]. rewrite Ho, Ho'. reflexivity.
Qed.

Lemma all_succeeded (cs : list Async.thread) (rs : list (result unit)) :
  List.map Async.outcome cs = List.map Some rs ->
  first_failure rs = Ok tt ->
  forallb Async.finished_ok cs = true.
Proof.
  revert rs. induction cs as [ | c cs IH ]; intros [ | r rs ] H Hf;
    try discriminate; [ reflexivity | ].
  cbn [List.map] in H. injection H as Hc Hcs.
  destruct r as [ u | e ]; [ | discriminate ].
  cbn [forallb]. rewrite (@outcome_finished_ok _ _ Hc). apply (IH rs Hcs Hf).
Qed.

Lemma one_failed (cs : list Async.thread) (rs : list (result unit)) (e : error) :
  List.map Async.outcome cs = List.map Some rs ->
  first_failure rs = Err e ->
  exists c, In c cs /\ Async.failure c = Some e.
Proof.
  revert rs. induction cs as [ | c cs IH ]; intros [ | r rs ] H Hf;
    try discriminate.
  cbn [List.map] in H. injection H as Hc Hcs.
  destruct r as [ u | e' ].
  - destruct (IH rs Hcs Hf) as [c' [Hin Hc']].
    exists c'. split; [ right; exact Hin | exact Hc' ].
  - injection Hf as ->. exists c. split; [ left; reflexivity | ].
    apply outcome_failure, Hc.
Qed.

(** The run in which every started operation goes to its end before
    another one moves is one of the runs of the event loop. *)
Lemma run_seq_is_a_run (p : Async.proc) (w : world) :
  exists t',
    Async.steps (Async.Run p) w t' (snd (Async.run_seq p w))
    /\ Async.outcome t' = Some (fst (Async.run_seq p w)).
Proof.
  revert w. induction p as [ r | B call f IH | started k IHs IHk ]
                            using proc_nested_ind; intros w.
  - exists (Async.Run (Async.Done r)). split; [ apply Async.steps_refl | reflexivity ].
  - cbn [Async.run_seq].
    assert (Hstep := @Async.step_run (Async.Await call f) w eq_refl).
    cbn [Async.run_step] in Hstep.
    destruct (call w) as [[b | e] w1]; cbn [fst snd] in Hstep.
    + destruct (IH b w1) as [t' [Hs Ho]].
      exists t'. split; [ | exact Ho ].
      eapply Async.steps_step; [ exact Hstep | exact Hs ].
    + exists (Async.Run (Async.Done (Err e))).
      split; [ apply steps_one, Hstep | reflexivity ].
  - cbn [Async.run_seq]. unfold bind. rewrite promise_all_spec.
    assert (Hstep := @Async.step_run (Async.AwaitAll started k) w eq_refl).
    cbn [Async.run_step fst snd] in Hstep.
    destruct (@steps_children_in_turn started IHs [] k w) as [cs' [Hs Ho]].
    cbn [app] in Hs.
    destruct (first_failure (outcomes (List.map Async.run_seq started) w))
      as [ [] | e ] eqn:Hf.
    + destruct (IHk (world_after (List.map Async.run_seq started) w))
        as [t' [Hs' Ho']].
      exists t'. split; [ | exact Ho' ].
      eapply Async.steps_step; [ exact Hstep | ].
      eapply steps_trans; [ exact Hs | ].
      eapply Async.steps_step; [ | exact Hs' ].
      apply Async.step_resolve. apply (@all_succeeded _ _ Ho Hf).
    + destruct (@one_failed _ _ _ Ho Hf) as [c [Hin Hc]].
      exists (Async.Rejected e cs'). split; [ | reflexivity ].
      eapply Async.steps_step; [ exact Hstep | ].
      eapply steps_trans; [ exact Hs | ].
      apply steps_one. eapply Async.step_reject; eassumption.
Qed.

(** ** Invariants of runs *)

Section Invariants.

Variable I : world -> Prop.















End Invariants.

(** ** The errors of runs *)

Section Errors.

Variable E : error -> Prop.
Variable I : world -> Prop.












End Errors.

(** ** Documents held by a chain of references *)





Section HeldChain.

Variable w0 : world.
Variable L : list (string * value).
Hypothesis HL : List.NoDup (List.map fst L).

Lemma chain_inv_log (l : list event) (w : world) :
  chain_inv w0 L w -> chain_inv w0 L (with_log l w).
Proof. intros H. exact H. Qed.












End HeldChain.

(** ** The cascade *)









(* ===================================================================== *)
(** * Registration *)
(* ===================================================================== *)










(* ===================================================================== *)
(** * Set-null below any nesting *)
(* ===================================================================== *)

Lemma update_at_scalar (u : update) (af : option array_filter) (v : value)
      (toks : list string) :
  match v with VObj _ | VArr _ => False | _ => True end ->
  update_at u af v toks = v.
Proof.
  intros H. destruct toks as [ | t [ | t' r ] ];
    destruct v; try reflexivity; destruct H.
Qed.

Lemma update_at_obj (u : update) (af : option array_filter)
      (fs : list (string * value)) (tok : string) (T : list string) :
  T <> [] ->
  update_at u af (VObj fs) (tok :: T)
  = VObj (List.map (fun kx => (fst kx,
                               if String.eqb tok (fst kx)
                               then update_at u af (snd kx) T
                               else snd kx)) fs).
Proof.
  intros HT. destruct T as [ | t T' ]; [ congruence | ].
  cbn [update_at]. f_equal.
  induction fs as [ | [k x] fs IH ]; [ reflexivity | ].
  cbn [List.map fst snd]. rewrite IH. reflexivity.
Qed.

Lemma field_updated (u : update) (af : option array_filter)
      (fs : list (string * value)) (s : string) (T : list string) :
  field s (List.map (fun kx => (fst kx,
                                if String.eqb s (fst kx)
                                then update_at u af (snd kx) T
                                else snd kx)) fs)
  = update_at u af (field s fs) T.
Proof.
  induction fs as [ | [k x] fs IH ].
  - cbn [List.map field]. symmetry. apply update_at_scalar. exact Logic.I.
  - cbn [List.map field fst snd]. destruct (String.eqb s k); [ reflexivity | exact IH ].
Qed.

Lemma candidates_scalar (v : value) (s : string) (P : list string) :
  match v with VObj _ | VArr _ => False | _ => True end ->
  candidates v (s :: P) = [].
Proof. intros H. destruct v; try reflexivity; destruct H. Qed.

Lemma candidates_obj_cons (fs : list (string * value)) (s : string)
      (P : list string) :
  P <> [] -> candidates (VObj fs) (s :: P) = candidates (field s fs) P.
Proof.
  intros HP. destruct P as [ | p P ]; [ congruence | ].
  cbn [candidates].
  induction fs as [ | [k x] fs IH ]; [ reflexivity | ].
  cbn [field]. destruct (String.eqb s k); [ reflexivity | exact IH ].
Qed.

Lemma candidates_terminal (fs : list (string * value)) (k : string) :
  (candidates (VObj fs) [k] = [] /\ field k fs = VUndef)
  \/ candidates (VObj fs) [k]
     = field k fs :: match field k fs with VArr l => l | _ => [] end.
Proof.
  cbn [candidates].
  induction fs as [ | [k' x] fs IH ]; [ left; split; reflexivity | ].
  cbn [field]. destruct (String.eqb k k'); [ right; destruct x; reflexivity | exact IH ].
Qed.

Lemma candidates_arr (l : list value) (P : list string) :
  P <> [] ->
  candidates (VArr l) P
  = flat_map (fun e => match e with
                       | VObj _ => candidates e P
                       | _ => []
                       end) l.
Proof.
  intros HP. destruct P as [ | s P ]; [ congruence | ].
  cbn [candidates].
  induction l as [ | e l IH ]; [ reflexivity | ].
  cbn [flat_map]. rewrite IH. reflexivity.
Qed.

Lemma in_candidates_of_elements (g : value -> value) (l : list value)
      (P : list string) (c : value) :
  (forall e, In e l -> exists fs fs', e = VObj fs /\ g e = VObj fs') ->
  In c (flat_map (fun e => match e with
                           | VObj _ => candidates e P
                           | _ => []
                           end) (List.map g l))
  <-> exists e, In e l /\ In c (candidates (g e) P).
Proof.
  intros Hobj. rewrite in_flat_map. split.
  - intros [e' [He' Hc]]. apply in_map_iff in He'. destruct He' as [e [<- He]].
    exists e. split; [ exact He | ].
    destruct (Hobj e He) as [fs [fs' [_ Hg]]]. rewrite Hg in Hc |- *. exact Hc.
  - intros [e [He Hc]]. exists (g e). split; [ apply in_map, He | ].
    destruct (Hobj e He) as [fs [fs' [_ Hg]]]. rewrite Hg in Hc |- *. exact Hc.
Qed.

Lemma update_at_all (u : update) (af : option array_filter) (l : list value)
      (T : list string) :
  T <> [] ->
  update_at u af (VArr l) ("$[]" :: T)
  = VArr (List.map (fun x => update_at u af x T) l).
Proof.
  intros HT. destruct T as [ | t T' ]; [ congruence | ].
  reflexivity.
Qed.

Lemma update_at_some (u : update) (af : option array_filter) (l : list value)
      (T : list string) :
  T <> [] ->
  update_at u af (VArr l) ("$[j]" :: T)
  = VArr (List.map (fun x => if filter_holds af x then update_at u af x T else x) l).
Proof.
  intros HT. destruct T as [ | t T' ]; [ congruence | ].
  reflexivity.
Qed.

Lemma update_at_obj_is_obj (u : update) (af : option array_filter)
      (fs : list (string * value)) (toks : list string) :
  exists fs', update_at u af (VObj fs) toks = VObj fs'.
Proof.
  destruct toks as [ | t [ | t' r ] ]; cbn [update_at]; eexists; reflexivity.
Qed.

Lemma shaped_is_obj (pre : list string) (info : list bool) (final : string)
      (arr : bool) (v : value) :
  shaped pre info final arr v = true -> exists fs, v = VObj fs.
Proof.
  destruct pre; destruct v; cbn [shaped]; intros H; try discriminate; eauto.
Qed.

Lemma none_true (info : list bool) :
  forallb negb info = negb (existsb (fun x => x) info).
Proof.
  induction info as [ | b info IH ]; [ reflexivity | ].
  cbn [forallb existsb]. rewrite IH. destruct b; reflexivity.
Qed.

Lemma in_values_none (vals : list value) (l : list value) (c : value) :
  existsb (in_values vals) l = false -> In c l -> in_values vals c = false.
Proof.
  intros H Hin. destruct (in_values vals c) eqn:E; [ | reflexivity ].
  assert (Ht : existsb (in_values vals) l = true)
    by (apply existsb_exists; eauto).
  congruence.
Qed.

Section Reach.

Variable u : update.
Variable af : option array_filter.
Variable vals : list value.
Variable final : string.
Variable arr : bool.
Variable L : option nat.

Hypothesis Hu : forall k fs,
    update_terminal u k fs
    = if arr
      then match field k fs with
           | VArr l =>
               set_field k (VArr (List.filter (fun x => negb (in_values vals x)) l)) fs
           | _ => fs
           end
      else set_field k VNull fs.

(** The update, token by token, on a document shaped by its schema: what
    the query reads at the path afterwards is what it read before and
    that is no removed value, or [null] on a scalar field, or the pulled
    array on an array of references; and what it read before that was no
    removed value is still read. *)
Lemma update_reaches (pre : list string) :
  forall (info : list bool) (i : nat) (v : value),
    List.length pre = List.length info ->
    (forall k, nth k info false = true ->
               opt_nat_is L (i + k) = forallb negb (skipn (S k) info)) ->
    (existsb (fun x => x) info = true ->
     forall x, filter_holds af x
               = existsb (in_values vals)
                         (candidates x (after_last_true pre info ++ [final]))) ->
    shaped pre info final arr v = true ->
    let v' := update_at u af v (path_tokens i pre info L ++ [final]) in
    (forall c, In c (candidates v' (pre ++ [final])) ->
               (In c (candidates v (pre ++ [final])) /\ in_values vals c = false)
               \/ (arr = false /\ c = VNull)
               \/ (arr = true /\ is_array c = true))
    /\ ((existsb (fun x => x) info = true
         \/ existsb (in_values vals) (candidates v (pre ++ [final])) = true) ->
        forall c, In c (candidates v (pre ++ [final])) ->
                  in_values vals c = false -> is_array c = false ->
                  In c (candidates v' (pre ++ [final]))).
Proof.
  induction pre as [ | s pre' IH ]; intros info i v Hlen HL Hf Hsh; cbv zeta.
  - (* the terminal field *)
    destruct info; [ | discriminate ].
    destruct (shaped_is_obj _ _ _ _ _ Hsh) as [fs ->].
    cbn [shaped] in Hsh. apply Bool.eqb_prop in Hsh.
    cbn [path_tokens app update_at]. rewrite Hu.
    destruct arr.
    + destruct (field final fs) as [ | | x | x | x | x | l | gs ] eqn:Ef;
        try discriminate Hsh.
      rewrite candidates_set_field.
      destruct (candidates_terminal fs final) as [[_ Hn] | Hc];
        [ rewrite Ef in Hn; discriminate | ].
      rewrite Hc, Ef. split.
      * intros c [<- | Hin]; [ right; right; split; reflexivity | ].
        apply filter_In in Hin. destruct Hin as [Hin Hno].
        apply negb_true_iff in Hno.
        left. split; [ right; exact Hin | exact Hno ].
      * intros _ c [<- | Hin] Hno Harr; [ discriminate Harr | ].
        right. apply filter_In. split; [ exact Hin | ].
        rewrite Hno. reflexivity.
    + rewrite candidates_set_field. split.
      * intros c [<- | []]. right. left. split; reflexivity.
      * intros [Hg | Hg]; [ discriminate Hg | ].
        intros c Hin Hno Harr. exfalso.
        destruct (candidates_terminal fs final) as [[Hn _] | Hc].
        -- rewrite Hn in Hin. destruct Hin.
        -- rewrite Hc in Hin, Hg.
           destruct (field final fs) as [ | | x | x | x | x | l | gs ];
             try discriminate Hsh;
             (destruct Hin as [<- | []]; cbn [existsb] in Hg;
              rewrite Hno in Hg; discriminate).
  - (* a segment on the way *)
    destruct info as [ | b info' ]; [ discriminate | ].
    injection Hlen as Hlen.
    destruct (shaped_is_obj _ _ _ _ _ Hsh) as [fs ->].
    cbn [shaped] in Hsh. cbn [path_tokens].
    set (pt := path_tokens (S i) pre' info' L) in *.
    set (P := pre' ++ [final]).
    assert (HP : P <> []) by (unfold P; destruct pre'; discriminate).
    assert (HLs : forall k, nth k info' false = true ->
                            opt_nat_is L (S i + k)
                            = forallb negb (skipn (S k) info')).
    { intros k Hk. specialize (HL (S k) Hk).
      rewrite Nat.add_succ_r in HL. exact HL. }
    assert (Hfs : existsb (fun x => x) info' = true ->
                  forall x, filter_holds af x
                            = existsb (in_values vals)
                                      (candidates x (after_last_true pre' info'
                                                       ++ [final]))).
    { intros He x.
      assert (Hb : existsb (fun x => x) (b :: info') = true)
        by (cbn [existsb]; rewrite He; apply orb_true_r).
      rewrite (Hf Hb x). cbn [after_last_true]. rewrite He. reflexivity. }
    change ((s :: pre') ++ [final]) with (s :: P).
    set (T := (if b
               then [if opt_nat_is L i then "$[j]" else "$[]"]
               else []) ++ pt).
    change ((s :: T) ++ [final]) with (s :: (T ++ [final])).
    assert (HT : T ++ [final] <> []) by (destruct T; discriminate).
    rewrite (update_at_obj u af fs s HT).
    rewrite !(candidates_obj_cons _ s HP), field_updated.
    destruct (field s fs) as [ | | x | x | x | x | l | gs ] eqn:Ex.
    + rewrite update_at_scalar by exact Logic.I.
      destruct P; [ congruence | ]. split; [ intros c [] | intros _ c [] ].
    + rewrite update_at_scalar by exact Logic.I.
      destruct P; [ congruence | ]. split; [ intros c [] | intros _ c [] ].
    + apply andb_true_iff in Hsh. destruct Hsh as [_ Hsh].
      destruct (shaped_is_obj _ _ _ _ _ Hsh) as [fs0 E]. discriminate E.
    + apply andb_true_iff in Hsh. destruct Hsh as [_ Hsh].
      destruct (shaped_is_obj _ _ _ _ _ Hsh) as [fs0 E]. discriminate E.
    + apply andb_true_iff in Hsh. destruct Hsh as [_ Hsh].
      destruct (shaped_is_obj _ _ _ _ _ Hsh) as [fs0 E]. discriminate E.
    + apply andb_true_iff in Hsh. destruct Hsh as [_ Hsh].
      destruct (shaped_is_obj _ _ _ _ _ Hsh) as [fs0 E]. discriminate E.
    + (* a document array *)
      apply andb_true_iff in Hsh. destruct Hsh as [Hb Hall]. subst b.
      rewrite forallb_forall in Hall.
      assert (Hm : opt_nat_is L i = forallb negb info').
      { specialize (HL 0 eq_refl). rewrite Nat.add_0_r in HL. exact HL. }
      unfold T. rewrite Hm.
      assert (Hpt : pt ++ [final] <> []) by (destruct pt; discriminate).
      rewrite !(candidates_arr _ HP).
      destruct (forallb negb info') eqn:En.
      * (* the last one: the elements the filter selects *)
        assert (Hnone : existsb (fun x => x) info' = false).
        { rewrite none_true in En. apply negb_true_iff in En. exact En. }
        assert (Hfilter : forall x, filter_holds af x
                                    = existsb (in_values vals) (candidates x P)).
        { intros x. rewrite (Hf eq_refl x). cbn [after_last_true].
          rewrite Hnone. reflexivity. }
        change (([ "$[j]" ] ++ pt) ++ [final]) with ("$[j]" :: (pt ++ [final])).
        rewrite (update_at_some u af l Hpt).
        set (g := fun x => if filter_holds af x
                           then update_at u af x (pt ++ [final]) else x).
        rewrite (candidates_arr (List.map g l) HP).
        assert (Hobj : forall e, In e l ->
                                 exists fs0 fs', e = VObj fs0 /\ g e = VObj fs').
        { intros e He. destruct (shaped_is_obj _ _ _ _ _ (Hall e He)) as [fs0 ->].
          unfold g. destruct (filter_holds af (VObj fs0)).
          - destruct (update_at_obj_is_obj u af fs0 (pt ++ [final])) as [fs' ->].
            eauto.
          - eauto. }
        assert (Hid : forall e, In e l -> exists fs0 fs', e = VObj fs0
                                                       /\ (fun x : value => x) e = VObj fs').
        { intros e He. destruct (shaped_is_obj _ _ _ _ _ (Hall e He)) as [fs0 ->].
          eauto. }
        split.
        -- intros c Hc. apply (in_candidates_of_elements g l P c Hobj) in Hc.
           destruct Hc as [e [He Hc]]. unfold g in Hc.
           destruct (filter_holds af e) eqn:Efl.
           ++ destruct (IH info' (S i) e Hlen HLs Hfs (Hall e He)) as [HN _].
              destruct (HN c Hc) as [[Hin Hno] | Hfresh]; [ | right; exact Hfresh ].
              left. split; [ | exact Hno ].
              rewrite <- (map_id l).
              apply (in_candidates_of_elements (fun x => x) l P c Hid).
              exists e. split; assumption.
           ++ left. split.
              ** rewrite <- (map_id l).
                 apply (in_candidates_of_elements (fun x => x) l P c Hid).
                 exists e. split; assumption.
              ** rewrite Hfilter in Efl. apply (in_values_none _ _ _ Efl Hc).
        -- intros _ c Hc Hno Harr.
           rewrite <- (map_id l) in Hc.
           apply (in_candidates_of_elements (fun x => x) l P c Hid) in Hc.
           destruct Hc as [e [He Hc]].
           apply (in_candidates_of_elements g l P c Hobj).
           exists e. split; [ exact He | ]. unfold g.
           destruct (filter_holds af e) eqn:Efl; [ | exact Hc ].
           destruct (IH info' (S i) e Hlen HLs Hfs (Hall e He)) as [_ HK].
           apply HK; try assumption.
           right. rewrite <- Hfilter. exact Efl.
      * (* an earlier one: every element *)
        assert (Hsome : existsb (fun x => x) info' = true).
        { rewrite none_true in En. apply negb_false_iff in En. exact En. }
        change (([ "$[]" ] ++ pt) ++ [final]) with ("$[]" :: (pt ++ [final])).
        rewrite (update_at_all u af l Hpt).
        set (g := fun x => update_at u af x (pt ++ [final])).
        rewrite (candidates_arr (List.map g l) HP).
        assert (Hobj : forall e, In e l ->
                                 exists fs0 fs', e = VObj fs0 /\ g e = VObj fs').
        { intros e He. destruct (shaped_is_obj _ _ _ _ _ (Hall e He)) as [fs0 ->].
          unfold g.
          destruct (update_at_obj_is_obj u af fs0 (pt ++ [final])) as [fs' ->].
          eauto. }
        assert (Hid : forall e, In e l -> exists fs0 fs', e = VObj fs0
                                                       /\ (fun x : value => x) e = VObj fs').
        { intros e He. destruct (shaped_is_obj _ _ _ _ _ (Hall e He)) as [fs0 ->].
          eauto. }
        split.
        -- intros c Hc. apply (in_candidates_of_elements g l P c Hobj) in Hc.
           destruct Hc as [e [He Hc]]. unfold g in Hc.
           destruct (IH info' (S i) e Hlen HLs Hfs (Hall e He)) as [HN _].
           destruct (HN c Hc) as [[Hin Hno] | Hfresh]; [ | right; exact Hfresh ].
           left. split; [ | exact Hno ].
           rewrite <- (map_id l).
           apply (in_candidates_of_elements (fun x => x) l P c Hid).
           exists e. split; assumption.
        -- intros _ c Hc Hno Harr.
           rewrite <- (map_id l) in Hc.
           apply (in_candidates_of_elements (fun x => x) l P c Hid) in Hc.
           destruct Hc as [e [He Hc]].
           apply (in_candidates_of_elements g l P c Hobj).
           exists e. split; [ exact He | ]. unfold g.
           destruct (IH info' (S i) e Hlen HLs Hfs (Hall e He)) as [_ HK].
           apply HK; try assumption. left. exact Hsome.
    + (* a nested object *)
      apply andb_true_iff in Hsh. destruct Hsh as [Hb Hsh].
      apply negb_true_iff in Hb. subst b.
      unfold T. cbn [app].
      destruct (IH info' (S i) (VObj gs) Hlen HLs Hfs Hsh) as [HN HK].
      split; [ exact HN | ].
      intros Hg. apply HK. cbn [existsb orb] in Hg. exact Hg.
Qed.

End Reach.

(** ** What [getUpdateQueryObjectFor] builds, read on documents *)

Lemma forallb_negb_nth (l : list bool) :
  forallb negb l = true <-> forall i, nth i l false = false.
Proof.
  induction l as [ | b l IH ].
  - split; [ intros _ [ | i ]; reflexivity | reflexivity ].
  - cbn [forallb]. rewrite andb_true_iff, IH. split.
    + intros [Hb H] [ | i ]; [ destruct b; [ discriminate | reflexivity ] | apply H ].
    + intros H. split; [ specialize (H 0); cbn in H; rewrite H; reflexivity | ].
      intros i. apply (H (S i)).
Qed.

Lemma nth_skipn_add (l : list bool) (n i : nat) :
  nth i (skipn n l) false = nth (n + i) l false.
Proof.
  revert l. induction n as [ | n IH ]; intros l; [ reflexivity | ].
  destruct l as [ | b l ]; [ destruct i; reflexivity | ].
  cbn [skipn Nat.add nth]. apply IH.
Qed.

(** The positional operator after a document array is [$[j]] exactly
    when no document array follows. *)
Lemma marker_is_last (info : list bool) (k : nat) :
  nth k info false = true ->
  opt_nat_is (last_doc_array info) (0 + k) = forallb negb (skipn (S k) info).
Proof.
  intros Hk. cbn [Nat.add].
  destruct (last_doc_array_spec info) as [[_ Hall] | [j [Hj [Htrue Hafter]]]].
  { rewrite (all_false_nth info k Hall) in Hk. discriminate. }
  rewrite Hj. cbn [opt_nat_is].
  destruct (Nat.eqb k j) eqn:E.
  - apply Nat.eqb_eq in E. subst k. symmetry. apply forallb_negb_nth.
    intros i. rewrite nth_skipn_add. apply Hafter. lia.
  - apply Nat.eqb_neq in E.
    assert (Hlt : k < j).
    { destruct (Nat.lt_ge_cases j k) as [H | H]; [ | lia ].
      rewrite (Hafter k H) in Hk. discriminate. }
    destruct (forallb negb (skipn (S k) info)) eqn:Ef; [ | reflexivity ].
    rewrite forallb_negb_nth in Ef. specialize (Ef (j - S k)).
    rewrite nth_skipn_add in Ef.
    replace (S k + (j - S k)) with j in Ef by lia. congruence.
Qed.

Lemma existsb_nth_true (info : list bool) (j : nat) :
  nth j info false = true -> existsb (fun x => x) info = true.
Proof.
  revert j. induction info as [ | b info IH ]; intros j H;
    [ destruct j; discriminate | ].
  cbn [existsb]. destruct j; [ cbn in H; rewrite H; reflexivity | ].
  rewrite (IH j H). apply orb_true_r.
Qed.

Lemma after_last_true_skipn (pre : list string) :
  forall (info : list bool) (j : nat),
    List.length pre = List.length info ->
    nth j info false = true ->
    (forall i, j < i -> nth i info false = false) ->
    after_last_true pre info = skipn (S j) pre.
Proof.
  induction pre as [ | s pre IH ]; intros info j Hlen Hj Hafter.
  - destruct info; [ destruct j; discriminate | discriminate ].
  - destruct info as [ | b info ]; [ discriminate | ].
    injection Hlen as Hlen. cbn [after_last_true].
    destruct j as [ | j ].
    + cbn in Hj. subst b.
      assert (Hnone : existsb (fun x => x) info = false).
      { destruct (existsb (fun x => x) info) eqn:E; [ | reflexivity ].
        assert (Hall : forallb negb info = true).
        { apply forallb_negb_nth. intros i. apply (Hafter (S i)). lia. }
        rewrite none_true, E in Hall. discriminate. }
      rewrite Hnone. reflexivity.
    + cbn [nth] in Hj. rewrite (@existsb_nth_true info j Hj).
      cbn [skipn]. apply IH; [ exact Hlen | exact Hj | ].
      intros i Hi. apply (Hafter (S i)). lia.
Qed.

(** C3. Under a descriptor with [required = false], enforcement is
    set-null.  On a soft delete it does nothing at all: the world is the
    same.  On a hard delete it makes one [updateMany] call on the
    referencing collection, with the find query; only the documents the
    query matches are rewritten.  The update is a pull of the removed
    values when the terminal field is a [SchemaArray] and a set to
    [null] otherwise, and it reaches the terminal field whatever nesting
    the path of the reference goes through: on a document shaped by its
    schema, what the path reads afterwards is what it read before and
    that was no removed value, or [null] on a scalar field, or the
    pulled array on an array of references; no removed value is read any
    more; and in a document that referenced a removed value, every other
    value the path read is still read. *)
Theorem C3_setnull_only_on_hard_delete
        (ops : doc_ops) (schemaType : refType)
        (modelRef pathRef modelSubRef pathSubRef : string)
        (vals : list value) (bound : value) (ctx : delete_ctx) (w : world) :
  rt_required schemaType = false ->
  let run := onDeleteConditions ops schemaType modelRef pathRef modelSubRef
                                pathSubRef vals bound ctx w in
  (ctx_softDelete ctx = true -> run = (Ok tt, w))
  /\ (ctx_softDelete ctx = false ->
      match models w !! modelRef with
      | None => run = (Err (MissingSchemaError modelRef), w)
      | Some sch =>
          match schema_path sch pathRef with
          | None =>
              run = (Err (TypeError "Cannot read property constructor of undefined"),
                     w)
          | Some st =>
              exists u af,
                run = (Ok tt,
                       bulk_updated modelRef
                                    (getFindQueryObjectFor modelRef pathRef vals bound)
                                    u af w)
                /\ u = (if String.eqb (st_ctor st) "SchemaArray"
                        then Pull (update_path u) vals
                        else SetNull (update_path u))
                /\ forall d,
                    shaped_like sch pathRef d = true ->
                    forallb scalar_ref vals = true ->
                    let path := split_dot pathRef in
                    let d' := apply_update u af d in
                    (forall c,
                        In c (candidates d' path) ->
                        (In c (candidates d path) /\ ~ In c vals)
                        \/ (st_ctor st <> "SchemaArray" /\ c = VNull)
                        \/ (st_ctor st = "SchemaArray" /\ is_array c = true))
                    /\ matches (QIn pathRef vals) d' = false
                    /\ (matches (QIn pathRef vals) d = true ->
                        forall c,
                          In c (candidates d path) -> ~ In c vals ->
                          is_array c = false ->
                          In c (candidates d' path))
          end
      end).
Proof.
  intros Hreq run.
  assert (Hrun : run = onDeleteSetNull modelRef pathRef modelSubRef pathSubRef
                                       vals bound ctx w).
  { unfold run, onDeleteConditions. rewrite Hreq. reflexivity. }
  split.
  { intros Hs. rewrite Hrun. unfold onDeleteSetNull. rewrite Hs. reflexivity. }
  intros Hs. rewrite Hrun. unfold onDeleteSetNull. rewrite Hs. cbn [negb].
  unfold bind, model.
  destruct (models w !! modelRef) as [sch | ]; [ | reflexivity ].
  unfold lift.
  destruct (getUpdateQueryObjectFor sch pathRef vals) as [[u af] | e] eqn:Eq;
    rewrite getUpdateQueryObjectFor_eq in Eq;
    destruct (schema_path sch pathRef) as [st | ] eqn:Est;
    try discriminate Eq; [ | injection Eq as <-; reflexivity ].
  assert (Eq' : getUpdateQueryObjectFor sch pathRef vals = Ok (u, af))
    by (rewrite getUpdateQueryObjectFor_eq, Est; exact Eq).
  injection Eq as Hu Haf.
  exists u, af. split; [ reflexivity | ].
  assert (Hop : u = (if String.eqb (st_ctor st) "SchemaArray"
                     then Pull (update_path u) vals
                     else SetNull (update_path u))).
  { rewrite <- Hu. unfold terminal_update.
    destruct (String.eqb (st_ctor st) "SchemaArray"); reflexivity. }
  split; [ exact Hop | ].
  intros d Hshape Hvals.
  destruct (@update_query_shape sch pathRef vals u af Eq')
    as [Htoks [Hnone [_ Hsome]]].
  cbv zeta in Htoks, Hnone, Hsome.
  set (path := split_dot pathRef) in *.
  set (d' := apply_update u af d).
  set (info := build_info sch path) in *.
  destruct (split_dot_snoc pathRef) as [pre [final [Hp [Hpre [Hlast _]]]]].
  fold path in Hp, Hpre, Hlast. rewrite Hpre, Hlast in Htoks.
  assert (Hlen : List.length pre = List.length info).
  { unfold info. rewrite build_info_length, Hp, length_app. simpl. lia. }
  set (arr := String.eqb (st_ctor st) "SchemaArray") in *.
  assert (Hterm : forall k fs,
             update_terminal u k fs
             = if arr
               then match field k fs with
                    | VArr l =>
                        set_field k (VArr (List.filter
                                             (fun x => negb (in_values vals x)) l)) fs
                    | _ => fs
                    end
               else set_field k VNull fs).
  { intros k fs. rewrite Hop. destruct arr; reflexivity. }
  assert (Hfilter : existsb (fun x => x) info = true ->
                    forall x, filter_holds af x
                              = existsb (in_values vals)
                                        (candidates x (after_last_true pre info
                                                         ++ [final]))).
  { intros Hex x.
    destruct af as [ f | ].
    - destruct (Hsome f eq_refl) as [j [_ [Htrue [Hafter [Hkey Hfv]]]]].
      unfold filter_holds. rewrite Hkey, Hfv. cbn [List.tl].
      rewrite (@after_last_true_skipn pre info j Hlen Htrue Hafter).
      rewrite Hp, skipn_app.
      assert (Hj : j < List.length pre).
      { rewrite Hlen.
        destruct (Nat.lt_ge_cases j (List.length info)) as [H | H]; [ exact H | ].
        rewrite nth_overflow in Htrue by exact H. discriminate. }
      replace (S j - List.length pre) with 0 by lia. reflexivity.
    - assert (Hall : forallb negb info = true) by (apply Hnone; reflexivity).
      rewrite none_true, Hex in Hall. discriminate. }
  assert (Hsh : shaped pre info final arr d = true).
  { unfold shaped_like in Hshape. fold path in Hshape.
    rewrite Hpre, Hlast, Est in Hshape. exact Hshape. }
  destruct (@update_reaches u af vals final arr (last_doc_array info) Hterm
                            pre info 0 d Hlen (marker_is_last info) Hfilter Hsh)
    as [HN HK].
  cbv zeta in HN, HK. rewrite <- Htoks, <- Hp in HN, HK.
  fold (apply_update u af d) in HN, HK. fold d' in HN, HK.
  assert (Harr : arr = true <-> st_ctor st = "SchemaArray")
    by (unfold arr; apply String.eqb_eq).
  assert (HN' : forall c,
             In c (candidates d' path) ->
             (In c (candidates d path) /\ ~ In c vals)
             \/ (st_ctor st <> "SchemaArray" /\ c = VNull)
             \/ (st_ctor st = "SchemaArray" /\ is_array c = true)).
  { intros c Hc. destruct (HN c Hc) as [[Hin Hno] | [[Ha Hnull] | [Ha Hc']]].
    - left. split; [ exact Hin | ].
      intros Hv. apply in_values_In in Hv. congruence.
    - right. left. split; [ | exact Hnull ].
      intros H. apply Harr in H. congruence.
    - right. right. split; [ apply Harr, Ha | exact Hc' ]. }
  split; [ exact HN' | ].
  split.
  { cbn [matches]. fold path.
    destruct (existsb (in_values vals) (candidates d' path)) eqn:E; [ | reflexivity ].
    apply existsb_exists in E. destruct E as [c [Hc Hin]].
    destruct (HN c Hc) as [[_ Hno] | [[_ ->] | [_ Hc']]].
    - congruence.
    - rewrite (scalar_refs_no_null vals Hvals) in Hin. discriminate.
    - destruct c; try discriminate Hc'.
      rewrite (scalar_refs_no_array vals _ Hvals) in Hin. discriminate. }
  intros Hm c Hc Hno Hna.
  apply HK; [ right; exact Hm | exact Hc | | exact Hna ].
  destruct (in_values vals c) eqn:E; [ | reflexivity ].
  apply in_values_In in E. destruct (Hno E).
Qed.

(** A reference below two document arrays.  The contact 10 is removed:
    a soft delete leaves the team as it is; a hard delete makes one
    update through [groups.$[].members.$[j].contact], after which the
    two members that referenced the contact hold [null], the member that
    references contact 11 still does, and nothing in the team references
    the removed contact. *)
Lemma C3_setnull_witness :
  let w := team_world in
  let q := QIn "groups.members.contact" [VOid 10] in
  let hard := onDeleteConditions (ops_at 1) (contact_type false false)
                                 "Team" "groups.members.contact" "Person" "contacts"
                                 [VOid 10] VNull no_ctx w in
  let soft := onDeleteConditions (ops_at 1) (contact_type false false)
                                 "Team" "groups.members.contact" "Person" "contacts"
                                 [VOid 10] VNull
                                 {| ctx_softDelete := true; ctx_deleted := true |} w in
  (rt_required (contact_type false false) = false
   /\ shaped_like TeamSchema "groups.members.contact" team = true
   /\ forallb scalar_ref [VOid 10] = true
   /\ matches q team = true)
  /\ soft = (Ok tt, w)
  /\ (exists u af,
         hard = (Ok tt, bulk_updated "Team" q u af w)
         /\ matches q (apply_update u af team) = false
         /\ In (VOid 11) (candidates (apply_update u af team)
                                     ["groups"; "members"; "contact"]))
  /\ log (snd hard)
     = [EUpdateMany "Team" q (SetNull "groups.$[].members.$[j].contact")
                    (Some {| af_key := "j.contact"; af_vals := [VOid 10] |})]
  /\ coll "Team" (snd hard)
     = [VObj [("_id", VOid 400);
              ("groups",
               VArr [VObj [("_id", VOid 401);
                           ("members",
                            VArr [VObj [("_id", VOid 411); ("contact", VNull)];
                                  member 412 11])];
                     VObj [("_id", VOid 402);
                           ("members",
                            VArr [VObj [("_id", VOid 421); ("contact", VNull)]])]])]].
Proof.
  intros w q hard soft.
  assert (Hshape : shaped_like TeamSchema "groups.members.contact" team = true)
    by (vm_compute; reflexivity).
  assert (Hmatch : matches q team = true) by (vm_compute; reflexivity).
  split; [ split; [ reflexivity | split; [ exact Hshape | split;
                                           [ reflexivity | exact Hmatch ] ] ] | ].
  split.
  { apply (@C3_setnull_only_on_hard_delete
             (ops_at 1) (contact_type false false)
             "Team" "groups.members.contact" "Person" "contacts"
             [VOid 10] VNull {| ctx_softDelete := true; ctx_deleted := true |}
             w eq_refl).
    reflexivity. }
  split.
  { destruct (@C3_setnull_only_on_hard_delete
                (ops_at 1) (contact_type false false)
                "Team" "groups.members.contact" "Person" "contacts"
                [VOid 10] VNull no_ctx w eq_refl) as [_ H].
    specialize (H eq_refl).
    assert (Hm : models w !! "Team" = Some TeamSchema) by (vm_compute; reflexivity).
    assert (Hp : schema_path TeamSchema "groups.members.contact"
                 = Some (ref_field "Person.contacts" None false false))
      by (vm_compute; reflexivity).
    rewrite Hm, Hp in H. destruct H as [u [af [Hrun [_ Hreach]]]].
    destruct (Hreach team Hshape eq_refl) as [_ [Hclean Hkept]].
    exists u, af. split; [ exact Hrun | ]. split; [ exact Hclean | ].
    apply (Hkept Hmatch).
    - vm_compute. right. left. reflexivity.
    - intros [H | []]. discriminate H.
    - reflexivity. }
  split; vm_compute; reflexivity.
Defined.
